(** * ZIMM: zero-inflated mixture model (src/ZIMM.py)

    A shallow embedding of the EM engine of ZIMM.py and the proofs of the
    properties its specification states about it.

    Numbers.  A numpy float64 is modelled by [npfloat]: a real number or one
    of the three IEEE special values.  Arithmetic on finite values is the
    exact arithmetic of [R]; rounding, overflow, underflow and the sign of
    zero are not part of the model.  The special values follow IEEE 754 as
    numpy implements it (0 * inf = nan, log 0 = -inf, x / 0 = +-inf, ...).
    A property that float64 keeps only within a range of its arguments is
    stated with that range as a hypothesis, and a property of what a
    function returns is stated for the calls that return.

    Arrays.  An ndarray is its index function; the shape is passed next to
    it, as the source destructures it ([N, D = Y.shape]).

    Exceptions.  A function that can raise returns a [result].

    External collaborators.  scipy.special.erf, scipy.optimize.minimize and
    the library calls of initalizeParams (sklearn's mixture fit, scipy's
    curve_fit) are variables of the section. *)

From Stdlib Require Import Reals Lra Lia List Bool ZArith Sorted.
Import ListNotations.

Open Scope R_scope.

(* ================================================================= *)
(** ** numpy float64 values *)

Inductive npfloat : Type :=
| Fin (r : R)
| PInf
| NInf
| NaN.

Declare Scope npf_scope.
Delimit Scope npf_scope with npf.
Bind Scope npf_scope with npfloat.

Definition Rltb (x y : R) : bool := if Rlt_dec x y then true else false.

Definition Rsgn (r : R) : comparison :=
  if Rlt_dec r 0 then Lt else if Rlt_dec 0 r then Gt else Eq.

Definition inf_of_sign (c : comparison) : npfloat :=
  match c with Lt => NInf | Gt => PInf | Eq => NaN end.

Definition fsgn (x : npfloat) : comparison :=
  match x with Fin r => Rsgn r | PInf => Gt | NInf => Lt | NaN => Eq end.

Definition cmul (a b : comparison) : comparison :=
  match a, b with
  | Eq, _ | _, Eq => Eq
  | Lt, Lt | Gt, Gt => Gt
  | _, _ => Lt
  end.

Definition fneg (x : npfloat) : npfloat :=
  match x with Fin r => Fin (- r) | PInf => NInf | NInf => PInf | NaN => NaN end.

Definition fadd (x y : npfloat) : npfloat :=
  match x, y with
  | NaN, _ | _, NaN => NaN
  | Fin a, Fin b => Fin (a + b)
  | PInf, NInf | NInf, PInf => NaN
  | PInf, _ | _, PInf => PInf
  | NInf, _ | _, NInf => NInf
  end.

Definition fsub (x y : npfloat) : npfloat := fadd x (fneg y).

Definition fmul (x y : npfloat) : npfloat :=
  match x, y with
  | NaN, _ | _, NaN => NaN
  | Fin a, Fin b => Fin (a * b)
  | _, _ => inf_of_sign (cmul (fsgn x) (fsgn y))
  end.

Definition fdiv (x y : npfloat) : npfloat :=
  match x, y with
  | NaN, _ | _, NaN => NaN
  | Fin a, Fin b => if Req_dec_T b 0 then inf_of_sign (Rsgn a) else Fin (a / b)
  | Fin _, _ => Fin 0
  | _, Fin b => match Rsgn b with Lt => fneg x | _ => x end
  | _, _ => NaN
  end.

Notation "x + y" := (fadd x y) : npf_scope.
Notation "x - y" := (fsub x y) : npf_scope.
Notation "x * y" := (fmul x y) : npf_scope.
Notation "x / y" := (fdiv x y) : npf_scope.
Notation "- x" := (fneg x) : npf_scope.

(** [x ** 2] *)
Definition fsqr (x : npfloat) : npfloat := (x * x)%npf.

(** [x ** 1.5] *)
Definition fpow15 (x : npfloat) : npfloat :=
  match x with
  | Fin r => match Rsgn r with
             | Gt => Fin (Rpower r 1.5)
             | Eq => Fin 0
             | Lt => NaN
             end
  | PInf => PInf
  | NInf => PInf
  | NaN => NaN
  end.

Definition fexp (x : npfloat) : npfloat :=
  match x with Fin r => Fin (exp r) | PInf => PInf | NInf => Fin 0 | NaN => NaN end.

Definition flog (x : npfloat) : npfloat :=
  match x with
  | Fin r => match Rsgn r with
             | Gt => Fin (ln r)
             | Eq => NInf
             | Lt => NaN
             end
  | PInf => PInf
  | NInf => NaN
  | NaN => NaN
  end.

Definition fsqrt (x : npfloat) : npfloat :=
  match x with
  | Fin r => match Rsgn r with Lt => NaN | _ => Fin (sqrt r) end
  | PInf => PInf
  | NInf => NaN
  | NaN => NaN
  end.

Definition fabs (x : npfloat) : npfloat :=
  match x with Fin r => Fin (Rabs r) | PInf => PInf | NInf => PInf | NaN => NaN end.

(** Comparisons: false as soon as one side is nan. *)
Definition fltb (x y : npfloat) : bool :=
  match x, y with
  | NaN, _ | _, NaN => false
  | Fin a, Fin b => Rltb a b
  | NInf, NInf => false
  | NInf, _ => true
  | Fin _, PInf => true
  | _, _ => false
  end.

Definition fgtb (x y : npfloat) : bool := fltb y x.

Definition fleb (x y : npfloat) : bool :=
  match x, y with
  | NaN, _ | _, NaN => false
  | _, _ => negb (fltb y x)
  end.

Definition fgeb (x y : npfloat) : bool := fleb y x.

Definition isnan (x : npfloat) : bool :=
  match x with NaN => true | _ => false end.

Definition isinf (x : npfloat) : bool :=
  match x with PInf | NInf => true | _ => false end.

Definition isfinite (x : npfloat) : bool :=
  match x with Fin _ => true | _ => false end.

(** The largest finite float64, (2 - 2^-52) * 2^1023. *)
Definition DBL_MAX : R := (2 - / 2 ^ 52) * 2 ^ 1023.

(** [np.nan_to_num]: nan becomes 0, an infinity becomes the finite float of
    largest magnitude and the same sign. *)
Definition nan_to_num (x : npfloat) : npfloat :=
  match x with
  | Fin r => Fin r
  | PInf => Fin DBL_MAX
  | NInf => Fin (- DBL_MAX)
  | NaN => Fin 0
  end.

(** A boolean array entering float arithmetic. *)
Definition b2f (b : bool) : npfloat := if b then Fin 1 else Fin 0.

(** The order on likelihood values: [fle x y] when [x <= y] holds as
    floats. *)
Definition fle (x y : npfloat) : Prop := fleb x y = true.

(* ================================================================= *)
(** ** Exceptions *)

Inductive exn : Type :=
| SigmaError (n_negative n_zero : nat)
    (* 'Error: Sigma < 0 in %i cases, equal to zero in %i cases' *)
| AssertionError
| NanOrInfError (index : nat)
    (* 'Matrix index %i in list has a NaN or infinite element' *)
| LikelihoodNotIncreasing (past current : npfloat)
    (* 'Likelihood is not increasing: likelihood at past iteration is
        %2.5f, current iteration %2.5f' *)
| ValueError
    (* max() or argmax of an empty sequence *)
| InitError.
    (* anything raised by the external initializer *)

Inductive result (A : Type) : Type :=
| OK (a : A)
| Raise (e : exn).

Arguments OK {A} a.
Arguments Raise {A} e.

Definition bind {A B : Type} (m : result A) (k : A -> result B) : result B :=
  match m with OK a => k a | Raise e => Raise e end.

Notation "x <- m ;; k" := (bind m (fun x => k))
  (at level 61, m at next level, right associativity).
Notation "' pat <- m ;; k" := (bind m (fun x => match x with pat => k end))
  (at level 61, pat pattern, m at next level, right associativity).

Definition py_assert (b : bool) : result unit :=
  if b then OK tt else Raise AssertionError.

(** What a loop or a whole fit comes to.  [OutOfFuel] belongs to the model
    of the [while] loop, not to Python. *)
Inductive outcome (A : Type) : Type :=
| Done (a : A)
| Failed (e : exn)
| OutOfFuel.

Arguments Done {A} a.
Arguments Failed {A} e.
Arguments OutOfFuel {A}.

(* ================================================================= *)
(** ** ndarrays *)

Definition vector : Type := nat -> npfloat.
Definition matrix : Type := nat -> nat -> npfloat.
Definition array3 : Type := nat -> nat -> nat -> npfloat.
Definition bmatrix : Type := nat -> nat -> bool.

Definition range (n : nat) : list nat := seq 0 n.

Definition fsum (l : list npfloat) : npfloat := fold_left fadd l (Fin 0).

(** Row [i] of a matrix with [C] columns, as the sequence Python iterates. *)
Definition row (C : nat) (M : matrix) (i : nat) : list npfloat :=
  map (M i) (range C).

Definition flat1 (n : nat) (v : vector) : list npfloat := map v (range n).

Definition flat2 (R C : nat) (M : matrix) : list npfloat :=
  flat_map (row C M) (range R).

(** [(cond).all()] and [(cond).sum()] over an [R] x [C] array. *)
Definition all2 (R C : nat) (p : nat -> nat -> bool) : bool :=
  forallb (fun i => forallb (p i) (range C)) (range R).

Definition count2 (R C : nat) (p : nat -> nat -> bool) : nat :=
  list_sum (map (fun i => length (filter (p i) (range C))) (range R)).

(** [M.sum(axis = 1)], [M.sum(axis = 0)] and [sum(M)] (numpy's, which
    [from pylab import *] puts in place of the builtin). *)
Definition sum_axis1 (C : nat) (M : matrix) : vector :=
  fun i => fsum (map (M i) (range C)).

Definition sum_axis0 (R : nat) (M : matrix) : vector :=
  fun j => fsum (map (fun i => M i j) (range R)).

Definition sum_all (R C : nat) (M : matrix) : npfloat := fsum (flat2 R C M).

Definition sum3_axis1 (D : nat) (A : array3) : matrix :=
  fun i k => fsum (map (fun d => A i d k) (range D)).

Definition sum3_axis0 (N : nat) (A : array3) : matrix :=
  fun d k => fsum (map (fun i => A i d k) (range N)).

(** [np.dot(A, B)] with [inner] the shared dimension. *)
Definition dot (inner : nat) (A B : matrix) : matrix :=
  fun i k => fsum (map (fun d => (A i d * B d k)%npf) (range inner)).

Definition transpose (M : matrix) : matrix := fun i j => M j i.

(** [np.tile(v, [n, 1])] for a 1-d [v]. *)
Definition tile_rows (v : vector) : matrix := fun _ j => v j.

(** [np.tile(np.resize(M, [N, D, 1]), [1, 1, K])] *)
Definition tile_ND1 (M : matrix) : array3 := fun i d _ => M i d.

(** [np.tile(np.resize(M, [N, 1, K]), [1, D, 1])] *)
Definition tile_N1K (M : matrix) : array3 := fun i _ k => M i k.

(** [np.tile(M, [N, 1, 1])] and [np.tile(np.resize(M, [1, D, K]), [N, 1, 1])] *)
Definition tile_1DK (M : matrix) : array3 := fun _ d k => M d k.

(** [W[i, :] = r] *)
Definition set_row (M : matrix) (i : nat) (r : vector) : matrix :=
  fun i' k => if Nat.eqb i' i then r k else M i' k.

(** Python's builtin [max] over a row. *)
Definition fmax2 (x y : npfloat) : npfloat := if fltb x y then y else x.

Definition py_max (l : list npfloat) : result npfloat :=
  match l with
  | [] => Raise ValueError
  | x :: t => OK (fold_left fmax2 t x)
  end.

(** [np.argmax]: the first index of the maximum (of the first nan, if
    there is one). *)
Fixpoint argmax_from (l : list npfloat) (i : nat) (best : npfloat) (bi : nat)
  : nat :=
  match l with
  | [] => bi
  | x :: t =>
      if isnan best then bi
      else if isnan x || fltb best x then argmax_from t (S i) x i
      else argmax_from t (S i) best bi
  end.

Definition argmax (l : list npfloat) : result nat :=
  match l with
  | [] => Raise ValueError
  | x :: t => OK (argmax_from t 1 x 0)
  end.

(** ** checkNoNans *)

Fixpoint checkNoNans_from (i : nat) (matrix_list : list (list npfloat))
  : result unit :=
  match matrix_list with
  | [] => OK tt
  | M :: rest =>
      if existsb isnan M || existsb isinf M
      then Raise (NanOrInfError i)
      else checkNoNans_from (S i) rest
  end.

Definition checkNoNans (matrix_list : list (list npfloat)) : result unit :=
  checkNoNans_from 0 matrix_list.

(** [for x in l: s = body(s, x)], stopping at the first exception. *)
Fixpoint for_each {S : Type} (l : list nat) (body : S -> nat -> result S)
  (s : S) : result S :=
  match l with
  | [] => OK s
  | x :: t => s' <- body s x ;; for_each t body s'
  end.

(** numpy's [.max()] of a row: nan if the row holds one. *)
Definition np_max (l : list npfloat) : result npfloat :=
  match l with
  | [] => Raise ValueError
  | x :: t => if existsb isnan l then OK NaN else OK (fold_left fmax2 t x)
  end.

(* ================================================================= *)
(** ** The EM engine *)

Section ZIMM.

(** scipy.special.erf on the reals. *)
Variable erf : R -> R.

(** scipy.optimize.minimize(fun, x0, bounds = [[lo, hi]],
    options = {'gtol': gtol}, jac = True), returning [.x[0]]. *)
Variable minimize :
  (npfloat -> npfloat * npfloat) -> npfloat -> npfloat * npfloat -> npfloat
  -> npfloat.

(** The body of initalizeParams(Y, k) for the method 'standard', the one
    fitModel uses, up to its last assertion: sklearn's mixture fit on the
    imputed data, which gives the means, the sigmas and the weights, and
    scipy's curve_fit of exp_decay, which gives the decay coefficient. *)
Variable gmm_curve_fit :
  nat -> nat -> matrix -> nat -> result (matrix * matrix * vector * npfloat).

(** *** initalizeParams *)

Definition initalizeParams (N D : nat) (Y : matrix) (k : nat)
  : result (matrix * matrix * vector * npfloat) :=
  '(cluster_mus, cluster_sigmas, cluster_weights, decay_coef) <-
    gmm_curve_fit N D Y k ;;
  _ <- py_assert (all2 D k (fun d j => fgtb (cluster_sigmas d j) (Fin 0))) ;;
  OK (cluster_mus, cluster_sigmas, cluster_weights, decay_coef).

Definition ferf (x : npfloat) : npfloat :=
  match x with
  | Fin r => Fin (erf r)
  | PInf => Fin 1
  | NInf => Fin (-1)
  | NaN => NaN
  end.

(** *** computeIntegrals *)

(** The entries of the three arrays at one (dimension, cluster) pair. *)
Definition integrals_at (mu sigma decay_coef : npfloat)
  : npfloat * npfloat * npfloat :=
  let a := ((Fin 1 + Fin 2 * fsqr sigma * decay_coef) / (Fin 2 * fsqr sigma))%npf in
  let b := (mu / (Fin 2 * a * fsqr sigma))%npf in
  let D := fexp (- fsqr mu / (Fin 2 * fsqr sigma) + a * fsqr b)%npf in
  let C := (D * fsqrt (Fin PI) * (ferf (b * fsqrt a) + Fin 1)
            / (Fin 2 * fsqrt a))%npf in
  let E1 := (C / (fsqrt (Fin 2 * Fin PI) * sigma))%npf in
  let EX := ((D / C) * fexp (- a * fsqr b) / (Fin 2 * a) + b)%npf in
  let EX2 := ((D / C)
              * (fsqrt (Fin PI) / (Fin 4 * fpow15 a)
                 - fsqrt (Fin PI) * ferf (- b * fsqrt a) / (Fin 4 * fpow15 a)
                 - b * fexp (- a * fsqr b) / (Fin 2 * a))
              + Fin 2 * b * (D / C) * fexp (- a * fsqr b) / (Fin 2 * a)
              + fsqr b)%npf in
  (E1, EX, EX2).

Definition computeIntegrals (D K : nat) (mu sigma : matrix)
  (decay_coef : npfloat) : result (matrix * matrix * matrix) :=
  if negb (all2 D K (fun d k => fgtb (sigma d k) (Fin 0))) then
    Raise (SigmaError
             (count2 D K (fun d k => fltb (sigma d k) (Fin 0)))
             (count2 D K (fun d k => fltb (fabs (sigma d k)) (Fin 1e-6))))
  else
    _ <- py_assert (fgtb decay_coef (Fin 0)) ;;
    let at_ := fun d k => integrals_at (mu d k) (sigma d k) decay_coef in
    OK (fun d k => fst (fst (at_ d k)),
        fun d k => snd (fst (at_ d k)),
        fun d k => snd (at_ d k)).

(** *** computePosteriorLogZProbability *)

Definition is_zero (Y : matrix) : bmatrix :=
  fun i d => fltb (fabs (Y i d)) (Fin 1e-6).

Definition computePosteriorLogZProbability (N D K : nat) (Y : matrix)
  (cluster_mus cluster_sigmas : matrix) (cluster_weights : vector)
  (decay_coef : npfloat) (E1 : matrix) : matrix :=
  let Y_is_zero := is_zero Y in
  let zero_ps : matrix :=
    fun i k => nan_to_num (dot D (fun i d => b2f (Y_is_zero i d))
                                 (fun d k => flog (E1 d k)) i k) in
  let cluster_weights_matrix : matrix :=
    tile_rows (fun k => flog (cluster_weights k)) in
  let decay_matrix : matrix :=
    transpose
      (tile_rows
         (sum_axis1 D
            (fun i d =>
               nan_to_num
                 (b2f (negb (Y_is_zero i d))
                  * flog (Fin 1 - fexp (- decay_coef * fsqr (Y i d))))%npf))) in
  let normalization_matrix : matrix :=
    dot D (fun i d => b2f (negb (Y_is_zero i d)))
          (fun d k =>
             flog (Fin 1 / fsqrt (Fin 2 * Fin PI * fsqr (cluster_sigmas d k)))%npf) in
  let Y3D := tile_ND1 Y in
  let Yiszero3D := fun i d (k : nat) => Y_is_zero i d in
  let mu3d := tile_1DK cluster_mus in
  let sigma3d := tile_1DK cluster_sigmas in
  let probs : matrix :=
    fun i k =>
      (- sum3_axis1 D
           (fun i d k =>
              b2f (negb (Yiszero3D i d k))
              * (fsqr (Y3D i d k - mu3d i d k)
                 / (Fin 2 * fsqr (sigma3d i d k)))) i k)%npf in
  fun i k =>
    (cluster_weights_matrix i k + zero_ps i k + normalization_matrix i k
     + decay_matrix i k + probs i k)%npf.

(** *** computeLLFromW *)

Definition computeLLFromW_row (K : nat) (st : matrix * npfloat) (i : nat)
  : result (matrix * npfloat) :=
  let '(W, ll) := st in
  max_val <- py_max (row K W i) ;;
  let W := set_row W i (fun k => (W i k - max_val)%npf) in
  OK (W, (ll + max_val + flog (fsum (map fexp (row K W i))))%npf).

Definition computeLLFromW (N K : nat) (W : matrix) : result npfloat :=
  _ <- checkNoNans [flat2 N K W] ;;
  st <- for_each (range N) (computeLLFromW_row K) (W, Fin 0) ;;
  OK (snd st).

(** *** Estep *)

Definition normalize_row (K : nat) (W : matrix) (i : nat) : result matrix :=
  m <- np_max (row K W i) ;;
  let W := set_row W i (fun k => (W i k - m)%npf) in
  let W := set_row W i (fun k => fexp (W i k)) in
  let s := fsum (row K W i) in
  OK (set_row W i (fun k => (W i k / s)%npf)).

(** What Estep does once the likelihood [ll] of [W] is there: the
    assertion on it, the normalization of the rows and the last check. *)
Definition Estep_after_likelihood (N K : nat) (W : matrix) (ll : npfloat)
  (E1 EX EX2 : matrix)
  : result (matrix * npfloat * matrix * matrix * matrix) :=
  _ <- py_assert (negb (isinf ll)) ;;
  W <- for_each (range N) (normalize_row K) W ;;
  _ <- checkNoNans [flat2 N K W] ;;
  OK (W, ll, E1, EX, EX2).

Definition Estep (N D K : nat) (Y : matrix)
  (cluster_mus cluster_sigmas : matrix) (cluster_weights : vector)
  (decay_coef : npfloat)
  : result (matrix * npfloat * matrix * matrix * matrix) :=
  ints <- computeIntegrals D K cluster_mus cluster_sigmas decay_coef ;;
  let '(E1, EX, EX2) := ints in
  _ <- checkNoNans [flat2 D K E1; flat2 D K EX; flat2 D K EX2] ;;
  let W := computePosteriorLogZProbability N D K Y cluster_mus cluster_sigmas
             cluster_weights decay_coef E1 in
  ll <- computeLLFromW N K W ;;
  Estep_after_likelihood N K W ll E1 EX EX2.

(** *** Mstep *)

Definition decayCoefObjectiveFn (N D K : nat) (x term_1 : npfloat)
  (Y : matrix) (Y_is_zero : bmatrix) (W : matrix) : npfloat * npfloat :=
  let exp_Y_squared : matrix := fun i d => fexp (- x * fsqr (Y i d))%npf in
  let log_exp_Y : matrix :=
    fun i d => nan_to_num (flog (Fin 1 - exp_Y_squared i d)%npf) in
  let exp_ratio : matrix :=
    fun i d =>
      nan_to_num (exp_Y_squared i d / (Fin 1 - exp_Y_squared i d))%npf in
  let obj :=
    (x * term_1
     + sum_all K D
         (dot N (transpose W)
            (fun i d => (Fin 1 - b2f (Y_is_zero i d)) * log_exp_Y i d)))%npf in
  let grad :=
    (term_1
     + sum_all K D
         (dot N (transpose W)
            (fun i d =>
               (Fin 1 - b2f (Y_is_zero i d)) * Y i d * exp_ratio i d)))%npf in
  ((- obj)%npf, (- grad)%npf).

Definition Mstep (N D K : nat) (Y W EX EX2 : matrix)
  (cluster_mus cluster_sigmas : matrix) (cluster_weights : vector)
  (decay_coef : npfloat) : matrix * matrix * vector * npfloat :=
  (* optimize weights *)
  let unnormalized_cluster_weights : vector := sum_axis0 N W in
  let unnormalized_weight_matrix : matrix :=
    tile_rows unnormalized_cluster_weights in
  let Y_is_zero := is_zero Y in
  let Yiszero3D := fun i d (k : nat) => Y_is_zero i d in
  let W3D := tile_N1K W in
  let EX3D := tile_1DK EX in
  let Y3D := tile_ND1 Y in
  let EX23D := tile_1DK EX2 in
  (* optimize mus *)
  let nonzero_mus : matrix :=
    dot N (transpose (fun i d => (Fin 1 - b2f (Y_is_zero i d)) * Y i d)%npf) W in
  let zero_mus : matrix :=
    sum3_axis0 N
      (fun i d k => b2f (Yiszero3D i d k) * W3D i d k * EX3D i d k)%npf in
  let new_cluster_mus : matrix :=
    fun d k =>
      ((nonzero_mus d k + zero_mus d k) / unnormalized_weight_matrix d k)%npf in
  let mu3D := tile_1DK new_cluster_mus in
  (* optimize sigmas given new mus *)
  let new_cluster_sigmas : matrix :=
    sum3_axis0 N
      (fun i d k =>
         (Fin 1 - b2f (Yiszero3D i d k)) * W3D i d k
         * fsqr (Y3D i d k - mu3D i d k))%npf in
  let new_cluster_sigmas : matrix :=
    fun d k =>
      (new_cluster_sigmas d k
       + sum3_axis0 N
           (fun i d k =>
              b2f (Yiszero3D i d k) * W3D i d k
              * (EX23D i d k - Fin 2 * mu3D i d k * EX3D i d k
                 + fsqr (mu3D i d k))) d k)%npf in
  let new_cluster_sigmas : matrix :=
    fun d k =>
      fsqrt (new_cluster_sigmas d k / unnormalized_weight_matrix d k)%npf in
  (* renormalize weights *)
  let new_cluster_weights : vector :=
    fun k =>
      (unnormalized_cluster_weights k
       / fsum (flat1 K unnormalized_cluster_weights))%npf in
  (* optimize decay_coef *)
  let term_1 :=
    sum_all N D
      (fun i d =>
         b2f (Y_is_zero i d)
         * dot K (fun i k => - W i k) (transpose EX2) i d)%npf in
  let new_decay_coef :=
    minimize (fun x => decayCoefObjectiveFn N D K x term_1 Y Y_is_zero W)
      decay_coef (Fin 1e-4, PInf) (Fin 1e-8) in
  (new_cluster_mus, new_cluster_sigmas, new_cluster_weights, new_decay_coef).

(** *** fitModel *)

(** The local variables of fitModel that live across iterations.
    [st_esteps] is a ghost variable: for every E-step that returned, in
    order, the decay coefficient it was called with and the likelihood it
    returned. *)
Record em_state : Type := mk_em_state {
  st_mus : matrix;
  st_sigmas : matrix;
  st_weights : vector;
  st_decay : npfloat;
  st_n_iter : Z;
  st_lls : list npfloat;
  st_clusterings : list (list nat);
  st_esteps : list (npfloat * npfloat)
}.

Record model_params : Type := mk_model_params {
  cluster_mus : matrix;
  cluster_sigmas : matrix;
  cluster_weights : vector;
  decay_coef : npfloat;
  lls : list npfloat
}.

Inductive control : Type := Next | Break.

(** [lls[-1]] and [lls[-2]] *)
Definition last1 (l : list npfloat) : npfloat := nth (length l - 1) l NaN.
Definition last2 (l : list npfloat) : npfloat := nth (length l - 2) l NaN.

(** [zhat = []; for i in range(len(W)): zhat.append(np.argmax(W[i, :]))] *)
Fixpoint decode_rows (K : nat) (W : matrix) (rows : list nat)
  : result (list nat) :=
  match rows with
  | [] => OK []
  | i :: t =>
      z <- argmax (row K W i) ;;
      zs <- decode_rows K W t ;;
      OK (z :: zs)
  end.

Definition decode (N K : nat) (W : matrix) : result (list nat) :=
  decode_rows K W (range N).

Section Fit.

Variables N D K : nat.
Variable Y : matrix.
Variable max_iter : Z.
Variable ll_delta_thresh : npfloat.

(** The two tests on the trace ([if len(lls) >= 2: ...]): the first raises
    when the likelihood went down, the second answers whether the loop is
    left because the change is below the threshold. *)
Definition likelihood_checks (lls : list npfloat) : result bool :=
  if (2 <=? length lls)%nat then
    if fltb (last1 lls) (last2 lls)
    then Raise (LikelihoodNotIncreasing (last2 lls) (last1 lls))
    else OK (fltb (fabs (last1 lls - last2 lls)%npf) ll_delta_thresh)
  else OK false.

(** One pass through the body of the [while] loop. *)
Definition em_iteration (st : em_state) : result (control * em_state) :=
  e <- Estep N D K Y (st_mus st) (st_sigmas st) (st_weights st) (st_decay st) ;;
  let '(W, ll, E1, EX, EX2) := e in
  let lls := st_lls st ++ [ll] in
  let m := Mstep N D K Y W EX EX2 (st_mus st) (st_sigmas st) (st_weights st)
             (st_decay st) in
  let '(mus, sigmas, weights, decay) := m in
  _ <- checkNoNans [flat2 N K W; flat2 D K EX; flat2 D K EX2; flat2 D K mus;
                    flat2 D K sigmas; flat1 K weights; [decay]] ;;
  zhat <- decode N K W ;;
  let st' n :=
    mk_em_state mus sigmas weights decay n lls (st_clusterings st ++ [zhat])
      (st_esteps st ++ [(st_decay st, ll)]) in
  converged <- likelihood_checks lls ;;
  if converged : bool then OK (Break, st' (st_n_iter st))
  else if (st_n_iter st >=? max_iter)%Z then OK (Break, st' (st_n_iter st))
  else OK (Next, st' (st_n_iter st + 1)%Z).

(** [while n_iter < max_iter: ...] *)
Fixpoint em_loop (fuel : nat) (st : em_state) : outcome em_state :=
  if (st_n_iter st <? max_iter)%Z then
    match fuel with
    | O => OutOfFuel
    | S fuel' =>
        match em_iteration st with
        | Raise e => Failed e
        | OK (Break, st') => Done st'
        | OK (Next, st') => em_loop fuel' st'
        end
    end
  else Done st.

(** The loop heads a run started in [st0] passes through. *)
Inductive reaches (st0 : em_state) : em_state -> Prop :=
| reaches_start : reaches st0 st0
| reaches_next (st st' : em_state) :
    reaches st0 st ->
    (st_n_iter st <? max_iter)%Z = true ->
    em_iteration st = OK (Next, st') ->
    reaches st0 st'.

(** [n_iter = 0; lls = []; clusterings = []] *)
Definition init_state (mus sigmas : matrix) (weights : vector)
  (decay : npfloat) : em_state :=
  mk_em_state mus sigmas weights decay 0 [] [] [].

(** fitModel, returning next to [(zhat, params)] the ghost record of the
    E-steps that returned.  The [verbose] argument only prints and the seed
    only reaches the initializer; neither is modelled. *)
Definition fitModel_traced
  : outcome (list nat * model_params * list (npfloat * npfloat)) :=
  match initalizeParams N D Y K with
  | Raise e => Failed e
  | OK (mus, sigmas, weights, decay) =>
      match checkNoNans [flat2 D K mus; flat2 D K sigmas; flat1 K weights;
                         [decay]] with
      | Raise e => Failed e
      | OK _ =>
          match em_loop (Z.to_nat max_iter)
                  (init_state mus sigmas weights decay) with
          | OutOfFuel => OutOfFuel
          | Failed e => Failed e
          | Done st =>
              match Estep N D K Y (st_mus st) (st_sigmas st) (st_weights st)
                      (st_decay st) with
              | Raise e => Failed e
              | OK (W, ll, E1, EX, EX2) =>
                  match decode N K W with
                  | Raise e => Failed e
                  | OK zhat =>
                      Done (zhat,
                            mk_model_params (st_mus st) (st_sigmas st)
                              (st_weights st) (st_decay st) (st_lls st),
                            st_esteps st ++ [(st_decay st, ll)])
                  end
              end
          end
      end
  end.

Definition fitModel : outcome (list nat * model_params) :=
  match fitModel_traced with
  | Done (zhat, params, _) => Done (zhat, params)
  | Failed e => Failed e
  | OutOfFuel => OutOfFuel
  end.

End Fit.

(* ================================================================= *)
(** ** The integrals over the reals

    The closed forms computeIntegrals evaluates, written on real arguments;
    the properties section shows that on finite arguments with sigma > 0 and
    lambda > 0 the arrays hold exactly these values. *)

Definition a_r (s l : R) : R := (1 + 2 * (s * s) * l) / (2 * (s * s)).

Definition b_r (mu s l : R) : R := mu / (2 * a_r s l * (s * s)).

Definition D_r (mu s l : R) : R :=
  exp (- (mu * mu) / (2 * (s * s)) + a_r s l * (b_r mu s l * b_r mu s l)).

Definition C_r (mu s l : R) : R :=
  D_r mu s l * sqrt PI * (erf (b_r mu s l * sqrt (a_r s l)) + 1)
  / (2 * sqrt (a_r s l)).

Definition E1_r (mu s l : R) : R := C_r mu s l / (sqrt (2 * PI) * s).

(** A real array seen as an ndarray. *)
Definition lift1 (v : nat -> R) : vector := fun k => Fin (v k).
Definition lift2 (m : nat -> nat -> R) : matrix := fun i j => Fin (m i j).

(* ================================================================= *)
(** ** The likelihood over the reals

    The two readings of the total log-likelihood of a real matrix of
    unnormalized log-posteriors: the row-wise stabilised one the
    specification describes, and the naive one. *)

Definition Rsum (l : list R) : R := fold_right Rplus 0 l.

Definition Rmax_list (l : list R) : R :=
  match l with
  | [] => 0
  | x :: t => fold_left Rmax t x
  end.

(** Subtract the row maximum, exponentiate, sum, add back log(sum) + max. *)
Definition lse_stable (r : list R) : R :=
  let m := Rmax_list r in
  m + ln (Rsum (map (fun w => exp (w - m)) r)).

Definition lse_naive (r : list R) : R := ln (Rsum (map exp r)).

Definition Rrow (K : nat) (W : nat -> nat -> R) (i : nat) : list R :=
  map (W i) (range K).

Definition ll_stable (N K : nat) (W : nat -> nat -> R) : R :=
  Rsum (map (fun i => lse_stable (Rrow K W i)) (range N)).

Definition ll_naive (N K : nat) (W : nat -> nat -> R) : R :=
  Rsum (map (fun i => lse_naive (Rrow K W i)) (range N)).

(** What checkNoNans asks of an array: every element is a real number. *)
Definition all_finite (l : list npfloat) : Prop :=
  forall x, In x l -> isfinite x = true.

(** The real number a finite float stands for. *)
Definition to_R (x : npfloat) : R :=
  match x with Fin r => r | _ => 0 end.

Definition unlift2 (M : matrix) : nat -> nat -> R := fun i j => to_R (M i j).

(** A trace of likelihoods that never goes down. *)
Definition nondecreasing (l : list npfloat) : Prop :=
  forall i, (S i < length l)%nat -> fle (nth i l NaN) (nth (S i) l NaN).

(** What the loop of fitModel keeps true at its head: the counter is the
    length of the trace, the trace is the likelihoods of the E-steps run so
    far, its entries are real numbers and it never goes down. *)
Definition trace_inv (st : em_state) : Prop :=
  st_n_iter st = Z.of_nat (length (st_lls st))
  /\ map snd (st_esteps st) = st_lls st
  /\ nondecreasing (st_lls st)
  /\ all_finite (st_lls st).

(** The decay coefficient is at the lower bound handed to the minimizer, or
    above. *)
Definition decay_bounded (x : npfloat) : Prop := fle (Fin 1e-4) x.

(** Every E-step after the first was called with a bounded decay
    coefficient, and so will the next one be. *)
Definition decay_inv (st : em_state) : Prop :=
  Forall (fun e => decay_bounded (fst e)) (tl (st_esteps st))
  /\ (st_esteps st <> [] -> decay_bounded (st_decay st)).

(* ================================================================= *)
(** ** The log-posterior over the reals

    The unnormalized log-posterior of sample [i] under cluster [k] as the
    specification words it: the log mixture weight, plus log E1 for every
    censored dimension, plus the Gaussian log-density and the log decay term
    for every observed dimension. *)

Definition censored (y : R) : bool := Rltb (Rabs y) 1e-6.

Definition gauss_logpdf (y m s : R) : R :=
  ln (1 / sqrt (2 * PI * (s * s))) - (y - m) * (y - m) / (2 * (s * s)).

Definition decay_logp (l y : R) : R := ln (1 - exp (- l * (y * y))).

Definition logpost_term (l y m s e1 : R) : R :=
  if censored y then ln e1 else gauss_logpdf y m s + decay_logp l y.

Definition logpost_r (D : nat) (Y mu sigma : nat -> nat -> R) (w : nat -> R)
  (l : R) (E1 : nat -> nat -> R) (i k : nat) : R :=
  ln (w k)
  + Rsum (map (fun d => logpost_term l (Y i d) (mu d k) (sigma d k) (E1 d k))
            (range D)).

(** The specification's substitution policy, read literally: a term that is
    not finite counts as 0. *)
Definition zero_if_nonfinite (x : npfloat) : npfloat :=
  if isfinite x then x else Fin 0.

(** The entry of the log-posterior matrix under that policy. *)
Definition spec_logpost_entry (D : nat) (Y mus sigmas : matrix)
  (weights : vector) (decay : npfloat) (E1 : matrix) (i k : nat) : npfloat :=
  (zero_if_nonfinite (flog (weights k))
   + fsum (map (fun d =>
                  if is_zero Y i d
                  then zero_if_nonfinite (flog (E1 d k))
                  else
                    zero_if_nonfinite
                      (flog (Fin 1 / fsqrt (Fin 2 * Fin PI * fsqr (sigmas d k)))
                       - fsqr (Y i d - mus d k) / (Fin 2 * fsqr (sigmas d k)))
                    + zero_if_nonfinite
                        (flog (Fin 1 - fexp (- decay * fsqr (Y i d)))))
             (range D)))%npf.

(** The entry as the code computes it, with [nan_to_num] where the source
    applies it: to the censored sum as a whole and to each decay term. *)
Definition code_logpost_entry (D : nat) (Y mus sigmas : matrix)
  (weights : vector) (decay : npfloat) (E1 : matrix) (i k : nat) : npfloat :=
  (flog (weights k)
   + nan_to_num
       (fsum (map (fun d => b2f (is_zero Y i d) * flog (E1 d k)) (range D)))
   + fsum (map (fun d =>
                  b2f (negb (is_zero Y i d))
                  * flog (Fin 1 / fsqrt (Fin 2 * Fin PI * fsqr (sigmas d k))))
             (range D))
   + fsum (map (fun d =>
                  nan_to_num
                    (b2f (negb (is_zero Y i d))
                     * flog (Fin 1 - fexp (- decay * fsqr (Y i d)))))
             (range D))
   + - fsum (map (fun d =>
                    b2f (negb (is_zero Y i d))
                    * (fsqr (Y i d - mus d k) / (Fin 2 * fsqr (sigmas d k))))
               (range D)))%npf.

(** The responsibilities of one row over the reals: exp of the entry minus
    the row maximum, divided by the sum of these over the row. *)
Definition softmax_r (r : list R) (x : R) : R :=
  exp (x - Rmax_list r) / Rsum (map (fun w => exp (w - Rmax_list r)) r).

(** Every entry of the first [N] rows is a non-negative real number and
    each of these rows sums to 1. *)
Definition row_stochastic (N K : nat) (W : matrix) : Prop :=
  forall i, (i < N)%nat ->
    (forall k, (k < K)%nat -> exists p, W i k = Fin p /\ 0 <= p)
    /\ fsum (row K W i) = Fin 1.

(* ================================================================= *)
(** ** A small fit

    Two samples of one dimension, 1 and 3, and one cluster; the collaborators
    are the simplest ones that meet their contracts: an odd increasing
    function with values in (-1, 1) for erf, a minimizer that projects its
    starting point onto the lower bound, and an initializer that answers
    mean 2, sigma 1, weight 1 and decay coefficient 1. *)

Definition sample_erf (x : R) : R := x / (1 + Rabs x).

Definition sample_minimize (f : npfloat -> npfloat * npfloat) (x0 : npfloat)
  (bounds : npfloat * npfloat) (gtol : npfloat) : npfloat :=
  match fst bounds, x0 with
  | Fin lo, Fin x => Fin (Rmax lo x)
  | Fin lo, _ => Fin lo
  | _, _ => x0
  end.

Definition sample_init (N D : nat) (Y : matrix) (K : nat)
  : result (matrix * matrix * vector * npfloat) :=
  OK (fun _ _ => Fin 2, fun _ _ => Fin 1, fun _ => Fin 1, Fin 1).

Definition sample_Yr (i d : nat) : R := if Nat.eqb i 0 then 1 else 3.

Definition sample_Y : matrix := lift2 sample_Yr.

(* ================================================================= *)
(** ** Collaborators that go wrong

    An erf that saturates as scipy.special.erf does in float64, where
    erf(x) is exactly -1.0 from about -5.93 down and exactly 1.0 from about
    5.93 up. *)
Definition saturating_erf (x : R) : R :=
  if Rle_dec x (-6) then -1 else if Rle_dec 6 x then 1 else sample_erf x.

(** A minimizer that answers 1/2 when started at 1, and nan from any other
    start. *)
Definition faltering_minimize (f : npfloat -> npfloat * npfloat)
  (x0 : npfloat) (bounds : npfloat * npfloat) (gtol : npfloat) : npfloat :=
  match x0 with
  | Fin x => if Req_dec_T x 1 then Fin (/ 2) else NaN
  | _ => NaN
  end.

(* ================================================================= *)
(** ** exp_decay *)

(** [exp_decay(x, decay_coef)], entry by entry. *)
Definition exp_decay (x decay_coef : npfloat) : npfloat :=
  if fleb decay_coef (Fin 0) then NInf
  else fexp (- fsqr x * decay_coef)%npf.

(** The parameters of a state hold only real numbers. *)
Definition params_finite (D K : nat) (st : em_state) : Prop :=
  all_finite (flat2 D K (st_mus st))
  /\ all_finite (flat2 D K (st_sigmas st))
  /\ all_finite (flat1 K (st_weights st))
  /\ isfinite (st_decay st) = true.

(* ================================================================= *)
(** ** The M-step of a Gaussian mixture over the reals

    The responsibility-weighted mean and standard deviation of dimension [d]
    under cluster [k]. *)

Definition gmm_mean (N : nat) (y p : nat -> nat -> R) (d k : nat) : R :=
  Rsum (map (fun i => p i k * y i d) (range N))
  / Rsum (map (fun i => p i k) (range N)).

Definition gmm_sigma (N : nat) (y p : nat -> nat -> R) (d k : nat) : R :=
  sqrt (Rsum (map (fun i => p i k * ((y i d - gmm_mean N y p d k)
                                     * (y i d - gmm_mean N y p d k)))
                (range N))
        / Rsum (map (fun i => p i k) (range N))).

(** The conditional first and second moments computeIntegrals evaluates,
    on real arguments. *)
Definition EX_r (mu s l : R) : R :=
  D_r mu s l / C_r mu s l * exp (- a_r s l * (b_r mu s l * b_r mu s l))
  / (2 * a_r s l) + b_r mu s l.

Definition EX2_r (mu s l : R) : R :=
  D_r mu s l / C_r mu s l
  * (sqrt PI / (4 * Rpower (a_r s l) 1.5)
     - sqrt PI * erf (- b_r mu s l * sqrt (a_r s l)) / (4 * Rpower (a_r s l) 1.5)
     - b_r mu s l * exp (- a_r s l * (b_r mu s l * b_r mu s l)) / (2 * a_r s l))
  + 2 * b_r mu s l * (D_r mu s l / C_r mu s l)
    * exp (- a_r s l * (b_r mu s l * b_r mu s l)) / (2 * a_r s l)
  + b_r mu s l * b_r mu s l.

(* ================================================================= *)
(** ** The objective of the decay coefficient over the reals

    The sum over clusters, dimensions and samples that the objective and its
    gradient share: an observed entry [y] contributes [p * g y], a censored
    one nothing. *)

Definition observed_sum (N D K : nat) (y p : nat -> nat -> R) (g : R -> R)
  : R :=
  Rsum (map (fun k =>
    Rsum (map (fun d =>
      Rsum (map (fun i =>
        p i k * (if censored (y i d) then 0 else g (y i d)))
        (range N)))
      (range D)))
    (range K)).

Definition decay_ratio (x y : R) : R :=
  exp (- x * (y * y)) / (1 - exp (- x * (y * y))).

(** The first value decayCoefObjectiveFn returns. *)
Definition decay_obj_r (N D K : nat) (y p : nat -> nat -> R) (t x : R) : R :=
  - (x * t + observed_sum N D K y p (decay_logp x)).

(** The second value it returns: [Y * exp_ratio]. *)
Definition decay_grad_r (N D K : nat) (y p : nat -> nat -> R) (t x : R) : R :=
  - (t + observed_sum N D K y p (fun v => v * decay_ratio x v)).

(** The derivative of the first value: [Y ** 2 * exp_ratio]. *)
Definition decay_deriv_r (N D K : nat) (y p : nat -> nat -> R) (t x : R) : R :=
  - (t + observed_sum N D K y p (fun v => v * v * decay_ratio x v)).

(* ================================================================= *)
(** ** The range of the running sum of computeLLFromW

    computeLLFromW adds, row after row, the maximum of the row and a
    logarithm between 0 and log K.  Under this bound on the entries every
    partial sum, and every difference of an entry and the maximum of its row,
    is at most DBL_MAX / 2 in absolute value: the float64 sum cannot
    overflow.  The arithmetic of this development has no overflow; the bound
    is what ties its statements about the sum to the float64 code. *)
Definition ll_in_range (N K : nat) (W : nat -> nat -> R) : Prop :=
  forall i k, (i < N)%nat -> (k < K)%nat ->
    INR N * (Rabs (W i k) + ln (INR K)) <= DBL_MAX / 2.

(** The likelihood of the small fit's data under mean 2, sigma 1, weight 1
    and decay coefficient [l]. *)
Definition sample_ll (l : R) : R :=
  logpost_r 1 sample_Yr (fun _ _ => 2) (fun _ _ => 1) (fun _ => 1) l
    (fun _ _ => 1) 0 0
  + logpost_r 1 sample_Yr (fun _ _ => 2) (fun _ _ => 1) (fun _ => 1) l
      (fun _ _ => 1) 1 0.

(* ================================================================= *)
(** * Properties *)

(** ** Signs, comparisons and ranges *)

Lemma Rsgn_pos (r : R) : 0 < r -> Rsgn r = Gt.
Proof.
  intros H. unfold Rsgn.
  destruct (Rlt_dec r 0); [lra|]. destruct (Rlt_dec 0 r); [reflexivity|lra].
Qed.

Lemma Rsgn_neg (r : R) : r < 0 -> Rsgn r = Lt.
Proof. intros H. unfold Rsgn. destruct (Rlt_dec r 0); [reflexivity|lra]. Qed.

Lemma Rsgn_zero : Rsgn 0 = Eq.
Proof.
  unfold Rsgn. destruct (Rlt_dec 0 0); [lra|]. reflexivity.
Qed.

Lemma Rsgn_nonneg (r : R) : 0 <= r -> Rsgn r <> Lt.
Proof.
  intros H. unfold Rsgn. destruct (Rlt_dec r 0); [lra|].
  destruct (Rlt_dec 0 r); discriminate.
Qed.

Lemma Rltb_true (x y : R) : Rltb x y = true <-> x < y.
Proof. unfold Rltb. destruct (Rlt_dec x y); split; intros; auto; discriminate. Qed.

Lemma Rltb_false (x y : R) : Rltb x y = false <-> y <= x.
Proof.
  unfold Rltb. destruct (Rlt_dec x y); split; intros; auto; try discriminate; lra.
Qed.

Lemma in_range (n i : nat) : In i (range n) <-> (i < n)%nat.
Proof. unfold range. rewrite in_seq. lia. Qed.

Lemma all2_true (R C : nat) (p : nat -> nat -> bool) :
  all2 R C p = true <->
  (forall i j, (i < R)%nat -> (j < C)%nat -> p i j = true).
Proof.
  unfold all2. rewrite forallb_forall. split.
  - intros H i j Hi Hj. specialize (H i (proj2 (in_range R i) Hi)).
    rewrite forallb_forall in H. apply H, in_range, Hj.
  - intros H i Hi. apply forallb_forall. intros j Hj.
    apply H; apply in_range; assumption.
Qed.

Lemma all2_false (R C : nat) (p : nat -> nat -> bool) (i j : nat) :
  (i < R)%nat -> (j < C)%nat -> p i j = false -> all2 R C p = false.
Proof.
  intros Hi Hj Hp. destruct (all2 R C p) eqn:E; [|reflexivity].
  rewrite all2_true in E. rewrite (E i j Hi Hj) in Hp. discriminate.
Qed.

(** ** computeIntegrals: the two guards *)

(** C9.  computeIntegrals raises as soon as one entry of sigma is not
    strictly positive, and the exception carries the number of strictly
    negative entries and the number of entries with |sigma| < 1e-6; it fails
    when the decay coefficient is not strictly positive; and when every
    sigma and the decay coefficient are strictly positive neither guard
    raises. *)
Theorem computeIntegrals_guards (D K : nat) (mu sigma : matrix)
  (decay_coef : npfloat) :
  ((exists d k, (d < D)%nat /\ (k < K)%nat /\ fgtb (sigma d k) (Fin 0) = false) ->
   computeIntegrals D K mu sigma decay_coef =
   Raise (SigmaError
            (count2 D K (fun d k => fltb (sigma d k) (Fin 0)))
            (count2 D K (fun d k => fltb (fabs (sigma d k)) (Fin 1e-6)))))
  /\
  (fgtb decay_coef (Fin 0) = false ->
   exists e, computeIntegrals D K mu sigma decay_coef = Raise e)
  /\
  ((forall d k, (d < D)%nat -> (k < K)%nat -> fgtb (sigma d k) (Fin 0) = true) ->
   fgtb decay_coef (Fin 0) = true ->
   exists r, computeIntegrals D K mu sigma decay_coef = OK r).
Proof.
  unfold computeIntegrals. repeat split.
  - intros (d & k & Hd & Hk & Hbad).
    rewrite (all2_false D K _ d k Hd Hk Hbad). reflexivity.
  - intros Hdecay.
    destruct (all2 D K _); cbn [negb]; [|eauto].
    rewrite Hdecay. simpl. eauto.
  - intros Hsigma Hdecay.
    rewrite (proj2 (all2_true D K _) Hsigma). cbn [negb].
    rewrite Hdecay. simpl. eauto.
Qed.

(** ** npfloat arithmetic on finite values *)

Lemma fdiv_fin (a b : R) : b <> 0 -> (Fin a / Fin b)%npf = Fin (a / b).
Proof.
  intros H. simpl. destruct (Req_dec_T b 0); [contradiction|reflexivity].
Qed.

Lemma fsqrt_fin (r : R) : 0 <= r -> fsqrt (Fin r) = Fin (sqrt r).
Proof.
  intros H. simpl. destruct (Rsgn r) eqn:E; try reflexivity.
  exfalso. revert E. apply Rsgn_nonneg, H.
Qed.

Lemma flog_fin (r : R) : 0 < r -> flog (Fin r) = Fin (ln r).
Proof. intros H. simpl. rewrite Rsgn_pos by assumption. reflexivity. Qed.

Lemma fpow15_fin (r : R) : 0 < r -> fpow15 (Fin r) = Fin (Rpower r 1.5).
Proof. intros H. simpl. rewrite Rsgn_pos by assumption. reflexivity. Qed.

Lemma Rpower_pos (x y : R) : 0 < Rpower x y.
Proof. unfold Rpower. apply exp_pos. Qed.

Ltac fin_arith := cbn [fsqr fmul fadd fneg fsub fexp ferf].

(** ** computeIntegrals on valid parameters *)

Section ValidIntegrals.

Variables mu s l : R.
Hypothesis s_pos : 0 < s.
Hypothesis l_pos : 0 < l.

Lemma a_r_pos : 0 < a_r s l.
Proof. unfold a_r. apply Rdiv_lt_0_compat; nra. Qed.

Lemma two_a_ss : 2 * a_r s l * (s * s) = 1 + 2 * (s * s) * l.
Proof. unfold a_r. field. lra. Qed.

Lemma D_r_pos : 0 < D_r mu s l.
Proof. apply exp_pos. Qed.

Lemma D_r_le_1 : D_r mu s l <= 1.
Proof.
  unfold D_r. rewrite <- exp_0. 
  assert (Ht : 1 <= 1 + 2 * (s * s) * l) by nra.
  assert (E : a_r s l * (b_r mu s l * b_r mu s l)
              = (mu * mu) / (2 * (s * s)) * / (1 + 2 * (s * s) * l)).
  { unfold b_r. rewrite two_a_ss. unfold a_r. field. split; lra. }
  rewrite E.
  assert (Hq : 0 <= mu * mu / (2 * (s * s))).
  { apply Rle_mult_inv_pos; nra. }
  assert (Hi : / (1 + 2 * (s * s) * l) <= 1).
  { rewrite <- Rinv_1 at 2. apply Rinv_le_contravar; lra. }
  assert (Hle : - (mu * mu) / (2 * (s * s))
                + mu * mu / (2 * (s * s)) * / (1 + 2 * (s * s) * l) <= 0).
  { replace (- (mu * mu) / (2 * (s * s))) with (- (mu * mu / (2 * (s * s))))
      by (field; lra). nra. }
  destruct Hle as [Hlt | Heq].
  - left. apply exp_increasing, Hlt.
  - right. rewrite Heq. reflexivity.
Qed.

Lemma sqrt_a_pos : 0 < sqrt (a_r s l).
Proof. apply sqrt_lt_R0, a_r_pos. Qed.

Lemma sqrt_norm_identity :
  sqrt (a_r s l) * (sqrt (2 * PI) * s) = sqrt PI * sqrt (1 + 2 * (s * s) * l).
Proof.
  assert (Hpi := PI_RGT_0). assert (Ha := a_r_pos).
  assert (Es : sqrt (s * s) = s) by (apply sqrt_square; lra).
  rewrite <- Es at 2.
  rewrite <- !sqrt_mult by nra.
  f_equal. rewrite <- two_a_ss. ring.
Qed.

Hypothesis erf_range : forall x, -1 < erf x < 1.

Lemma C_r_pos : 0 < C_r mu s l.
Proof.
  assert (Hpi := PI_RGT_0). assert (Hs := sqrt_a_pos).
  assert (He := erf_range (b_r mu s l * sqrt (a_r s l))).
  unfold C_r. apply Rdiv_lt_0_compat; [|lra].
  apply Rmult_lt_0_compat; [apply Rmult_lt_0_compat|]; try lra.
  - apply D_r_pos.
  - apply sqrt_lt_R0, Hpi.
Qed.

Lemma E1_r_closed_form :
  E1_r mu s l =
  D_r mu s l * (erf (b_r mu s l * sqrt (a_r s l)) + 1)
  / (2 * sqrt (1 + 2 * (s * s) * l)).
Proof.
  assert (Hpi := PI_RGT_0). assert (Hs := sqrt_a_pos).
  assert (Hspi : 0 < sqrt PI) by (apply sqrt_lt_R0, Hpi).
  assert (Hs2pi : 0 < sqrt (2 * PI)) by (apply sqrt_lt_R0; lra).
  assert (Ht : 0 < sqrt (1 + 2 * (s * s) * l)) by (apply sqrt_lt_R0; nra).
  unfold E1_r, C_r.
  set (e := erf _). set (Dv := D_r mu s l).
  replace (Dv * sqrt PI * (e + 1) / (2 * sqrt (a_r s l)) / (sqrt (2 * PI) * s))
    with (Dv * (e + 1) * sqrt PI / (2 * (sqrt (a_r s l) * (sqrt (2 * PI) * s))))
    by (field; repeat split; lra).
  rewrite sqrt_norm_identity. field. split; lra.
Qed.

Lemma E1_r_bounds : 0 < E1_r mu s l <= 1.
Proof.
  rewrite E1_r_closed_form.
  assert (He := erf_range (b_r mu s l * sqrt (a_r s l))).
  assert (HD := D_r_pos). assert (HD1 := D_r_le_1).
  assert (Ht : 1 <= sqrt (1 + 2 * (s * s) * l)).
  { rewrite <- sqrt_1 at 1. apply sqrt_le_1; nra. }
  set (e := erf _) in *. set (Dv := D_r mu s l) in *.
  set (t := sqrt (1 + 2 * (s * s) * l)) in *.
  split.
  - apply Rdiv_lt_0_compat; nra.
  - assert (Hprod : Dv * (e + 1) <= 1 * (e + 1))
      by (apply Rmult_le_compat_r; lra).
    assert (Hgap : 0 <= (2 * t - Dv * (e + 1)) * / (2 * t))
      by (apply Rle_mult_inv_pos; lra).
    replace (Dv * (e + 1) / (2 * t))
      with (1 - (2 * t - Dv * (e + 1)) * / (2 * t)) by (field; lra).
    lra.
Qed.

(** The arrays of computeIntegrals at one entry. *)
Lemma integrals_at_fin :
  exists ex ex2,
    integrals_at (Fin mu) (Fin s) (Fin l) = (Fin (E1_r mu s l), Fin ex, Fin ex2).
Proof.
  assert (Ha := a_r_pos). assert (Hpi := PI_RGT_0).
  assert (Hss : 0 < s * s) by nra.
  assert (H2a : 0 < 2 * a_r s l * (s * s))
    by (apply Rmult_lt_0_compat; [apply Rmult_lt_0_compat|]; lra).
  assert (Hsa := sqrt_a_pos).
  assert (Hs2pi : 0 < sqrt (2 * PI)) by (apply sqrt_lt_R0; lra).
  assert (Hden : 0 < sqrt (2 * PI) * s) by (apply Rmult_lt_0_compat; lra).
  assert (HC := C_r_pos).
  assert (Hp := Rpower_pos (a_r s l) 1.5).
  unfold integrals_at. cbv zeta. fin_arith.
  rewrite (fdiv_fin (1 + 2 * (s * s) * l)) by lra. fold (a_r s l).
  fin_arith.
  rewrite (fdiv_fin mu) by lra. fold (b_r mu s l).
  rewrite (fdiv_fin (- (mu * mu))) by lra.
  fin_arith. fold (D_r mu s l).
  rewrite !fsqrt_fin by lra.
  rewrite fpow15_fin by lra.
  fin_arith.
  rewrite (fdiv_fin _ (2 * sqrt (a_r s l))) by lra. fold (C_r mu s l).
  rewrite (fdiv_fin (C_r mu s l)) by lra. fold (E1_r mu s l).
  rewrite (fdiv_fin (D_r mu s l)) by lra.
  fin_arith.
  rewrite !(fdiv_fin _ (2 * a_r s l)) by lra.
  rewrite !(fdiv_fin _ (4 * Rpower (a_r s l) 1.5)) by lra.
  fin_arith.
  eexists. eexists. reflexivity.
Qed.

End ValidIntegrals.

(** ** computeIntegrals where erf may reach -1

    scipy's erf returns exactly -1.0 from about -5.9 down.  What follows
    asks of erf, at the one argument computeIntegrals evaluates it at, no
    more than the lemma at hand needs. *)

Section IntegralsAtPoint.

Variables mu s l : R.
Hypothesis s_pos : 0 < s.
Hypothesis l_pos : 0 < l.

Lemma C_r_factor :
  C_r mu s l
  = D_r mu s l * sqrt PI / (2 * sqrt (a_r s l))
    * (erf (b_r mu s l * sqrt (a_r s l)) + 1).
Proof.
  assert (Hsa := sqrt_a_pos s l s_pos l_pos). unfold C_r. field. lra.
Qed.

Lemma C_r_scale_pos : 0 < D_r mu s l * sqrt PI / (2 * sqrt (a_r s l)).
Proof.
  assert (Hsa := sqrt_a_pos s l s_pos l_pos). assert (Hpi := PI_RGT_0).
  assert (Hspi : 0 < sqrt PI) by (apply sqrt_lt_R0, Hpi).
  assert (HD := D_r_pos mu s l).
  apply Rdiv_lt_0_compat; [|lra]. apply Rmult_lt_0_compat; assumption.
Qed.

Lemma C_r_pos_at :
  -1 < erf (b_r mu s l * sqrt (a_r s l)) -> 0 < C_r mu s l.
Proof.
  intros He. rewrite C_r_factor.
  apply Rmult_lt_0_compat; [apply C_r_scale_pos|lra].
Qed.

Lemma C_r_nonneg_at :
  -1 <= erf (b_r mu s l * sqrt (a_r s l)) -> 0 <= C_r mu s l.
Proof.
  intros He. rewrite C_r_factor.
  apply Rmult_le_pos; [left; apply C_r_scale_pos|lra].
Qed.

Lemma C_r_zero_iff :
  C_r mu s l = 0 <-> erf (b_r mu s l * sqrt (a_r s l)) = -1.
Proof.
  rewrite C_r_factor. assert (Hk := C_r_scale_pos). split.
  - intros H. apply Rmult_integral in H. destruct H as [H | H]; lra.
  - intros ->. ring.
Qed.

Lemma E1_r_scale : 0 < sqrt (2 * PI) * s.
Proof.
  assert (Hpi := PI_RGT_0).
  apply Rmult_lt_0_compat; [apply sqrt_lt_R0; lra|exact s_pos].
Qed.

Lemma E1_r_nonneg_at :
  -1 <= erf (b_r mu s l * sqrt (a_r s l)) -> 0 <= E1_r mu s l.
Proof.
  intros He. unfold E1_r.
  apply Rle_mult_inv_pos; [apply C_r_nonneg_at, He|apply E1_r_scale].
Qed.

Lemma E1_r_zero_iff : E1_r mu s l = 0 <-> C_r mu s l = 0.
Proof.
  assert (Hk := E1_r_scale). unfold E1_r. split.
  - intros H. unfold Rdiv in H. apply Rmult_integral in H.
    destruct H as [H | H]; [exact H|].
    exfalso. apply (Rinv_neq_0_compat (sqrt (2 * PI) * s)); lra.
  - intros ->. unfold Rdiv. ring.
Qed.

(** The first array of computeIntegrals, whatever erf returns. *)
Lemma integrals_at_E1 :
  fst (fst (integrals_at (Fin mu) (Fin s) (Fin l))) = Fin (E1_r mu s l).
Proof.
  assert (Ha := a_r_pos s l s_pos l_pos). assert (Hpi := PI_RGT_0).
  assert (Hss : 0 < s * s) by nra.
  assert (H2a : 0 < 2 * a_r s l * (s * s))
    by (apply Rmult_lt_0_compat; [apply Rmult_lt_0_compat|]; lra).
  assert (Hsa := sqrt_a_pos s l s_pos l_pos).
  assert (Hden := E1_r_scale).
  unfold integrals_at. cbv zeta. cbn [fst snd]. fin_arith.
  rewrite (fdiv_fin (1 + 2 * (s * s) * l)) by lra. fold (a_r s l).
  fin_arith.
  rewrite (fdiv_fin mu) by lra. fold (b_r mu s l).
  rewrite (fdiv_fin (- (mu * mu))) by lra.
  fin_arith. fold (D_r mu s l).
  rewrite !fsqrt_fin by lra.
  fin_arith.
  rewrite (fdiv_fin _ (2 * sqrt (a_r s l))) by lra. fold (C_r mu s l).
  rewrite (fdiv_fin (C_r mu s l)) by lra. reflexivity.
Qed.

(** Where the normalization constant is 0 the first moment is +inf. *)
Lemma integrals_at_EX_zero_mass :
  C_r mu s l = 0 ->
  snd (fst (integrals_at (Fin mu) (Fin s) (Fin l))) = PInf.
Proof.
  intros HC.
  assert (Ha := a_r_pos s l s_pos l_pos). assert (Hpi := PI_RGT_0).
  assert (Hss : 0 < s * s) by nra.
  assert (H2a : 0 < 2 * a_r s l * (s * s))
    by (apply Rmult_lt_0_compat; [apply Rmult_lt_0_compat|]; lra).
  assert (Hsa := sqrt_a_pos s l s_pos l_pos).
  unfold integrals_at. cbv zeta. cbn [fst snd]. fin_arith.
  rewrite (fdiv_fin (1 + 2 * (s * s) * l)) by lra. fold (a_r s l).
  fin_arith.
  rewrite (fdiv_fin mu) by lra. fold (b_r mu s l).
  rewrite (fdiv_fin (- (mu * mu))) by lra.
  fin_arith. fold (D_r mu s l).
  rewrite !fsqrt_fin by lra.
  fin_arith.
  rewrite (fdiv_fin _ (2 * sqrt (a_r s l))) by lra. fold (C_r mu s l).
  rewrite HC. cbn [fdiv].
  destruct (Req_dec_T 0 0) as [_|Hne]; [|contradiction].
  rewrite (Rsgn_pos _ (D_r_pos mu s l)). cbn [inf_of_sign fmul fsgn].
  rewrite (Rsgn_pos _ (exp_pos _)). cbn [cmul inf_of_sign fdiv].
  rewrite (Rsgn_pos (2 * a_r s l)) by lra. reflexivity.
Qed.

End IntegralsAtPoint.

(** ** Sums and maxima of finite rows *)

Lemma fold_fadd_fin (l : list R) (acc : R) :
  fold_left fadd (map Fin l) (Fin acc) = Fin (acc + Rsum l).
Proof.
  revert acc. induction l as [|x t IH]; intros acc; simpl.
  - f_equal. lra.
  - rewrite IH. f_equal. lra.
Qed.

Lemma fsum_fin (l : list R) : fsum (map Fin l) = Fin (Rsum l).
Proof. unfold fsum. rewrite fold_fadd_fin. f_equal. lra. Qed.

Lemma fmax2_fin (a b : R) : fmax2 (Fin a) (Fin b) = Fin (Rmax a b).
Proof.
  unfold fmax2, Rmax. simpl. unfold Rltb.
  destruct (Rlt_dec a b), (Rle_dec a b); try reflexivity; try lra.
  f_equal. lra.
Qed.

Lemma fold_fmax2_fin (l : list R) (x : R) :
  fold_left fmax2 (map Fin l) (Fin x) = Fin (fold_left Rmax l x).
Proof.
  revert x. induction l as [|y t IH]; intros x; simpl; [reflexivity|].
  change (if fltb (Fin x) (Fin y) then Fin y else Fin x)
    with (fmax2 (Fin x) (Fin y)).
  rewrite fmax2_fin. apply IH.
Qed.

Lemma py_max_fin (l : list R) :
  l <> [] -> py_max (map Fin l) = OK (Fin (Rmax_list l)).
Proof.
  destruct l as [|x t]; [congruence|]. intros _. simpl.
  change (fold_left _ (map Fin t) (Fin x))
    with (fold_left fmax2 (map Fin t) (Fin x)).
  rewrite fold_fmax2_fin. reflexivity.
Qed.

Lemma Rsum_pos (l : list R) :
  l <> [] -> (forall x, In x l -> 0 < x) -> 0 < Rsum l.
Proof.
  induction l as [|x t IH]; [congruence|]. intros _ Hpos. simpl.
  assert (Hx : 0 < x) by (apply Hpos; left; reflexivity).
  destruct t as [|y t'].
  - simpl. lra.
  - assert (0 < Rsum (y :: t')).
    { apply IH; [discriminate|]. intros z Hz. apply Hpos. right. exact Hz. }
    lra.
Qed.

Lemma Rsum_exp_pos (f : R -> R) (l : list R) :
  l <> [] -> 0 < Rsum (map (fun w => exp (f w)) l).
Proof.
  intros Hne. apply Rsum_pos.
  - destruct l; [congruence|discriminate].
  - intros x Hx. apply in_map_iff in Hx. destruct Hx as (w & <- & _).
    apply exp_pos.
Qed.

Lemma Rsum_scale (c : R) (l : list R) :
  Rsum (map (fun x => c * x) l) = c * Rsum l.
Proof. induction l as [|x t IH]; simpl; [lra|]. rewrite IH. lra. Qed.

Lemma range_nonempty (n : nat) : (0 < n)%nat -> range n <> [].
Proof. destruct n; [lia|]. discriminate. Qed.

(** ** Log-sum-exp *)

Lemma lse_stable_naive (r : list R) : r <> [] -> lse_stable r = lse_naive r.
Proof.
  intros Hne. unfold lse_stable, lse_naive.
  set (m := Rmax_list r).
  assert (E : map (fun w => exp (w - m)) r
              = map (fun x => exp (- m) * x) (map exp r)).
  { rewrite map_map. apply map_ext. intros w.
    rewrite <- exp_plus. f_equal. lra. }
  rewrite E, Rsum_scale.
  assert (Hs : 0 < Rsum (map exp r)) by (apply (Rsum_exp_pos (fun w => w)), Hne).
  rewrite ln_mult by (auto using exp_pos).
  rewrite ln_exp. lra.
Qed.

Lemma ll_stable_naive (N K : nat) (W : nat -> nat -> R) :
  (0 < K)%nat -> ll_stable N K W = ll_naive N K W.
Proof.
  intros HK. unfold ll_stable, ll_naive. f_equal. apply map_ext.
  intros i. apply lse_stable_naive. unfold Rrow.
  intros E. apply map_eq_nil in E. revert E. apply range_nonempty, HK.
Qed.

(** ** checkNoNans *)

Lemma existsb_false {A : Type} (p : A -> bool) (l : list A) :
  existsb p l = false <-> (forall x, In x l -> p x = false).
Proof.
  induction l as [|y t IH]; simpl.
  - split; [intros _ x []|reflexivity].
  - rewrite orb_false_iff, IH. split.
    + intros [Hy Ht] x [<- | Hx]; auto.
    + intros H. split; [apply H; left; reflexivity|].
      intros x Hx. apply H. right. exact Hx.
Qed.

Lemma isfinite_iff (x : npfloat) :
  isfinite x = true <-> isnan x = false /\ isinf x = false.
Proof.
  destruct x; simpl; split; intros H; try discriminate;
    try (destruct H; discriminate); auto.
Qed.

Lemma no_nan_inf_finite (l : list npfloat) :
  existsb isnan l || existsb isinf l = false <-> all_finite l.
Proof.
  unfold all_finite. rewrite orb_false_iff, !existsb_false. split.
  - intros [Hn Hi] x Hx. apply isfinite_iff. auto.
  - intros H. split; intros x Hx; apply (isfinite_iff x); auto.
Qed.

Lemma checkNoNans_from_ok (i : nat) (Ms : list (list npfloat)) :
  checkNoNans_from i Ms = OK tt <-> Forall all_finite Ms.
Proof.
  revert i. induction Ms as [|M rest IH]; intros i; simpl.
  - split; [constructor|reflexivity].
  - destruct (existsb isnan M || existsb isinf M) eqn:E.
    + split; [discriminate|]. intros H. inversion H as [|? ? HM _]; subst.
      apply no_nan_inf_finite in HM. congruence.
    + rewrite IH. apply no_nan_inf_finite in E. split.
      * intros H. constructor; assumption.
      * intros H. inversion H; assumption.
Qed.

Lemma checkNoNans_ok (Ms : list (list npfloat)) :
  checkNoNans Ms = OK tt <-> Forall all_finite Ms.
Proof. apply checkNoNans_from_ok. Qed.

Lemma checkNoNans_from_raises (i : nat) (Ms : list (list npfloat)) (e : exn) :
  checkNoNans_from i Ms = Raise e -> exists j, e = NanOrInfError j.
Proof.
  revert i. induction Ms as [|M rest IH]; intros i; simpl; [discriminate|].
  destruct (existsb isnan M || existsb isinf M).
  - intros [= <-]. eauto.
  - apply IH.
Qed.

Lemma checkNoNans_cases (Ms : list (list npfloat)) :
  (checkNoNans Ms = OK tt /\ Forall all_finite Ms)
  \/ (exists j, checkNoNans Ms = Raise (NanOrInfError j) /\ ~ Forall all_finite Ms).
Proof.
  destruct (checkNoNans Ms) as [[]|e] eqn:E.
  - left. split; [reflexivity|]. apply checkNoNans_ok, E.
  - right. destruct (checkNoNans_from_raises 0 Ms e E) as [j ->].
    exists j. split; [reflexivity|]. intros H.
    apply checkNoNans_ok in H. congruence.
Qed.

Lemma isfinite_fin (x : npfloat) : isfinite x = true -> x = Fin (to_R x).
Proof. destruct x; simpl; intros H; try discriminate. reflexivity. Qed.

Lemma all_finite_flat2 (R C : nat) (M : matrix) :
  all_finite (flat2 R C M) <->
  (forall i j, (i < R)%nat -> (j < C)%nat -> M i j = Fin (unlift2 M i j)).
Proof.
  unfold all_finite, flat2, row. split.
  - intros H i j Hi Hj. apply isfinite_fin. apply H.
    apply in_flat_map. exists i. split; [apply in_range, Hi|].
    apply in_map. apply in_range, Hj.
  - intros H x Hx. apply in_flat_map in Hx. destruct Hx as (i & Hi & Hx).
    apply in_map_iff in Hx. destruct Hx as (j & <- & Hj).
    rewrite H by (apply in_range; assumption). reflexivity.
Qed.

Lemma all_finite_flat1 (n : nat) (v : vector) :
  all_finite (flat1 n v) <-> (forall k, (k < n)%nat -> v k = Fin (to_R (v k))).
Proof.
  unfold all_finite, flat1. split.
  - intros H k Hk. apply isfinite_fin, H, in_map, in_range, Hk.
  - intros H x Hx. apply in_map_iff in Hx. destruct Hx as (k & <- & Hk).
    rewrite H by (apply in_range; assumption). reflexivity.
Qed.

(** ** computeLLFromW *)

Lemma row_fin (K : nat) (W : matrix) (Wr : nat -> nat -> R) (i : nat) :
  (forall k, (k < K)%nat -> W i k = Fin (Wr i k)) ->
  row K W i = map Fin (Rrow K Wr i).
Proof.
  intros H. unfold row, Rrow. rewrite map_map. apply map_ext_in.
  intros k Hk. apply H, in_range, Hk.
Qed.

Lemma row_set_row_same (K : nat) (W : matrix) (i : nat) (r : vector) :
  row K (set_row W i r) i = map r (range K).
Proof.
  unfold row, set_row. apply map_ext. intros k. rewrite Nat.eqb_refl. reflexivity.
Qed.

Lemma set_row_other (W : matrix) (i i' : nat) (r : vector) (k : nat) :
  i' <> i -> set_row W i r i' k = W i' k.
Proof.
  intros H. unfold set_row. destruct (Nat.eqb_spec i' i); [contradiction|reflexivity].
Qed.

Lemma computeLLFromW_row_fin (K : nat) (W : matrix) (Wr : nat -> nat -> R)
  (acc : R) (i : nat) :
  (0 < K)%nat ->
  (forall k, (k < K)%nat -> W i k = Fin (Wr i k)) ->
  computeLLFromW_row K (W, Fin acc) i =
  OK (set_row W i (fun k => (W i k - Fin (Rmax_list (Rrow K Wr i)))%npf),
      Fin (acc + lse_stable (Rrow K Wr i))).
Proof.
  intros HK HW. unfold computeLLFromW_row.
  rewrite (row_fin K W Wr i HW).
  rewrite py_max_fin.
  2:{ unfold Rrow. intros E. apply map_eq_nil in E. revert E.
      apply range_nonempty, HK. }
  cbn [bind]. f_equal. f_equal.
  rewrite row_set_row_same.
  set (m := Rmax_list (Rrow K Wr i)).
  assert (E : map fexp (map (fun k => (W i k - Fin m)%npf) (range K))
              = map Fin (map (fun w => exp (w - m)) (Rrow K Wr i))).
  { unfold Rrow. rewrite !map_map. apply map_ext_in. intros k Hk.
    rewrite HW by (apply in_range, Hk). reflexivity. }
  rewrite E, fsum_fin, flog_fin.
  2:{ apply Rsum_exp_pos. unfold Rrow. intros E'. apply map_eq_nil in E'.
      revert E'. apply range_nonempty, HK. }
  cbn [fadd]. unfold lse_stable. fold m. f_equal. lra.
Qed.

Lemma computeLLFromW_rows_fin (K : nat) (Wr : nat -> nat -> R) (l : list nat) :
  (0 < K)%nat -> NoDup l ->
  forall (W : matrix) (acc : R),
    (forall i k, In i l -> (k < K)%nat -> W i k = Fin (Wr i k)) ->
    exists W',
      for_each l (computeLLFromW_row K) (W, Fin acc) =
      OK (W', Fin (acc + Rsum (map (fun i => lse_stable (Rrow K Wr i)) l))).
Proof.
  intros HK Hnd. induction Hnd as [|i t Hni Hnd IH]; intros W acc HW.
  - exists W. simpl. replace (acc + 0) with acc by lra. reflexivity.
  - cbn [for_each].
    rewrite (computeLLFromW_row_fin K W Wr acc i HK)
      by (intros k Hk; apply HW; [left; reflexivity|exact Hk]).
    cbn [bind].
    edestruct IH as [W' E]; [|rewrite E; exists W'; simpl; rewrite Rplus_assoc; reflexivity].
    intros i' k Hi' Hk. rewrite set_row_other.
    + apply HW; [right; exact Hi'|exact Hk].
    + intros ->. contradiction.
Qed.

Lemma range_NoDup (n : nat) : NoDup (range n).
Proof. apply seq_NoDup. Qed.

(** The likelihood of a matrix that passes the finiteness check. *)
Lemma computeLLFromW_finite (N K : nat) (W : matrix) :
  (0 < K)%nat ->
  all_finite (flat2 N K W) ->
  computeLLFromW N K W = OK (Fin (ll_stable N K (unlift2 W))).
Proof.
  intros HK Hfin. unfold computeLLFromW.
  rewrite (proj2 (checkNoNans_ok [flat2 N K W])) by (repeat constructor; exact Hfin).
  cbn [bind].
  destruct (computeLLFromW_rows_fin K (unlift2 W) (range N) HK (range_NoDup N) W 0)
    as [W' E].
  - intros i k Hi Hk. apply (proj1 (all_finite_flat2 N K W) Hfin); [apply in_range, Hi|exact Hk].
  - rewrite E. cbn [bind snd]. unfold ll_stable. rewrite Rplus_0_l. reflexivity.
Qed.


Lemma for_each_raise_first {S : Type} (body : S -> nat -> result S) (s : S)
  (x : nat) (t : list nat) (e : exn) :
  body s x = Raise e -> for_each (x :: t) body s = Raise e.
Proof. intros H. simpl. rewrite H. reflexivity. Qed.

(** Whatever computeLLFromW returns is a real number. *)
Lemma computeLLFromW_ok_fin (N K : nat) (W : matrix) (ll : npfloat) :
  computeLLFromW N K W = OK ll -> exists r, ll = Fin r.
Proof.
  intros H. unfold computeLLFromW in H.
  destruct (checkNoNans_cases [flat2 N K W]) as [[E Hfin] | (j & E & _)];
    rewrite E in H; cbn [bind] in H; [|discriminate].
  inversion Hfin as [|? ? Hfin' _]; subst.
  destruct K as [|K'].
  - destruct N as [|N'].
    + cbn in H. injection H as <-. eauto.
    + unfold range in H. cbn [seq for_each] in H.
      unfold computeLLFromW_row at 1 in H. cbn in H. discriminate.
  - assert (E' := computeLLFromW_finite N (S K') W (Nat.lt_0_succ K') Hfin').
    unfold computeLLFromW in E'. rewrite E in E'. cbn [bind] in E'.
    rewrite E' in H. injection H as <-. eauto.
Qed.

(** ** Estep: the finiteness checks *)

(** C8.  Once the integrals have been computed and checked, the E-step
    raises, with index 0, if the unnormalized log-posterior matrix W has an
    entry that is nan or infinite.  When the likelihood ll of W has been
    computed, the E-step goes on as Estep_after_likelihood does on ll, and
    that raises the AssertionError whenever ll is one of the two infinities.
    The assertion tests for infinities only; a nan is never what
    computeLLFromW returns. *)
Theorem Estep_raises_on_nonfinite (N D K : nat) (Y mus sigmas : matrix)
  (weights : vector) (decay : npfloat) (E1 EX EX2 : matrix) :
  computeIntegrals D K mus sigmas decay = OK (E1, EX, EX2) ->
  checkNoNans [flat2 D K E1; flat2 D K EX; flat2 D K EX2] = OK tt ->
  let W := computePosteriorLogZProbability N D K Y mus sigmas weights decay E1 in
  ((exists i k, (i < N)%nat /\ (k < K)%nat /\ isfinite (W i k) = false) ->
   Estep N D K Y mus sigmas weights decay = Raise (NanOrInfError 0))
  /\ (forall ll, computeLLFromW N K W = OK ll ->
      Estep N D K Y mus sigmas weights decay
      = Estep_after_likelihood N K W ll E1 EX EX2)
  /\ (forall W' ll E1' EX' EX2', isinf ll = true ->
      Estep_after_likelihood N K W' ll E1' EX' EX2' = Raise AssertionError)
  /\ (forall ll, computeLLFromW N K W = OK ll -> isnan ll = false).
Proof.
  intros Hint Hchk W. repeat split.
  - intros (i & k & Hi & Hk & Hbad).
    unfold Estep. rewrite Hint. cbn [bind]. rewrite Hchk. cbn [bind].
    fold W. unfold computeLLFromW.
    destruct (checkNoNans_cases [flat2 N K W]) as [[E Hfin] | (j & E & _)].
    + exfalso. inversion Hfin as [|? ? Hfin' _]; subst.
      rewrite (proj1 (all_finite_flat2 N K W) Hfin' i k Hi Hk) in Hbad.
      discriminate.
    + rewrite E. cbn [bind]. f_equal. f_equal.
      unfold checkNoNans in E. cbn [checkNoNans_from] in E.
      destruct (existsb isnan (flat2 N K W) || existsb isinf (flat2 N K W));
        [|discriminate].
      injection E as <-. reflexivity.
  - intros ll Hll. unfold Estep. rewrite Hint. cbn [bind]. rewrite Hchk.
    cbn [bind]. fold W. rewrite Hll. reflexivity.
  - intros W' ll E1' EX' EX2' Hinf. unfold Estep_after_likelihood.
    rewrite Hinf. reflexivity.
  - intros ll Hll. apply computeLLFromW_ok_fin in Hll.
    destruct Hll as [r ->]. reflexivity.
Qed.

(** ** The iteration controller *)

Lemma last1_snoc (l : list npfloat) (x : npfloat) : last1 (l ++ [x]) = x.
Proof.
  unfold last1. rewrite length_app. simpl.
  replace (length l + 1 - 1)%nat with (length l) by lia.
  rewrite app_nth2 by lia. rewrite Nat.sub_diag. reflexivity.
Qed.

Lemma last2_snoc (l : list npfloat) (x : npfloat) :
  l <> [] -> last2 (l ++ [x]) = last1 l.
Proof.
  intros Hne. unfold last2, last1. rewrite length_app. simpl.
  assert (0 < length l)%nat by (destruct l; [congruence|simpl; lia]).
  replace (length l + 1 - 2)%nat with (length l - 1)%nat by lia.
  apply app_nth1. lia.
Qed.

Lemma nondecreasing_snoc (l : list npfloat) (x : npfloat) :
  nondecreasing l -> (l <> [] -> fle (last1 l) x) -> nondecreasing (l ++ [x]).
Proof.
  intros Hl Hx i Hi. rewrite length_app in Hi. simpl in Hi.
  destruct (Nat.eq_dec (S i) (length l)) as [E | NE].
  - rewrite app_nth1 by lia. rewrite app_nth2 by lia.
    rewrite E, Nat.sub_diag. simpl.
    assert (Hne : l <> []) by (destruct l; [simpl in E; lia|discriminate]).
    specialize (Hx Hne). unfold last1 in Hx.
    replace (length l - 1)%nat with i in Hx by lia. exact Hx.
  - rewrite !app_nth1 by lia. apply Hl. lia.
Qed.

Lemma fle_fin_not_lt (a b : R) : fltb (Fin b) (Fin a) = false -> fle (Fin a) (Fin b).
Proof. intros H. unfold fle, fleb. rewrite H. reflexivity. Qed.

Lemma all_finite_snoc (l : list npfloat) (r : R) :
  all_finite l -> all_finite (l ++ [Fin r]).
Proof.
  intros H x Hx. apply in_app_or in Hx. destruct Hx as [Hx | [<- | []]].
  - apply H, Hx.
  - reflexivity.
Qed.

Lemma all_finite_last1 (l : list npfloat) :
  all_finite l -> l <> [] -> exists r, last1 l = Fin r.
Proof.
  intros H Hne. exists (to_R (last1 l)). apply isfinite_fin, H.
  unfold last1. apply nth_In. destruct l; [congruence|simpl; lia].
Qed.

(** ** Shapes the E-step accepts *)

Lemma computeLLFromW_ok_shape (N K : nat) (W : matrix) (ll : npfloat) :
  computeLLFromW N K W = OK ll -> N = 0%nat \/ (0 < K)%nat.
Proof.
  intros H. destruct N as [|N']; [left; reflexivity|]. right.
  destruct K as [|K']; [|lia]. exfalso.
  unfold computeLLFromW in H.
  destruct (checkNoNans _) as [[]|e]; cbn [bind] in H; [|discriminate].
  unfold range in H. cbn [seq for_each] in H.
  unfold computeLLFromW_row at 1 in H. cbn in H. discriminate.
Qed.

Lemma decode_rows_ok (K : nat) (W : matrix) (rows : list nat) :
  (0 < K)%nat -> exists zhat, decode_rows K W rows = OK zhat.
Proof.
  intros HK. induction rows as [|i t [z IH]]; simpl; [eauto|].
  unfold row, range. destruct K as [|K']; [lia|]. cbn [seq map argmax bind].
  rewrite IH. cbn [bind]. eauto.
Qed.

Lemma decode_ok (N K : nat) (W : matrix) :
  N = 0%nat \/ (0 < K)%nat -> exists zhat, decode N K W = OK zhat.
Proof.
  unfold decode. intros [-> | HK]; [simpl; eauto|]. apply decode_rows_ok, HK.
Qed.

Section FitProperties.

Variables N D K : nat.
Variable Y : matrix.
Variable max_iter : Z.
Variable ll_delta_thresh : npfloat.

Local Abbreviation iteration := (em_iteration N D K Y max_iter ll_delta_thresh).
Local Abbreviation loop := (em_loop N D K Y max_iter ll_delta_thresh).
Local Abbreviation reach := (reaches N D K Y max_iter ll_delta_thresh).
Local Abbreviation checks := (likelihood_checks ll_delta_thresh).

Lemma likelihood_checks_first (x : npfloat) : checks ([] ++ [x]) = OK false.
Proof. reflexivity. Qed.

Lemma likelihood_checks_snoc (l : list npfloat) (x : npfloat) :
  l <> [] ->
  checks (l ++ [x]) =
  if fltb x (last1 l) then Raise (LikelihoodNotIncreasing (last1 l) x)
  else OK (fltb (fabs (x - last1 l)%npf) ll_delta_thresh).
Proof.
  intros Hne. unfold likelihood_checks.
  rewrite last1_snoc, (last2_snoc l x Hne).
  replace (2 <=? length (l ++ [x]))%nat with true; [reflexivity|].
  symmetry. apply Nat.leb_le. rewrite length_app. simpl.
  destruct l; [congruence|simpl; lia].
Qed.

(** The state an iteration leaves, from the results of its two steps. *)
Lemma em_iteration_inv (st st' : em_state) (c : control) :
  iteration st = OK (c, st') ->
  exists W ll E1 EX EX2 zhat conv,
    Estep N D K Y (st_mus st) (st_sigmas st) (st_weights st) (st_decay st)
    = OK (W, ll, E1, EX, EX2)
    /\ decode N K W = OK zhat
    /\ checks (st_lls st ++ [ll]) = OK conv
    /\ (c = Next -> conv = false /\ (st_n_iter st >=? max_iter)%Z = false)
    /\ st' =
       (let m := Mstep N D K Y W EX EX2 (st_mus st) (st_sigmas st)
                  (st_weights st) (st_decay st) in
        mk_em_state (fst (fst (fst m))) (snd (fst (fst m))) (snd (fst m)) (snd m)
          (match c with Next => st_n_iter st + 1 | Break => st_n_iter st end)%Z
          (st_lls st ++ [ll]) (st_clusterings st ++ [zhat])
          (st_esteps st ++ [(st_decay st, ll)]))
    /\ (let m := Mstep N D K Y W EX EX2 (st_mus st) (st_sigmas st)
                  (st_weights st) (st_decay st) in
        checkNoNans [flat2 N K W; flat2 D K EX; flat2 D K EX2;
                     flat2 D K (fst (fst (fst m))); flat2 D K (snd (fst (fst m)));
                     flat1 K (snd (fst m)); [snd m]] = OK tt).
Proof.
  unfold em_iteration. intros H.
  destruct (Estep N D K Y _ _ _ _) as [[[[[W ll] E1] EX] EX2]|e] eqn:EE;
    cbn [bind] in H; [|discriminate].
  destruct (Mstep N D K Y W EX EX2 _ _ _ _) as [[[mus sigmas] weights] decay] eqn:EM.
  destruct (checkNoNans _) as [[]|e] eqn:EC; cbn [bind] in H; [|discriminate].
  destruct (decode N K W) as [zhat|e] eqn:ED; cbn [bind] in H; [|discriminate].
  destruct (checks (st_lls st ++ [ll])) as [conv|e] eqn:EK;
    cbn [bind] in H; [|discriminate].
  exists W, ll, E1, EX, EX2, zhat, conv.
  split; [reflexivity|]. split; [exact ED|]. split; [exact EK|].
  cbv zeta. rewrite EM. cbn [fst snd].
  destruct conv.
  - injection H as Hc Hst. subst c st'.
    split; [discriminate|]. split; [reflexivity|exact EC].
  - destruct (st_n_iter st >=? max_iter)%Z; injection H as Hc Hst; subst c st'.
    + split; [discriminate|]. split; [reflexivity|exact EC].
    + split; [auto|]. split; [reflexivity|exact EC].
Qed.

Lemma Estep_ok_ll_fin (mus sigmas : matrix) (weights : vector) (decay : npfloat)
  (W : matrix) (ll : npfloat) (E1 EX EX2 : matrix) :
  Estep N D K Y mus sigmas weights decay = OK (W, ll, E1, EX, EX2) ->
  exists r, ll = Fin r.
Proof.
  unfold Estep, Estep_after_likelihood. intros H.
  destruct (computeIntegrals D K mus sigmas decay) as [[[E1' EX'] EX2']|e];
    cbn [bind] in H; [|discriminate].
  destruct (checkNoNans _) as [[]|e]; cbn [bind] in H; [|discriminate].
  destruct (computeLLFromW N K _) as [ll'|e] eqn:ELL; cbn [bind] in H; [|discriminate].
  destruct (py_assert _) as [[]|e]; cbn [bind] in H; [|discriminate].
  destruct (for_each _ _ _) as [W'|e]; cbn [bind] in H; [|discriminate].
  destruct (checkNoNans _) as [[]|e]; cbn [bind] in H; [|discriminate].
  injection H as _ <- _ _ _. eapply computeLLFromW_ok_fin, ELL.
Qed.

Lemma trace_inv_init (mus sigmas : matrix) (weights : vector) (decay : npfloat) :
  trace_inv (init_state mus sigmas weights decay).
Proof.
  unfold trace_inv, init_state. simpl. repeat split.
  - intros i Hi. simpl in Hi. lia.
  - intros x [].
Qed.

(** One iteration extends the trace by the likelihood of its E-step and
    keeps it non-decreasing. *)
Lemma trace_inv_iteration (st st' : em_state) (c : control) :
  trace_inv st ->
  iteration st = OK (c, st') ->
  map snd (st_esteps st') = st_lls st'
  /\ nondecreasing (st_lls st')
  /\ all_finite (st_lls st')
  /\ length (st_lls st') = S (length (st_lls st))
  /\ length (st_esteps st') = S (length (st_esteps st))
  /\ st_n_iter st' = (match c with Next => st_n_iter st + 1 | Break => st_n_iter st end)%Z
  /\ (c = Next -> (st_n_iter st >=? max_iter)%Z = false).
Proof.
  intros (Hn & He & Hnd & Hfin) H.
  destruct (em_iteration_inv st st' c H)
    as (W & ll & E1 & EX & EX2 & zhat & conv & HE & _ & Hck & Hnext & -> & _).
  destruct (Estep_ok_ll_fin _ _ _ _ _ _ _ _ _ HE) as [r ->].
  cbv zeta. cbn [st_esteps st_lls st_n_iter].
  repeat split.
  - rewrite map_app, He. reflexivity.
  - apply nondecreasing_snoc; [exact Hnd|]. intros Hne.
    rewrite (likelihood_checks_snoc _ (Fin r) Hne) in Hck.
    destruct (all_finite_last1 _ Hfin Hne) as [p Hp]. rewrite Hp in *.
    destruct (fltb (Fin r) (Fin p)) eqn:Elt; [discriminate|].
    apply fle_fin_not_lt, Elt.
  - apply all_finite_snoc, Hfin.
  - rewrite length_app. simpl. lia.
  - rewrite length_app. simpl. lia.
  - intros Hc. apply Hnext, Hc.
Qed.

Lemma trace_inv_next (st st' : em_state) :
  trace_inv st -> iteration st = OK (Next, st') -> trace_inv st'.
Proof.
  intros Hinv H.
  destruct (trace_inv_iteration st st' Next Hinv H)
    as (He & Hnd & Hfin & Hlen & _ & Hn & _).
  destruct Hinv as (Hn0 & _).
  repeat split; try assumption. rewrite Hn, Hlen, Hn0. lia.
Qed.

Lemma trace_inv_reaches (st0 st : em_state) :
  trace_inv st0 -> reach st0 st -> trace_inv st.
Proof.
  intros H0 Hr. induction Hr as [|st st' _ IH _ Hit]; [exact H0|].
  eapply trace_inv_next; eauto.
Qed.

(** The number of iterations still allowed at a loop head. *)
Lemma remaining_next (st st' : em_state) :
  (st_n_iter st <? max_iter)%Z = true ->
  st_n_iter st' = (st_n_iter st + 1)%Z ->
  Z.to_nat (max_iter - st_n_iter st) = S (Z.to_nat (max_iter - st_n_iter st')).
Proof. intros Hlt Hn. apply Z.ltb_lt in Hlt. lia. Qed.

Lemma em_iteration_next_counter (st st' : em_state) :
  iteration st = OK (Next, st') -> st_n_iter st' = (st_n_iter st + 1)%Z.
Proof.
  intros H.
  destruct (em_iteration_inv st st' Next H)
    as (W & ll & E1 & EX & EX2 & zhat & conv & _ & _ & _ & _ & -> & _).
  reflexivity.
Qed.

(** With [max_iter - n_iter] units of fuel the loop never runs out. *)
Lemma em_loop_enough_fuel (fuel : nat) :
  forall st, (Z.to_nat (max_iter - st_n_iter st) <= fuel)%nat ->
             loop fuel st <> OutOfFuel.
Proof.
  induction fuel as [|fuel IH]; intros st Hfuel; simpl.
  - destruct (st_n_iter st <? max_iter)%Z eqn:Hlt; [|discriminate].
    apply Z.ltb_lt in Hlt. lia.
  - destruct (st_n_iter st <? max_iter)%Z eqn:Hlt; [|discriminate].
    destruct (iteration st) as [[[] st']|e] eqn:Hit; try discriminate.
    apply IH. rewrite (remaining_next st st' Hlt) in Hfuel by
      (apply em_iteration_next_counter, Hit). lia.
Qed.

(** More fuel than that changes nothing. *)
Lemma em_loop_fuel_irrelevant (f1 : nat) :
  forall f2 st,
    (Z.to_nat (max_iter - st_n_iter st) <= f1)%nat ->
    (Z.to_nat (max_iter - st_n_iter st) <= f2)%nat ->
    loop f1 st = loop f2 st.
Proof.
  induction f1 as [|f1 IH]; intros f2 st H1 H2.
  - destruct f2; [reflexivity|]. simpl.
    destruct (st_n_iter st <? max_iter)%Z eqn:Hlt; [|reflexivity].
    apply Z.ltb_lt in Hlt. lia.
  - destruct f2 as [|f2]; simpl.
    + destruct (st_n_iter st <? max_iter)%Z eqn:Hlt; [|reflexivity].
      apply Z.ltb_lt in Hlt. lia.
    + destruct (st_n_iter st <? max_iter)%Z eqn:Hlt; [|reflexivity].
      destruct (iteration st) as [[[] st']|e] eqn:Hit; try reflexivity.
      assert (Hn := em_iteration_next_counter st st' Hit).
      rewrite (remaining_next st st' Hlt Hn) in H1, H2.
      apply IH; lia.
Qed.

(** A run that passes through [st] ends as the loop started in [st] ends. *)
Lemma em_loop_reaches (st0 st : em_state) (fuel : nat) :
  reach st0 st ->
  (Z.to_nat (max_iter - st_n_iter st0) <= fuel)%nat ->
  loop fuel st0 = loop (Z.to_nat (max_iter - st_n_iter st)) st.
Proof.
  intros Hr Hfuel. induction Hr as [|st st' Hr IH Hlt Hit].
  - apply em_loop_fuel_irrelevant; lia.
  - rewrite IH.
    assert (Hn := em_iteration_next_counter st st' Hit).
    rewrite (remaining_next st st' Hlt Hn). simpl.
    rewrite Hlt, Hit. reflexivity.
Qed.

(** What the loop hands over when it ends normally. *)
Lemma em_loop_done (fuel : nat) :
  forall st st',
    trace_inv st -> (st_n_iter st <= max_iter)%Z ->
    loop fuel st = Done st' ->
    map snd (st_esteps st') = st_lls st'
    /\ nondecreasing (st_lls st')
    /\ all_finite (st_lls st')
    /\ (Z.of_nat (length (st_lls st')) <= max_iter)%Z
    /\ (exists st1, reach st st1
                    /\ (st' = st1 \/ iteration st1 = OK (Break, st'))).
Proof.
  induction fuel as [|fuel IH]; intros st st' Hinv Hle H; simpl in H.
  - destruct (st_n_iter st <? max_iter)%Z eqn:Hlt; [discriminate|].
    injection H as <-. destruct Hinv as (Hn & He & Hnd & Hfin).
    repeat split; try assumption; [lia|].
    exists st. split; [constructor|left; reflexivity].
  - destruct (st_n_iter st <? max_iter)%Z eqn:Hlt.
    + destruct (iteration st) as [[[] st1]|e] eqn:Hit; try discriminate.
      * assert (Hinv1 := trace_inv_next st st1 Hinv Hit).
        assert (Hn := em_iteration_next_counter st st1 Hit).
        apply Z.ltb_lt in Hlt.
        destruct (IH st1 st' Hinv1 ltac:(lia) H)
          as (He & Hnd & Hfin & Hlen & st2 & Hr & Hend).
        repeat split; try assumption.
        exists st2. split; [|exact Hend].
        clear - Hr Hit Hlt. apply Z.ltb_lt in Hlt.
        induction Hr as [|sa sb Hr IHr Hlt' Hit'].
        -- econstructor; [constructor|exact Hlt|exact Hit].
        -- econstructor; [exact IHr|exact Hlt'|exact Hit'].
      * injection H as <-.
        destruct (trace_inv_iteration st st1 Break Hinv Hit)
          as (He & Hnd & Hfin & Hlen & _ & _ & _).
        destruct Hinv as (Hn & _). apply Z.ltb_lt in Hlt.
        repeat split; try assumption; [lia|].
        exists st. split; [constructor|right; exact Hit].
    + injection H as <-. destruct Hinv as (Hn & He & Hnd & Hfin).
      repeat split; try assumption; [lia|].
      exists st. split; [constructor|left; reflexivity].
Qed.

(** How a fit that returns was computed. *)
Lemma fitModel_traced_done (zhat : list nat) (params : model_params)
  (esteps : list (npfloat * npfloat)) :
  fitModel_traced N D K Y max_iter ll_delta_thresh = Done (zhat, params, esteps) ->
  exists mus sigmas weights decay st W ll E1 EX EX2,
    initalizeParams N D Y K = OK (mus, sigmas, weights, decay)
    /\ loop (Z.to_nat max_iter) (init_state mus sigmas weights decay) = Done st
    /\ Estep N D K Y (st_mus st) (st_sigmas st) (st_weights st) (st_decay st)
       = OK (W, ll, E1, EX, EX2)
    /\ params = mk_model_params (st_mus st) (st_sigmas st) (st_weights st)
                  (st_decay st) (st_lls st)
    /\ esteps = st_esteps st ++ [(st_decay st, ll)].
Proof.
  unfold fitModel_traced. intros H.
  destruct (initalizeParams N D Y K) as [[[[mus sigmas] weights] decay]|e];
    [|discriminate].
  destruct (checkNoNans _) as [[]|e]; [|discriminate].
  destruct (loop _ _) as [st|e|] eqn:EL; try discriminate.
  destruct (Estep N D K Y _ _ _ _) as [[[[[W ll] E1] EX] EX2]|e] eqn:EE;
    [|discriminate].
  destruct (decode N K W) as [z|e]; [|discriminate].
  injection H as <- <- <-.
  exists mus, sigmas, weights, decay, st, W, ll, E1, EX, EX2.
  repeat split; assumption.
Qed.

Lemma fitModel_done_traced (zhat : list nat) (params : model_params) :
  fitModel N D K Y max_iter ll_delta_thresh = Done (zhat, params) ->
  exists esteps,
    fitModel_traced N D K Y max_iter ll_delta_thresh = Done (zhat, params, esteps).
Proof.
  unfold fitModel. intros H.
  destruct (fitModel_traced _ _ _ _ _ _) as [[[z p] es]|e|]; try discriminate.
  injection H as <- <-. eauto.
Qed.

Lemma init_state_remaining (mus sigmas : matrix) (weights : vector)
  (decay : npfloat) :
  Z.to_nat (max_iter - st_n_iter (init_state mus sigmas weights decay))
  = Z.to_nat max_iter.
Proof. simpl. f_equal. lia. Qed.

(** C7.  For a positive max_iter the loop of fitModel makes at most max_iter
    passes: max_iter units of fuel, one per pass, are always enough, and a
    loop that ends normally leaves at most max_iter likelihoods in the trace,
    one per E-step it ran.  A loop head with the counter at the cap leaves the
    loop normally; it does not raise. *)
Theorem fitModel_iteration_cap :
  (0 < max_iter)%Z ->
  (forall mus sigmas weights decay,
      loop (Z.to_nat max_iter) (init_state mus sigmas weights decay) <> OutOfFuel)
  /\ (forall mus sigmas weights decay st,
         loop (Z.to_nat max_iter) (init_state mus sigmas weights decay) = Done st ->
         (Z.of_nat (length (st_lls st)) <= max_iter)%Z
         /\ length (st_esteps st) = length (st_lls st))
  /\ (forall fuel st, (max_iter <= st_n_iter st)%Z -> loop fuel st = Done st)
  /\ fitModel N D K Y max_iter ll_delta_thresh <> OutOfFuel
  /\ (forall zhat params,
         fitModel N D K Y max_iter ll_delta_thresh = Done (zhat, params) ->
         (Z.of_nat (length (lls params)) <= max_iter)%Z).
Proof.
  intros Hpos.
  assert (Hfuel : forall mus sigmas weights decay,
             loop (Z.to_nat max_iter) (init_state mus sigmas weights decay)
             <> OutOfFuel).
  { intros. apply em_loop_enough_fuel. rewrite init_state_remaining. lia. }
  assert (Hdone : forall mus sigmas weights decay st,
             loop (Z.to_nat max_iter) (init_state mus sigmas weights decay) = Done st ->
             (Z.of_nat (length (st_lls st)) <= max_iter)%Z
             /\ length (st_esteps st) = length (st_lls st)).
  { intros mus sigmas weights decay st H.
    destruct (em_loop_done _ _ _ (trace_inv_init mus sigmas weights decay)
                ltac:(simpl; lia) H) as (He & _ & _ & Hlen & _).
    split; [exact Hlen|]. rewrite <- He, length_map. reflexivity. }
  split; [exact Hfuel|]. split; [exact Hdone|]. split; [|split].
  - intros fuel st Hcap. destruct fuel; simpl;
      replace (st_n_iter st <? max_iter)%Z with false; try reflexivity;
      symmetry; apply Z.ltb_ge; exact Hcap.
  - unfold fitModel, fitModel_traced.
    destruct (initalizeParams N D Y K) as [[[[mus sigmas] weights] decay]|e];
      [|discriminate].
    destruct (checkNoNans _) as [[]|e]; [|discriminate].
    specialize (Hfuel mus sigmas weights decay).
    destruct (loop _ _) as [st|e|]; try discriminate; [|congruence].
    destruct (Estep N D K Y _ _ _ _) as [[[[[W ll] E1] EX] EX2]|e]; [|discriminate].
    destruct (decode N K W); discriminate.
  - intros zhat params H.
    destruct (fitModel_done_traced zhat params H) as [esteps Ht].
    destruct (fitModel_traced_done zhat params esteps Ht)
      as (mus & sigmas & weights & decay & st & W & ll & E1 & EX & EX2
          & _ & HL & _ & -> & _).
    cbn [lls]. apply (Hdone _ _ _ _ _ HL).
Qed.

(** The loop of a fit, from the initial state. *)
Lemma em_loop_init_done (mus sigmas : matrix) (weights : vector)
  (decay : npfloat) (st' : em_state) :
  loop (Z.to_nat max_iter) (init_state mus sigmas weights decay) = Done st' ->
  map snd (st_esteps st') = st_lls st'
  /\ nondecreasing (st_lls st')
  /\ exists st1, reach (init_state mus sigmas weights decay) st1
                 /\ (st' = st1 \/ iteration st1 = OK (Break, st')).
Proof.
  intros HL. destruct (Z_le_gt_dec 0 max_iter) as [Hpos | Hneg].
  - destruct (em_loop_done _ _ _ (trace_inv_init mus sigmas weights decay)
                ltac:(simpl; lia) HL) as (He & Hnd & _ & _ & Hr).
    auto.
  - destruct (Z.to_nat max_iter) eqn:E; [|lia]. simpl in HL.
    replace (0 <? max_iter)%Z with false in HL by (symmetry; apply Z.ltb_ge; lia).
    injection HL as <-.
    split; [reflexivity|]. split; [apply trace_inv_init|].
    eexists. split; [constructor|left; reflexivity].
Qed.

Lemma Estep_ok_decode (mus sigmas : matrix) (weights : vector) (decay : npfloat)
  (W : matrix) (ll : npfloat) (E1 EX EX2 : matrix) :
  Estep N D K Y mus sigmas weights decay = OK (W, ll, E1, EX, EX2) ->
  exists zhat, decode N K W = OK zhat.
Proof.
  unfold Estep, Estep_after_likelihood. intros H. apply decode_ok.
  destruct (computeIntegrals D K mus sigmas decay) as [[[E1' EX'] EX2']|e];
    cbn [bind] in H; [|discriminate].
  destruct (checkNoNans _) as [[]|e]; cbn [bind] in H; [|discriminate].
  destruct (computeLLFromW N K _) as [ll'|e] eqn:ELL; cbn [bind] in H; [|discriminate].
  eapply computeLLFromW_ok_shape, ELL.
Qed.

(** The iteration in which the likelihood went down. *)
Lemma em_iteration_diverged (st : em_state) (W : matrix) (ll : npfloat)
  (E1 EX EX2 : matrix) :
  Estep N D K Y (st_mus st) (st_sigmas st) (st_weights st) (st_decay st)
  = OK (W, ll, E1, EX, EX2) ->
  (let m := Mstep N D K Y W EX EX2 (st_mus st) (st_sigmas st) (st_weights st)
              (st_decay st) in
   checkNoNans [flat2 N K W; flat2 D K EX; flat2 D K EX2;
                flat2 D K (fst (fst (fst m))); flat2 D K (snd (fst (fst m)));
                flat1 K (snd (fst m)); [snd m]] = OK tt) ->
  (2 <= length (st_lls st ++ [ll]))%nat ->
  fltb (last1 (st_lls st ++ [ll])) (last2 (st_lls st ++ [ll])) = true ->
  iteration st =
  Raise (LikelihoodNotIncreasing (last2 (st_lls st ++ [ll]))
           (last1 (st_lls st ++ [ll]))).
Proof.
  intros HE Hchk Hlen Hlt. unfold em_iteration. rewrite HE. cbn [bind].
  cbv zeta in Hchk.
  destruct (Mstep N D K Y W EX EX2 _ _ _ _) as [[[mus sigmas] weights] decay].
  cbn [fst snd] in Hchk. rewrite Hchk. cbn [bind].
  destruct (Estep_ok_decode _ _ _ _ _ _ _ _ _ HE) as [zhat ->]. cbn [bind].
  unfold likelihood_checks.
  rewrite (proj2 (Nat.leb_le _ _) Hlen), Hlt. reflexivity.
Qed.


(** C4 as the code has it.  The trace of a fit that returns holds, in order,
    the likelihoods of the E-steps run inside the loop; the likelihood of the
    final E-step, run after the loop, is not appended: the E-steps that
    returned are one more than the entries of the trace. *)
Theorem fitModel_trace_omits_final_estep (zhat : list nat)
  (params : model_params) (esteps : list (npfloat * npfloat)) :
  fitModel_traced N D K Y max_iter ll_delta_thresh = Done (zhat, params, esteps) ->
  exists ll_final,
    map snd esteps = lls params ++ [ll_final]
    /\ length esteps = S (length (lls params)).
Proof.
  intros Ht.
  destruct (fitModel_traced_done zhat params esteps Ht)
    as (mus & sigmas & weights & decay & st & W & ll & E1 & EX & EX2
        & _ & HL & _ & -> & ->).
  cbn [lls]. exists ll.
  assert (He : map snd (st_esteps st) = st_lls st).
  { destruct (Z_le_gt_dec 0 max_iter) as [Hpos | Hneg].
    - apply (em_loop_done _ _ _ (trace_inv_init mus sigmas weights decay)
               ltac:(simpl; lia) HL).
    - destruct (Z.to_nat max_iter) eqn:E; [|lia]. simpl in HL.
      replace (0 <? max_iter)%Z with false in HL by (symmetry; apply Z.ltb_ge; lia).
      injection HL as <-. reflexivity. }
  split.
  - rewrite map_app, He. reflexivity.
  - rewrite length_app, <- He, length_map. simpl. lia.
Qed.

(** ** The decay coefficient after an M-step *)

Lemma decay_bounded_pos (x : npfloat) :
  decay_bounded x -> fgtb x (Fin 0) = true.
Proof.
  unfold decay_bounded, fle, fgtb. destruct x as [r| | |]; simpl; try discriminate.
  - intros H. apply negb_true_iff, Rltb_false in H. apply Rltb_true. lra.
  - reflexivity.
Qed.

Lemma tl_snoc {A : Type} (l : list A) (x : A) :
  l <> [] -> tl (l ++ [x]) = tl l ++ [x].
Proof. destruct l; [congruence|reflexivity]. Qed.

Section DecayBound.

(** The bounded minimizer returns a point at or above a finite lower
    bound. *)
Hypothesis minimize_respects_bounds :
  forall f x0 (lo : R) hi gtol, fle (Fin lo) (minimize f x0 (Fin lo, hi) gtol).

Lemma Mstep_decay_bounded (W EX EX2 mus sigmas : matrix) (weights : vector)
  (decay : npfloat) :
  decay_bounded (snd (Mstep N D K Y W EX EX2 mus sigmas weights decay)).
Proof. unfold Mstep. cbn [snd]. apply minimize_respects_bounds. Qed.

Lemma decay_inv_iteration (st st' : em_state) (c : control) :
  decay_inv st -> iteration st = OK (c, st') ->
  decay_inv st' /\ decay_bounded (st_decay st').
Proof.
  intros [Htl Hcur] H.
  destruct (em_iteration_inv st st' c H)
    as (W & ll & E1 & EX & EX2 & zhat & conv & _ & _ & _ & _ & -> & _).
  cbv zeta. unfold decay_inv. cbn [st_esteps st_decay].
  assert (Hb := Mstep_decay_bounded W EX EX2 (st_mus st) (st_sigmas st)
                  (st_weights st) (st_decay st)).
  split; [split|]; auto.
  destruct (st_esteps st) as [|e es] eqn:Ees.
  - constructor.
  - rewrite tl_snoc by discriminate. apply Forall_app. split; [exact Htl|].
    constructor; [|constructor]. apply Hcur. discriminate.
Qed.

Lemma decay_inv_reaches (st0 st : em_state) :
  decay_inv st0 -> reach st0 st -> decay_inv st.
Proof.
  intros H0 Hr. induction Hr as [|st st' _ IH _ Hit]; [exact H0|].
  eapply decay_inv_iteration; eauto.
Qed.

Lemma decay_inv_init (mus sigmas : matrix) (weights : vector) (decay : npfloat) :
  decay_inv (init_state mus sigmas weights decay).
Proof. split; simpl; [constructor|congruence]. Qed.

Lemma reaches_esteps_nonempty (st0 st : em_state) :
  reach st0 st -> st <> st0 -> st_esteps st <> [].
Proof.
  intros Hr Hne. destruct Hr as [|st1 st' _ _ Hit]; [congruence|].
  destruct (em_iteration_inv st1 st' Next Hit)
    as (W & ll & E1 & EX & EX2 & zhat & conv & _ & _ & _ & _ & -> & _).
  cbv zeta. cbn [st_esteps]. intros E. apply app_eq_nil in E.
  destruct E as [_ E]. discriminate.
Qed.

(** C10.  With a minimizer that returns a point at or above the lower bound
    it is given, the decay coefficient every M-step returns is at least 1e-4;
    so is the one every iteration of fitModel leaves, which is therefore
    strictly positive; and in a fit that returns every E-step after the first
    was called with a decay coefficient that is at least 1e-4 and strictly
    positive, as the assertion of computeIntegrals asks. *)
Theorem Mstep_decay_lower_bound :
  (forall W EX EX2 mus sigmas weights decay,
      decay_bounded (snd (Mstep N D K Y W EX EX2 mus sigmas weights decay)))
  /\ (forall st c st',
         iteration st = OK (c, st') ->
         decay_bounded (st_decay st') /\ fgtb (st_decay st') (Fin 0) = true)
  /\ (forall zhat params esteps,
         fitModel_traced N D K Y max_iter ll_delta_thresh
         = Done (zhat, params, esteps) ->
         Forall (fun e => decay_bounded (fst e) /\ fgtb (fst e) (Fin 0) = true)
           (tl esteps)
         /\ (lls params <> [] -> decay_bounded (decay_coef params))).
Proof.
  split; [exact Mstep_decay_bounded|]. split.
  - intros st c st' H.
    destruct (em_iteration_inv st st' c H)
      as (W & ll & E1 & EX & EX2 & zhat & conv & _ & _ & _ & _ & -> & _).
    cbv zeta. cbn [st_decay].
    assert (Hb := Mstep_decay_bounded W EX EX2 (st_mus st) (st_sigmas st)
                    (st_weights st) (st_decay st)).
    split; [exact Hb|apply decay_bounded_pos, Hb].
  - intros zhat params esteps Ht.
    destruct (fitModel_traced_done zhat params esteps Ht)
      as (mus & sigmas & weights & decay & st & W & ll & E1 & EX & EX2
          & _ & HL & _ & -> & ->).
    destruct (em_loop_init_done _ _ _ _ _ HL) as (He & _ & st1 & Hr & Hend).
    assert (Hinv1 := decay_inv_reaches _ _ (decay_inv_init mus sigmas weights decay) Hr).
    assert (Hinv : decay_inv st).
    { destruct Hend as [-> | Hbrk]; [exact Hinv1|].
      apply (decay_inv_iteration st1 st Break Hinv1 Hbrk). }
    destruct Hinv as [Htl Hcur]. cbn [lls decay_coef]. split.
    + destruct (st_esteps st) as [|e es] eqn:Ees; [constructor|].
      rewrite tl_snoc by discriminate.
      apply Forall_app. split.
      * eapply Forall_impl; [|exact Htl]. intros a Ha.
        split; [exact Ha|apply decay_bounded_pos, Ha].
      * assert (Hb : decay_bounded (st_decay st)) by (apply Hcur; discriminate).
        constructor; [|constructor].
        split; [exact Hb|apply decay_bounded_pos, Hb].
    + intros Hne. apply Hcur. intros E. rewrite E in He. simpl in He. congruence.
Qed.

End DecayBound.

End FitProperties.

(** ** computePosteriorLogZProbability *)

Lemma computePosterior_entry (N D K : nat) (Y mus sigmas : matrix)
  (weights : vector) (decay : npfloat) (E1 : matrix) (i k : nat) :
  computePosteriorLogZProbability N D K Y mus sigmas weights decay E1 i k
  = code_logpost_entry D Y mus sigmas weights decay E1 i k.
Proof. reflexivity. Qed.

Lemma Rsum_plus (f g : nat -> R) (l : list nat) :
  Rsum (map (fun d => f d + g d) l) = Rsum (map f l) + Rsum (map g l).
Proof. induction l as [|x t IH]; simpl; [lra|]. rewrite IH. lra. Qed.

Lemma Rsum_opp (f : nat -> R) (l : list nat) :
  Rsum (map (fun d => - f d) l) = - Rsum (map f l).
Proof. induction l as [|x t IH]; simpl; [lra|]. rewrite IH. lra. Qed.

Lemma fsum_map_fin (f : nat -> npfloat) (g : nat -> R) (l : list nat) :
  (forall d, In d l -> f d = Fin (g d)) ->
  fsum (map f l) = Fin (Rsum (map g l)).
Proof.
  intros H. rewrite <- fsum_fin, map_map. f_equal. apply map_ext_in, H.
Qed.

Lemma nan_to_num_zero_mul (z : npfloat) : nan_to_num (Fin 0 * z)%npf = Fin 0.
Proof.
  destruct z as [r| | |]; simpl; try rewrite Rsgn_zero; simpl; try reflexivity.
  f_equal. lra.
Qed.

Lemma is_zero_lift2 (Y : nat -> nat -> R) (i d : nat) :
  is_zero (lift2 Y) i d = censored (Y i d).
Proof. reflexivity. Qed.

Lemma censored_false (y : R) : censored y = false -> 0 < y * y.
Proof.
  unfold censored. intros H. apply Rltb_false in H.
  assert (y <> 0).
  { intros ->. rewrite Rabs_R0 in H. lra. }
  nra.
Qed.

Section FiniteLogPosterior.

Variables y m s l e1 : R.
Hypothesis s_pos : 0 < s.
Hypothesis l_pos : 0 < l.
Hypothesis e1_pos : 0 < e1.

Lemma norm_term_fin :
  flog (Fin 1 / fsqrt (Fin 2 * Fin PI * fsqr (Fin s)))%npf
  = Fin (ln (1 / sqrt (2 * PI * (s * s)))).
Proof.
  assert (Hpi := PI_RGT_0).
  assert (H : 0 < 2 * PI * (s * s)) by (apply Rmult_lt_0_compat; nra).
  assert (Hs : 0 < sqrt (2 * PI * (s * s))) by (apply sqrt_lt_R0, H).
  cbn [fsqr fmul]. rewrite fsqrt_fin by lra. rewrite fdiv_fin by lra.
  apply flog_fin. apply Rdiv_lt_0_compat; lra.
Qed.

Lemma quad_term_fin :
  (fsqr (Fin y - Fin m) / (Fin 2 * fsqr (Fin s)))%npf
  = Fin ((y - m) * (y - m) / (2 * (s * s))).
Proof.
  cbn [fsqr fmul fsub fadd fneg]. rewrite fdiv_fin by nra. reflexivity.
Qed.

Lemma decay_term_observed :
  censored y = false ->
  flog (Fin 1 - fexp (- Fin l * fsqr (Fin y)))%npf = Fin (decay_logp l y).
Proof.
  intros Hc. assert (Hy := censored_false y Hc).
  cbn [fsqr fmul fsub fadd fneg fexp].
  assert (exp (- l * (y * y)) < 1).
  { rewrite <- exp_0. apply exp_increasing. nra. }
  rewrite flog_fin by lra. reflexivity.
Qed.

End FiniteLogPosterior.

Lemma b2f_mul_fin (c : bool) (x : R) :
  (b2f c * Fin x)%npf = Fin ((if c then 1 else 0) * x).
Proof. destruct c; reflexivity. Qed.

Lemma is_zero_fin (Ym : matrix) (i d : nat) (y : R) :
  Ym i d = Fin y -> is_zero Ym i d = censored y.
Proof. intros H. unfold is_zero. rewrite H. reflexivity. Qed.

(** On finite data and strictly positive sigma, weights, lambda and E1 the
    entries are those of the specification's sum. *)
Lemma computePosterior_finite_entry (N D K : nat) (Ym mum sm : matrix)
  (wm : vector) (E1m : matrix) (Y mu sigma : nat -> nat -> R)
  (w : nat -> R) (l : R) (E1 : nat -> nat -> R) (i k : nat) :
  0 < l ->
  (forall d, (d < D)%nat -> Ym i d = Fin (Y i d)) ->
  (forall d, (d < D)%nat -> mum d k = Fin (mu d k)) ->
  (forall d, (d < D)%nat -> sm d k = Fin (sigma d k) /\ 0 < sigma d k) ->
  (forall d, (d < D)%nat -> E1m d k = Fin (E1 d k) /\ 0 < E1 d k) ->
  wm k = Fin (w k) -> 0 < w k ->
  computePosteriorLogZProbability N D K Ym mum sm wm (Fin l) E1m i k
  = Fin (logpost_r D Y mu sigma w l E1 i k).
Proof.
  intros Hl HY Hmu Hsig HE1 Hwk Hw.
  rewrite computePosterior_entry. unfold code_logpost_entry.
  set (c := fun d => censored (Y i d)).
  set (ind := fun b : bool => if b then 1 else 0).
  set (A := fun d => ind (c d) * ln (E1 d k)).
  set (B := fun d => ind (negb (c d)) * ln (1 / sqrt (2 * PI * (sigma d k * sigma d k)))).
  set (C := fun d => if c d then 0 else decay_logp l (Y i d)).
  set (Q := fun d => ind (negb (c d))
                     * ((Y i d - mu d k) * (Y i d - mu d k)
                        / (2 * (sigma d k * sigma d k)))).
  rewrite (fsum_map_fin _ A).
  2:{ intros d Hd. apply in_range in Hd. destruct (HE1 d Hd) as [-> He].
      rewrite flog_fin by exact He.
      rewrite (is_zero_fin Ym i d _ (HY d Hd)). apply b2f_mul_fin. }
  rewrite (fsum_map_fin _ B).
  2:{ intros d Hd. apply in_range in Hd. destruct (Hsig d Hd) as [-> Hs].
      rewrite norm_term_fin by exact Hs.
      rewrite (is_zero_fin Ym i d _ (HY d Hd)). apply b2f_mul_fin. }
  rewrite (fsum_map_fin _ C).
  2:{ intros d Hd. apply in_range in Hd.
      rewrite (is_zero_fin Ym i d _ (HY d Hd)). unfold C, c.
      destruct (censored (Y i d)) eqn:Ec; cbn [negb b2f].
      - apply nan_to_num_zero_mul.
      - rewrite (HY d Hd). rewrite (decay_term_observed _ _ Hl Ec). simpl.
        f_equal. lra. }
  rewrite (fsum_map_fin _ Q).
  2:{ intros d Hd. apply in_range in Hd. destruct (Hsig d Hd) as [-> Hs].
      rewrite (is_zero_fin Ym i d _ (HY d Hd)).
      rewrite (HY d Hd), (Hmu d Hd).
      rewrite quad_term_fin by exact Hs. apply b2f_mul_fin. }
  rewrite Hwk, flog_fin by exact Hw.
  cbn [nan_to_num fadd fneg]. f_equal.
  unfold logpost_r.
  assert (Hterm : forall d,
             logpost_term l (Y i d) (mu d k) (sigma d k) (E1 d k)
             = (A d + B d) + (C d + - Q d)).
  { intros d. unfold logpost_term, gauss_logpdf, A, B, C, Q, c, ind.
    destruct (censored (Y i d)); cbn [negb]; lra. }
  rewrite (map_ext _ _ Hterm).
  rewrite (Rsum_plus (fun d => A d + B d) (fun d => C d + - Q d)).
  rewrite (Rsum_plus A B), (Rsum_plus C (fun d => - Q d)), Rsum_opp.
  lra.
Qed.

Lemma computePosterior_finite (N D K : nat) (Y mu sigma : nat -> nat -> R)
  (w : nat -> R) (l : R) (E1 : nat -> nat -> R) :
  0 < l ->
  (forall d k, (d < D)%nat -> (k < K)%nat -> 0 < sigma d k /\ 0 < E1 d k) ->
  (forall k, (k < K)%nat -> 0 < w k) ->
  forall i k, (k < K)%nat ->
    computePosteriorLogZProbability N D K (lift2 Y) (lift2 mu) (lift2 sigma)
      (lift1 w) (Fin l) (lift2 E1) i k
    = Fin (logpost_r D Y mu sigma w l E1 i k).
Proof.
  intros Hl Hpos Hw i k Hk.
  apply computePosterior_finite_entry; auto; intros d Hd;
    (split; [reflexivity|apply (Hpos d k Hd Hk)]).
Qed.

Lemma fold_fadd_ninf (l : list npfloat) (acc : npfloat) :
  (forall x, In x l -> x = NInf \/ exists r, x = Fin r) ->
  (acc = NInf \/ exists r, acc = Fin r) ->
  acc = NInf \/ In NInf l ->
  fold_left fadd l acc = NInf.
Proof.
  revert acc. induction l as [|x t IH]; intros acc Hl Hacc Hsome.
  - destruct Hsome as [H|[]]. exact H.
  - simpl. apply IH.
    + intros z Hz. apply Hl. right. exact Hz.
    + destruct Hacc as [->|[a ->]];
        destruct (Hl x (or_introl eq_refl)) as [->|[r ->]]; simpl; eauto.
    + destruct Hsome as [Ha|[Hx|Hin]].
      * left. subst acc.
        destruct (Hl x (or_introl eq_refl)) as [->|[r ->]]; reflexivity.
      * left. subst x. destruct Hacc as [->|[a ->]]; reflexivity.
      * right. exact Hin.
Qed.

Lemma fsum_ninf (f : nat -> npfloat) (l : list nat) (d0 : nat) :
  (forall d, In d l -> f d = NInf \/ exists r, f d = Fin r) ->
  In d0 l -> f d0 = NInf ->
  fsum (map f l) = NInf.
Proof.
  intros Hall Hin H0. unfold fsum. apply fold_fadd_ninf.
  - intros x Hx. apply in_map_iff in Hx. destruct Hx as (d & <- & Hd).
    apply Hall, Hd.
  - right. eexists. reflexivity.
  - right. rewrite <- H0. apply in_map, Hin.
Qed.

(** A censored dimension whose E1 is 0 puts the smallest finite float in the
    place of the censored sum. *)
Lemma computePosterior_zero_mass_entry (N D K : nat)
  (Y mu sigma : nat -> nat -> R) (w : nat -> R) (l : R)
  (E1 : nat -> nat -> R) (i k d0 : nat) :
  0 < l ->
  (forall d, (d < D)%nat -> 0 < sigma d k /\ 0 <= E1 d k) ->
  0 < w k ->
  (forall d, (d < D)%nat -> censored (Y i d) = false -> 0 < E1 d k) ->
  (d0 < D)%nat -> censored (Y i d0) = true -> E1 d0 k = 0 ->
  computePosteriorLogZProbability N D K (lift2 Y) (lift2 mu) (lift2 sigma)
    (lift1 w) (Fin l) (lift2 E1) i k
  = Fin (- DBL_MAX + logpost_r D Y mu sigma w l (fun _ _ => 1) i k).
Proof.
  intros Hl Hsig Hw Hobs Hd0 Hc0 He0.
  rewrite computePosterior_entry. unfold code_logpost_entry.
  set (c := fun d => censored (Y i d)).
  set (ind := fun b : bool => if b then 1 else 0).
  set (B := fun d => ind (negb (c d)) * ln (1 / sqrt (2 * PI * (sigma d k * sigma d k)))).
  set (C := fun d => if c d then 0 else decay_logp l (Y i d)).
  set (Q := fun d => ind (negb (c d))
                     * ((Y i d - mu d k) * (Y i d - mu d k)
                        / (2 * (sigma d k * sigma d k)))).
  rewrite (fsum_ninf _ _ d0).
  2:{ intros d Hd. apply in_range in Hd. rewrite is_zero_lift2. unfold lift2.
      destruct (censored (Y i d)) eqn:Ec; cbn [b2f].
      - destruct (proj2 (Hsig d Hd)) as [Hpos|Hz].
        + right. rewrite flog_fin by exact Hpos. eexists. reflexivity.
        + left. rewrite <- Hz. cbn. rewrite Rsgn_zero. cbn.
          rewrite Rsgn_pos by lra. reflexivity.
      - right. rewrite flog_fin by (apply Hobs; assumption).
        eexists. reflexivity. }
  2:{ apply in_range. exact Hd0. }
  2:{ rewrite is_zero_lift2, Hc0. unfold lift2. rewrite He0. cbn.
      rewrite Rsgn_zero. cbn. rewrite Rsgn_pos by lra. reflexivity. }
  rewrite (fsum_map_fin _ B).
  2:{ intros d Hd. apply in_range in Hd. rewrite is_zero_lift2. unfold lift2.
      rewrite norm_term_fin by apply (Hsig d Hd). apply b2f_mul_fin. }
  rewrite (fsum_map_fin _ C).
  2:{ intros d Hd. apply in_range in Hd.
      rewrite is_zero_lift2. unfold C, c.
      destruct (censored (Y i d)) eqn:Ec; cbn [negb b2f].
      - apply nan_to_num_zero_mul.
      - unfold lift2. rewrite (decay_term_observed _ _ Hl Ec). simpl.
        f_equal. lra. }
  rewrite (fsum_map_fin _ Q).
  2:{ intros d Hd. apply in_range in Hd. rewrite is_zero_lift2. unfold lift2.
      rewrite quad_term_fin by apply (Hsig d Hd). apply b2f_mul_fin. }
  unfold lift1. rewrite flog_fin by exact Hw.
  cbn [nan_to_num fadd fneg]. f_equal.
  unfold logpost_r.
  assert (Hterm : forall d,
             logpost_term l (Y i d) (mu d k) (sigma d k) 1
             = B d + (C d + - Q d)).
  { intros d. unfold logpost_term, gauss_logpdf, B, C, Q, c, ind.
    destruct (censored (Y i d)); cbn [negb]; rewrite ?ln_1; lra. }
  rewrite (map_ext _ _ Hterm).
  rewrite (Rsum_plus B (fun d => C d + - Q d)).
  rewrite (Rsum_plus C (fun d => - Q d)), Rsum_opp.
  lra.
Qed.


(** ** Estep: normalization of the rows *)

Lemma existsb_isnan_fin (l : list R) : existsb isnan (map Fin l) = false.
Proof. induction l; simpl; auto. Qed.

Lemma np_max_fin (l : list R) :
  l <> [] -> np_max (map Fin l) = OK (Fin (Rmax_list l)).
Proof.
  intros Hne. unfold np_max. rewrite existsb_isnan_fin.
  destruct l as [|x t]; [congruence|]. simpl.
  change (fold_left _ (map Fin t) (Fin x))
    with (fold_left fmax2 (map Fin t) (Fin x)).
  rewrite fold_fmax2_fin. reflexivity.
Qed.

Lemma set_row_same (W : matrix) (i : nat) (r : vector) (k : nat) :
  set_row W i r i k = r k.
Proof. unfold set_row. rewrite Nat.eqb_refl. reflexivity. Qed.

Lemma Rrow_nonempty (K : nat) (Wr : nat -> nat -> R) (i : nat) :
  (0 < K)%nat -> Rrow K Wr i <> [].
Proof.
  intros HK E. unfold Rrow in E. apply map_eq_nil in E. revert E.
  apply range_nonempty, HK.
Qed.

Lemma softmax_denominator_pos (r : list R) :
  r <> [] -> 0 < Rsum (map (fun w => exp (w - Rmax_list r)) r).
Proof. intros H. apply (Rsum_exp_pos (fun w => w - Rmax_list r)), H. Qed.

Lemma softmax_nonneg (r : list R) (x : R) : r <> [] -> 0 <= softmax_r r x.
Proof.
  intros H. unfold softmax_r. left.
  apply Rdiv_lt_0_compat; [apply exp_pos|apply softmax_denominator_pos, H].
Qed.

Lemma softmax_sums_to_1 (r : list R) :
  r <> [] -> Rsum (map (softmax_r r) r) = 1.
Proof.
  intros H. assert (HS := softmax_denominator_pos r H).
  unfold softmax_r. set (m := Rmax_list r) in *.
  set (S := Rsum (map (fun w => exp (w - m)) r)) in *.
  assert (E : map (fun x => exp (x - m) / S) r
              = map (fun y => / S * y) (map (fun w => exp (w - m)) r)).
  { rewrite map_map. apply map_ext. intros x. unfold Rdiv. ring. }
  rewrite E, Rsum_scale. fold S. field. lra.
Qed.

Lemma normalize_row_fin (K : nat) (W : matrix) (Wr : nat -> nat -> R) (i : nat) :
  (0 < K)%nat ->
  (forall k, (k < K)%nat -> W i k = Fin (Wr i k)) ->
  exists W',
    normalize_row K W i = OK W'
    /\ (forall k, (k < K)%nat ->
          W' i k = Fin (softmax_r (Rrow K Wr i) (Wr i k)))
    /\ (forall i' k, i' <> i -> W' i' k = W i' k).
Proof.
  intros HK HW. unfold normalize_row.
  rewrite (row_fin K W Wr i HW).
  rewrite np_max_fin by (apply Rrow_nonempty, HK). cbn [bind].
  set (m := Rmax_list (Rrow K Wr i)).
  eexists. split; [reflexivity|]. split.
  - intros k Hk. rewrite !set_row_same. rewrite !row_set_row_same.
    assert (E : map (fun k0 => fexp (set_row W i (fun k1 => (W i k1 - Fin m)%npf) i k0))
                    (range K)
                = map Fin (map (fun w => exp (w - m)) (Rrow K Wr i))).
    { unfold Rrow. rewrite !map_map. apply map_ext_in. intros k0 Hk0.
      rewrite set_row_same. rewrite HW by (apply in_range, Hk0). reflexivity. }
    rewrite E, fsum_fin. rewrite (HW k Hk). cbn [fsub fadd fneg fexp].
    assert (HS := softmax_denominator_pos (Rrow K Wr i) (Rrow_nonempty K Wr i HK)).
    fold m in HS. rewrite fdiv_fin by lra. reflexivity.
  - intros i' k Hne. rewrite !set_row_other by exact Hne. reflexivity.
Qed.

Lemma normalize_rows_fin (K : nat) (Wr : nat -> nat -> R) (l : list nat) :
  (0 < K)%nat -> NoDup l ->
  forall W : matrix,
    (forall i k, In i l -> (k < K)%nat -> W i k = Fin (Wr i k)) ->
    exists W',
      for_each l (normalize_row K) W = OK W'
      /\ (forall i k, In i l -> (k < K)%nat ->
            W' i k = Fin (softmax_r (Rrow K Wr i) (Wr i k)))
      /\ (forall i k, ~ In i l -> W' i k = W i k).
Proof.
  intros HK Hnd. induction Hnd as [|i t Hni Hnd IH]; intros W HW.
  - exists W. simpl. repeat split; auto. intros i k [].
  - cbn [for_each].
    destruct (normalize_row_fin K W Wr i HK) as (W1 & E1 & Hrow & Hother).
    { intros k Hk. apply HW; [left; reflexivity|exact Hk]. }
    rewrite E1. cbn [bind].
    destruct (IH W1) as (W' & E' & Hin & Hout).
    { intros i' k Hi' Hk. rewrite Hother by (intros ->; contradiction).
      apply HW; [right; exact Hi'|exact Hk]. }
    exists W'. split; [exact E'|]. split.
    + intros i' k [<- | Hi'] Hk.
      * rewrite Hout by exact Hni. apply Hrow, Hk.
      * apply Hin; assumption.
    + intros i' k Hni'. rewrite Hout by (intros Hc; apply Hni'; right; exact Hc).
      apply Hother. intros ->. apply Hni'. left. reflexivity.
Qed.

(** The rows of a finite matrix, once normalized. *)
Lemma normalize_finite_matrix (N K : nat) (W0 : matrix) :
  (0 < K)%nat ->
  all_finite (flat2 N K W0) ->
  exists W,
    for_each (range N) (normalize_row K) W0 = OK W
    /\ row_stochastic N K W
    /\ checkNoNans [flat2 N K W] = OK tt.
Proof.
  intros HK Hfin.
  destruct (normalize_rows_fin K (unlift2 W0) (range N) HK (range_NoDup N) W0)
    as (W & E & Hin & _).
  { intros i k Hi Hk.
    apply (proj1 (all_finite_flat2 N K W0) Hfin); [apply in_range, Hi|exact Hk]. }
  exists W. split; [exact E|].
  assert (Hent : forall i k, (i < N)%nat -> (k < K)%nat ->
             W i k = Fin (softmax_r (Rrow K (unlift2 W0) i) (unlift2 W0 i k))).
  { intros i k Hi Hk. apply Hin; [apply in_range, Hi|exact Hk]. }
  split.
  - intros i Hi. split.
    + intros k Hk. eexists. split; [apply Hent; assumption|].
      apply softmax_nonneg, Rrow_nonempty, HK.
    + rewrite (row_fin K W
                 (fun i k => softmax_r (Rrow K (unlift2 W0) i) (unlift2 W0 i k)) i)
        by (intros k Hk; apply Hent; assumption).
      rewrite fsum_fin. f_equal.
      unfold Rrow at 1. rewrite <- (map_map (unlift2 W0 i)).
      apply softmax_sums_to_1, Rrow_nonempty, HK.
  - apply checkNoNans_ok. constructor; [|constructor].
    apply all_finite_flat2. intros i j Hi Hj. unfold unlift2.
    rewrite (Hent i j Hi Hj). reflexivity.
Qed.

(** ** Estep: the responsibilities *)

Lemma all_finite_flat2_intro (R C : nat) (M : matrix) :
  (forall i j, (i < R)%nat -> (j < C)%nat -> exists x, M i j = Fin x) ->
  all_finite (flat2 R C M).
Proof.
  intros H. apply all_finite_flat2. intros i j Hi Hj.
  destruct (H i j Hi Hj) as [x E]. unfold unlift2. rewrite E. reflexivity.
Qed.

Lemma computeLLFromW_ok_input (N K : nat) (W : matrix) (ll : npfloat) :
  computeLLFromW N K W = OK ll -> all_finite (flat2 N K W).
Proof.
  unfold computeLLFromW. intros H.
  destruct (checkNoNans_cases [flat2 N K W]) as [[E Hfin] | (j & E & _)];
    rewrite E in H; cbn [bind] in H; [|discriminate].
  inversion Hfin; assumption.
Qed.

(** Whatever the parameters, the matrix an E-step returns is
    row-stochastic. *)
Lemma Estep_ok_row_stochastic (N D K : nat) (Y mus sigmas : matrix)
  (weights : vector) (decay : npfloat) (W : matrix) (ll : npfloat)
  (E1 EX EX2 : matrix) :
  Estep N D K Y mus sigmas weights decay = OK (W, ll, E1, EX, EX2) ->
  row_stochastic N K W.
Proof.
  unfold Estep, Estep_after_likelihood. intros H.
  destruct (computeIntegrals D K mus sigmas decay) as [[[E1' EX'] EX2']|e];
    cbn [bind] in H; [|discriminate].
  destruct (checkNoNans _) as [[]|e]; cbn [bind] in H; [|discriminate].
  destruct (computeLLFromW N K _) as [ll'|e] eqn:ELL; cbn [bind] in H; [|discriminate].
  destruct (py_assert _) as [[]|e]; cbn [bind] in H; [|discriminate].
  assert (Hfin := computeLLFromW_ok_input _ _ _ _ ELL).
  destruct (computeLLFromW_ok_shape _ _ _ _ ELL) as [-> | HK].
  - intros i Hi. lia.
  - destruct (normalize_finite_matrix N K _ HK Hfin) as (W1 & E & Hrs & Hchk).
    rewrite E in H. cbn [bind] in H. rewrite Hchk in H. cbn [bind] in H.
    injection H as <- _ _ _ _. exact Hrs.
Qed.

(** On valid parameters the E-step returns. *)
Lemma Estep_valid_ok (N D K : nat) (Ym mum sm : matrix) (wm : vector)
  (Y mu sigma : nat -> nat -> R) (w : nat -> R) (l : R) :
  (forall x, -1 < erf x < 1) ->
  (0 < K)%nat -> 0 < l ->
  (forall i d, (i < N)%nat -> (d < D)%nat -> Ym i d = Fin (Y i d)) ->
  (forall d k, (d < D)%nat -> (k < K)%nat -> mum d k = Fin (mu d k)) ->
  (forall d k, (d < D)%nat -> (k < K)%nat ->
               sm d k = Fin (sigma d k) /\ 0 < sigma d k) ->
  (forall k, (k < K)%nat -> wm k = Fin (w k) /\ 0 < w k) ->
  exists W ll E1 EX EX2,
    Estep N D K Ym mum sm wm (Fin l) = OK (W, ll, E1, EX, EX2)
    /\ (forall d k, (d < D)%nat -> (k < K)%nat ->
          exists ex ex2, EX d k = Fin ex /\ EX2 d k = Fin ex2).
Proof.
  intros Herf HK Hl HY Hmu Hsig Hw.
  assert (Hat : forall d k, (d < D)%nat -> (k < K)%nat ->
             exists ex ex2,
               integrals_at (mum d k) (sm d k) (Fin l)
               = (Fin (E1_r (mu d k) (sigma d k) l), Fin ex, Fin ex2)).
  { intros d k Hd Hk. rewrite (Hmu d k Hd Hk).
    destruct (Hsig d k Hd Hk) as [-> Hs].
    apply integrals_at_fin; assumption. }
  unfold Estep, Estep_after_likelihood, computeIntegrals.
  rewrite (proj2 (all2_true D K _)).
  2:{ intros d k Hd Hk. destruct (Hsig d k Hd Hk) as [-> Hs].
      unfold fgtb. simpl. apply Rltb_true, Hs. }
  cbn [negb].
  replace (fgtb (Fin l) (Fin 0)) with true by (symmetry; apply Rltb_true, Hl).
  cbn [py_assert bind].
  rewrite (proj2 (checkNoNans_ok _)).
  2:{ repeat constructor; apply all_finite_flat2_intro; intros d k Hd Hk;
      destruct (Hat d k Hd Hk) as (ex & ex2 & E); rewrite E; cbn [fst snd]; eauto. }
  cbn [bind].
  match goal with
  | |- context [computeLLFromW N K ?W] => set (W0 := W)
  end.
  assert (Hfin : all_finite (flat2 N K W0)).
  { apply all_finite_flat2_intro. intros i k Hi Hk. eexists. unfold W0.
    apply (computePosterior_finite_entry N D K Ym mum sm wm _ Y mu sigma w l
             (fun d k => E1_r (mu d k) (sigma d k) l)).
    - exact Hl.
    - intros d Hd. apply HY; assumption.
    - intros d Hd. apply Hmu; assumption.
    - intros d Hd. apply Hsig; assumption.
    - intros d Hd. destruct (Hat d k Hd Hk) as (ex & ex2 & E).
      rewrite E. cbn [fst]. split; [reflexivity|].
      apply E1_r_bounds; auto. apply Hsig; assumption.
    - apply Hw, Hk.
    - apply Hw, Hk. }
  rewrite (computeLLFromW_finite N K W0 HK Hfin). cbn [bind isinf negb py_assert].
  destruct (normalize_finite_matrix N K W0 HK Hfin) as (W & E & _ & Hchk).
  rewrite E. cbn [bind]. rewrite Hchk. cbn [bind].
  do 5 eexists. split; [reflexivity|].
  intros d k Hd Hk. destruct (Hat d k Hd Hk) as (ex & ex2 & E').
  rewrite E'. cbn [fst snd]. eauto.
Qed.

(** On valid parameters computeIntegrals returns arrays that pass the
    finiteness check. *)
Lemma computeIntegrals_valid_checked (D K : nat) (mum sm : matrix)
  (mu sigma : nat -> nat -> R) (l : R) :
  (forall x, -1 < erf x < 1) ->
  0 < l ->
  (forall d k, (d < D)%nat -> (k < K)%nat -> mum d k = Fin (mu d k)) ->
  (forall d k, (d < D)%nat -> (k < K)%nat ->
               sm d k = Fin (sigma d k) /\ 0 < sigma d k) ->
  exists E1 EX EX2,
    computeIntegrals D K mum sm (Fin l) = OK (E1, EX, EX2)
    /\ checkNoNans [flat2 D K E1; flat2 D K EX; flat2 D K EX2] = OK tt.
Proof.
  intros Herf Hl Hmu Hsig.
  assert (Hat : forall d k, (d < D)%nat -> (k < K)%nat ->
             exists ex ex2,
               integrals_at (mum d k) (sm d k) (Fin l)
               = (Fin (E1_r (mu d k) (sigma d k) l), Fin ex, Fin ex2)).
  { intros d k Hd Hk. rewrite (Hmu d k Hd Hk).
    destruct (Hsig d k Hd Hk) as [-> Hs].
    apply integrals_at_fin; assumption. }
  unfold computeIntegrals.
  rewrite (proj2 (all2_true D K _)).
  2:{ intros d k Hd Hk. destruct (Hsig d k Hd Hk) as [-> Hs].
      unfold fgtb. simpl. apply Rltb_true, Hs. }
  cbn [negb].
  replace (fgtb (Fin l) (Fin 0)) with true by (symmetry; apply Rltb_true, Hl).
  cbn [py_assert bind].
  do 3 eexists. split; [reflexivity|].
  apply checkNoNans_ok.
  repeat constructor; apply all_finite_flat2_intro; intros d k Hd Hk;
    destruct (Hat d k Hd Hk) as (ex & ex2 & E); rewrite E; cbn [fst snd]; eauto.
Qed.

Lemma fadd_fin (a b : R) : (Fin a + Fin b)%npf = Fin (a + b).
Proof. reflexivity. Qed.

Lemma fsub_fin (a b : R) : (Fin a - Fin b)%npf = Fin (a - b).
Proof. reflexivity. Qed.

Lemma fmul_fin (a b : R) : (Fin a * Fin b)%npf = Fin (a * b).
Proof. reflexivity. Qed.

Lemma fneg_fin (a : R) : (- Fin a)%npf = Fin (- a).
Proof. reflexivity. Qed.

Lemma fsqr_fin (a : R) : fsqr (Fin a) = Fin (a * a).
Proof. reflexivity. Qed.

(* ================================================================= *)
(** * Further properties of the code *)

(** ** exp_decay *)

Lemma fsqr_fneg (x : npfloat) : fsqr (- x)%npf = fsqr x.
Proof.
  destruct x as [r| | |]; try reflexivity.
  unfold fsqr. cbn [fneg fmul]. f_equal. ring.
Qed.


(** ** checkNoNans: which index is reported *)

Lemma checkNoNans_from_first (Ms : list (list npfloat)) :
  forall s j,
    checkNoNans_from s Ms = Raise (NanOrInfError j) <->
    exists n, j = (s + n)%nat /\ (n < length Ms)%nat
              /\ ~ all_finite (nth n Ms [])
              /\ forall i, (i < n)%nat -> all_finite (nth i Ms []).
Proof.
  induction Ms as [|M rest IH]; intros s j; simpl.
  - split; [discriminate|]. intros (n & _ & Hn & _). lia.
  - destruct (existsb isnan M || existsb isinf M) eqn:E.
    + assert (HM : ~ all_finite M).
      { intros H. apply no_nan_inf_finite in H. congruence. }
      split.
      * intros [= <-]. exists 0%nat. repeat split; [lia|lia|exact HM|].
        intros i Hi. lia.
      * intros (n & -> & _ & _ & Hbefore). destruct n as [|n].
        -- do 2 f_equal. lia.
        -- exfalso. apply HM. apply (Hbefore 0%nat). lia.
    + apply no_nan_inf_finite in E. rewrite IH. split.
      * intros (n & -> & Hn & Hbad & Hbefore). exists (S n).
        repeat split; [lia|lia|exact Hbad|].
        intros i Hi. destruct i as [|i]; [exact E|]. apply Hbefore. lia.
      * intros (n & -> & Hn & Hbad & Hbefore). destruct n as [|n].
        -- contradiction.
        -- exists n. repeat split; [lia|lia|exact Hbad|].
           intros i Hi. apply (Hbefore (S i)). lia.
Qed.

(** X2.  checkNoNans returns exactly when every array of the list holds
    only real numbers; otherwise it raises, and the index in the message is
    that of the first array of the list that holds a nan or an infinity. *)
Theorem checkNoNans_reports_first (Ms : list (list npfloat)) :
  (checkNoNans Ms = OK tt <-> Forall all_finite Ms)
  /\ (forall e, checkNoNans Ms = Raise e ->
        exists j, e = NanOrInfError j /\ (j < length Ms)%nat
                  /\ ~ all_finite (nth j Ms [])
                  /\ forall i, (i < j)%nat -> all_finite (nth i Ms []))
  /\ (forall j, (j < length Ms)%nat ->
        ~ all_finite (nth j Ms []) ->
        (forall i, (i < j)%nat -> all_finite (nth i Ms [])) ->
        checkNoNans Ms = Raise (NanOrInfError j)).
Proof.
  split; [apply checkNoNans_ok|]. split.
  - intros e H. destruct (checkNoNans_from_raises 0 Ms e H) as [j ->].
    apply checkNoNans_from_first in H. destruct H as (n & -> & H).
    exists n. split; [reflexivity|exact H].
  - intros j Hj Hbad Hbefore. apply checkNoNans_from_first.
    exists j. repeat split; auto.
Qed.

(** ** argmax and the decoding of the assignments *)

Lemma argmax_from_bound (l : list npfloat) :
  forall i best bi,
    argmax_from l i best bi = bi
    \/ (i <= argmax_from l i best bi < i + length l)%nat.
Proof.
  induction l as [|x t IH]; intros i best bi; simpl; [left; reflexivity|].
  destruct (isnan best); [left; reflexivity|].
  destruct (isnan x || fltb best x).
  - destruct (IH (S i) x i) as [-> | H]; right; lia.
  - destruct (IH (S i) best bi) as [-> | H]; [left; reflexivity|right; lia].
Qed.

(** On a row of real numbers: the index of the first largest entry. *)
Lemma argmax_from_fin (lr : list R) :
  forall i best bi,
    (argmax_from (map Fin lr) i (Fin best) bi = bi
     /\ forall x, In x lr -> x <= best)
    \/ (exists m, argmax_from (map Fin lr) i (Fin best) bi = (i + m)%nat
                  /\ (m < length lr)%nat
                  /\ best < nth m lr 0
                  /\ (forall x, In x lr -> x <= nth m lr 0)
                  /\ (forall m', (m' < m)%nat -> nth m' lr 0 < nth m lr 0)).
Proof.
  induction lr as [|x t IH]; intros i best bi; simpl.
  - left. split; [reflexivity|]. intros x [].
  - unfold Rltb. destruct (Rlt_dec best x) as [Hlt | Hge]; simpl.
    + right.
      destruct (IH (S i) x i)
        as [[E Hall] | (m & E & Hm & Hbest & Hall & Hfirst)].
      * exists 0%nat. rewrite E.
        split; [lia|]. split; [lia|]. split; [exact Hlt|]. split.
        -- intros y [<- | Hy]; [lra|apply Hall, Hy].
        -- intros m' Hm'. lia.
      * exists (S m). rewrite E.
        split; [lia|]. split; [lia|]. split; [simpl; lra|]. split.
        -- intros y [<- | Hy]; simpl; [lra|apply Hall, Hy].
        -- intros m' Hm'. simpl. destruct m' as [|m']; [lra|].
           apply Hfirst. lia.
    + destruct (IH (S i) best bi)
        as [[E Hall] | (m & E & Hm & Hbest & Hall & Hfirst)].
      * left. split; [exact E|]. intros y [<- | Hy]; [lra|apply Hall, Hy].
      * right. exists (S m). rewrite E.
        split; [lia|]. split; [lia|]. split; [simpl; exact Hbest|]. split.
        -- intros y [<- | Hy]; simpl; [lra|apply Hall, Hy].
        -- intros m' Hm'. simpl. destruct m' as [|m']; [lra|].
           apply Hfirst. lia.
Qed.

Lemma argmax_fin (lr : list R) (j : nat) :
  argmax (map Fin lr) = OK j ->
  (j < length lr)%nat
  /\ (forall x, In x lr -> x <= nth j lr 0)
  /\ (forall m, (m < j)%nat -> nth m lr 0 < nth j lr 0).
Proof.
  destruct lr as [|x t]; simpl; [discriminate|]. intros [= <-].
  destruct (argmax_from_fin t 1 x 0)
    as [[E Hall] | (m & E & Hm & Hbest & Hall & Hfirst)]; rewrite E.
  - split; [lia|]. split.
    + intros y [<- | Hy]; [lra|apply Hall, Hy].
    + intros m Hm. lia.
  - change (1 + m)%nat with (S m). split; [lia|]. split.
    + intros y [<- | Hy]; [lra|apply Hall, Hy].
    + intros m' Hm'. destruct m' as [|m']; [exact Hbest|]. apply Hfirst. lia.
Qed.

Lemma argmax_bound (l : list npfloat) (j : nat) :
  argmax l = OK j -> (j < length l)%nat.
Proof.
  destruct l as [|x t]; simpl; [discriminate|]. intros [= <-].
  destruct (argmax_from_bound t 1 x 0) as [-> | H]; lia.
Qed.

Lemma decode_rows_spec (K : nat) (W : matrix) (rows : list nat) :
  forall zhat,
    decode_rows K W rows = OK zhat ->
    length zhat = length rows
    /\ forall n, (n < length rows)%nat ->
         argmax (row K W (nth n rows 0%nat)) = OK (nth n zhat 0%nat).
Proof.
  induction rows as [|i t IH]; intros zhat H; simpl in H.
  - injection H as <-. split; [reflexivity|]. intros n Hn. simpl in Hn. lia.
  - destruct (argmax (row K W i)) as [z|e] eqn:Ez; cbn [bind] in H; [|discriminate].
    destruct (decode_rows K W t) as [zs|e] eqn:Ezs; cbn [bind] in H; [|discriminate].
    injection H as <-. destruct (IH zs eq_refl) as [Hlen Hn].
    split; [simpl; lia|].
    intros n Hlt. destruct n as [|n]; simpl; [exact Ez|].
    apply Hn. simpl in Hlt. lia.
Qed.

Lemma row_length (K : nat) (W : matrix) (i : nat) : length (row K W i) = K.
Proof. unfold row, range. rewrite length_map, length_seq. reflexivity. Qed.

Lemma nth_range (N i : nat) : (i < N)%nat -> nth i (range N) 0%nat = i.
Proof. intros H. unfold range. rewrite seq_nth by exact H. reflexivity. Qed.

Lemma range_length (N : nat) : length (range N) = N.
Proof. apply length_seq. Qed.

(** X3.  The assignments decoded from an N x K matrix are N indices below
    K; where row i holds real numbers, its assignment is the index of the
    first largest entry of the row. *)
Theorem decode_first_largest (N K : nat) (W : matrix) (zhat : list nat) :
  decode N K W = OK zhat ->
  length zhat = N
  /\ forall i, (i < N)%nat ->
       (nth i zhat 0 < K)%nat
       /\ ((forall k, (k < K)%nat -> W i k = Fin (unlift2 W i k)) ->
           (forall k, (k < K)%nat ->
                      unlift2 W i k <= unlift2 W i (nth i zhat 0%nat))
           /\ (forall k, (k < nth i zhat 0)%nat ->
                         unlift2 W i k < unlift2 W i (nth i zhat 0%nat))).
Proof.
  unfold decode. intros H.
  destruct (decode_rows_spec K W (range N) zhat H) as [Hlen Hrows].
  rewrite range_length in Hlen, Hrows. split; [exact Hlen|].
  intros i Hi. specialize (Hrows i Hi). rewrite (nth_range N i Hi) in Hrows.
  split.
  - rewrite <- (row_length K W i). apply argmax_bound, Hrows.
  - intros Hfin. rewrite (row_fin K W (unlift2 W) i Hfin) in Hrows.
    destruct (argmax_fin _ _ Hrows) as (Hj & Hmax & Hfirst).
    unfold Rrow in *. rewrite length_map, range_length in Hj.
    assert (Hnth : forall k, (k < K)%nat ->
               nth k (map (unlift2 W i) (range K)) 0 = unlift2 W i k).
    { intros k Hk.
      rewrite (nth_indep _ 0 (unlift2 W i 0%nat))
        by (rewrite length_map, range_length; exact Hk).
      rewrite map_nth, nth_range by exact Hk. reflexivity. }
    rewrite (Hnth _ Hj) in Hmax, Hfirst. split.
    + intros k Hk. apply Hmax. apply in_map, in_range, Hk.
    + intros k Hk. rewrite <- (Hnth k) by lia. apply Hfirst, Hk.
Qed.

(** ** fitModel: what a fit that returns hands back *)

Section FitResults.

Variables N D K : nat.
Variable Y : matrix.
Variable max_iter : Z.
Variable ll_delta_thresh : npfloat.

Local Abbreviation iteration := (em_iteration N D K Y max_iter ll_delta_thresh).
Local Abbreviation loop := (em_loop N D K Y max_iter ll_delta_thresh).
Local Abbreviation reach := (reaches N D K Y max_iter ll_delta_thresh).
Local Abbreviation checks := (likelihood_checks ll_delta_thresh).
Local Abbreviation fit := (fitModel N D K Y max_iter ll_delta_thresh).

(** Every step of a fit that returns. *)
Lemma fitModel_done_steps (zhat : list nat) (params : model_params) :
  fit = Done (zhat, params) ->
  exists mus sigmas weights decay st W ll E1 EX EX2,
    initalizeParams N D Y K = OK (mus, sigmas, weights, decay)
    /\ checkNoNans [flat2 D K mus; flat2 D K sigmas; flat1 K weights; [decay]]
       = OK tt
    /\ loop (Z.to_nat max_iter) (init_state mus sigmas weights decay) = Done st
    /\ Estep N D K Y (st_mus st) (st_sigmas st) (st_weights st) (st_decay st)
       = OK (W, ll, E1, EX, EX2)
    /\ decode N K W = OK zhat
    /\ params = mk_model_params (st_mus st) (st_sigmas st) (st_weights st)
                  (st_decay st) (st_lls st).
Proof.
  unfold fitModel, fitModel_traced. intros H.
  destruct (initalizeParams N D Y K) as [[[[mus sigmas] weights] decay]|e];
    [|discriminate].
  destruct (checkNoNans _) as [[]|e] eqn:EC; [|discriminate].
  destruct (loop _ _) as [st|e|] eqn:EL; try discriminate.
  destruct (Estep N D K Y _ _ _ _) as [[[[[W ll] E1] EX] EX2]|e] eqn:EE;
    [|discriminate].
  destruct (decode N K W) as [z|e] eqn:ED; [|discriminate].
  injection H as <- <-.
  exists mus, sigmas, weights, decay, st, W, ll, E1, EX, EX2.
  repeat split; assumption.
Qed.

(** X4.  A fit that returns hands back N assignments, each below K, and
    they are decoded from the responsibilities of the returned parameters:
    the E-step on the returned parameters gives a row-stochastic matrix, and
    the assignment of sample i is the index of the first largest entry of
    its row. *)
Theorem fitModel_assignments (zhat : list nat) (params : model_params) :
  fit = Done (zhat, params) ->
  length zhat = N
  /\ exists W ll E1 EX EX2,
       Estep N D K Y (cluster_mus params) (cluster_sigmas params)
         (cluster_weights params) (decay_coef params)
       = OK (W, ll, E1, EX, EX2)
       /\ row_stochastic N K W
       /\ forall i, (i < N)%nat ->
            (nth i zhat 0 < K)%nat
            /\ (forall k, (k < K)%nat ->
                          unlift2 W i k <= unlift2 W i (nth i zhat 0%nat))
            /\ (forall k, (k < nth i zhat 0)%nat ->
                          unlift2 W i k < unlift2 W i (nth i zhat 0%nat)).
Proof.
  intros H.
  destruct (fitModel_done_steps zhat params H)
    as (mus & sigmas & weights & decay & st & W & ll & E1 & EX & EX2
        & _ & _ & _ & HE & HD & ->).
  cbn [cluster_mus cluster_sigmas cluster_weights decay_coef].
  assert (Hrs := Estep_ok_row_stochastic _ _ _ _ _ _ _ _ _ _ _ _ _ HE).
  destruct (decode_rows_spec K W (range N) zhat HD) as [Hlen Hrows].
  rewrite range_length in Hlen, Hrows.
  split; [exact Hlen|].
  exists W, ll, E1, EX, EX2. split; [exact HE|]. split; [exact Hrs|].
  intros i Hi. specialize (Hrows i Hi). rewrite (nth_range N i Hi) in Hrows.
  assert (Hfin : forall k, (k < K)%nat -> W i k = Fin (unlift2 W i k)).
  { intros k Hk. destruct (Hrs i Hi) as [Hp _].
    destruct (Hp k Hk) as (p & Ep & _). unfold unlift2. rewrite Ep. reflexivity. }
  split.
  - rewrite <- (row_length K W i). apply argmax_bound, Hrows.
  - rewrite (row_fin K W (unlift2 W) i Hfin) in Hrows.
    destruct (argmax_fin _ _ Hrows) as (Hj & Hmax & Hfirst).
    unfold Rrow in *. rewrite length_map, range_length in Hj.
    assert (Hnth : forall k, (k < K)%nat ->
               nth k (map (unlift2 W i) (range K)) 0 = unlift2 W i k).
    { intros k Hk.
      rewrite (nth_indep _ 0 (unlift2 W i 0%nat))
        by (rewrite length_map, range_length; exact Hk).
      rewrite map_nth, nth_range by exact Hk. reflexivity. }
    rewrite (Hnth _ Hj) in Hmax, Hfirst. split.
    + intros k Hk. apply Hmax. apply in_map, in_range, Hk.
    + intros k Hk. rewrite <- (Hnth k) by lia. apply Hfirst, Hk.
Qed.

(** *** How the loop is left *)

Lemma reaches_front (st st1 st2 : em_state) :
  (st_n_iter st <? max_iter)%Z = true ->
  iteration st = OK (Next, st1) ->
  reach st1 st2 -> reach st st2.
Proof.
  intros Hlt Hit Hr. induction Hr as [|sa sb Hr IHr Hlt' Hit'].
  - econstructor; [constructor|exact Hlt|exact Hit].
  - econstructor; [exact IHr|exact Hlt'|exact Hit'].
Qed.

(** The loop ends at a head where the guard fails, or inside a pass that
    breaks. *)
Lemma em_loop_exit (fuel : nat) :
  forall st st',
    loop fuel st = Done st' ->
    exists st1,
      reach st st1
      /\ ((st' = st1 /\ (st_n_iter st1 <? max_iter)%Z = false)
          \/ ((st_n_iter st1 <? max_iter)%Z = true
              /\ iteration st1 = OK (Break, st'))).
Proof.
  induction fuel as [|fuel IH]; intros st st' H; simpl in H.
  - destruct (st_n_iter st <? max_iter)%Z eqn:Hlt; [discriminate|].
    injection H as <-. exists st. split; [constructor|left; auto].
  - destruct (st_n_iter st <? max_iter)%Z eqn:Hlt.
    + destruct (iteration st) as [[[] st1]|e] eqn:Hit; try discriminate.
      * destruct (IH st1 st' H) as (st2 & Hr & Hend).
        exists st2. split; [|exact Hend]. eapply reaches_front; eauto.
      * injection H as <-. exists st. split; [constructor|right; auto].
    + injection H as <-. exists st. split; [constructor|left; auto].
Qed.

Lemma reaches_counter_le (st0 st : em_state) :
  (st_n_iter st0 <= max_iter)%Z -> reach st0 st ->
  (st_n_iter st <= max_iter)%Z.
Proof.
  intros H0 Hr. induction Hr as [|st st' _ IH Hlt Hit]; [exact H0|].
  rewrite (em_iteration_next_counter _ _ _ _ _ _ st st' Hit).
  apply Z.ltb_lt in Hlt. lia.
Qed.

Lemma reaches_counter_ge (st0 st : em_state) :
  reach st0 st -> (st_n_iter st0 <= st_n_iter st)%Z.
Proof.
  intros Hr. induction Hr as [|st st' _ IH _ Hit]; [lia|].
  rewrite (em_iteration_next_counter _ _ _ _ _ _ st st' Hit). lia.
Qed.

Lemma reaches_last (st0 st : em_state) :
  reach st0 st ->
  st = st0
  \/ exists sa, reach st0 sa /\ (st_n_iter sa <? max_iter)%Z = true
                 /\ iteration sa = OK (Next, st).
Proof.
  intros Hr. inversion Hr as [|sa sb Hra Hlt Hit]; subst; [left; reflexivity|].
  right. exists sa. auto.
Qed.

(** A pass that breaks while the guard of the loop holds broke on
    convergence. *)
Lemma em_iteration_break (st st' : em_state) :
  (st_n_iter st <? max_iter)%Z = true ->
  iteration st = OK (Break, st') ->
  checks (st_lls st') = OK true.
Proof.
  intros Hlt H. unfold em_iteration in H.
  destruct (Estep N D K Y _ _ _ _) as [[[[[W ll] E1] EX] EX2]|e];
    cbn [bind] in H; [|discriminate].
  destruct (Mstep N D K Y W EX EX2 _ _ _ _) as [[[mus sigmas] weights] decay].
  destruct (checkNoNans _) as [[]|e]; cbn [bind] in H; [|discriminate].
  destruct (decode N K W) as [zhat|e]; cbn [bind] in H; [|discriminate].
  destruct (checks (st_lls st ++ [ll])) as [conv|e] eqn:EK;
    cbn [bind] in H; [|discriminate].
  destruct conv.
  - injection H as <-. exact EK.
  - apply Z.ltb_lt in Hlt.
    replace (st_n_iter st >=? max_iter)%Z with false in H
      by (symmetry; rewrite Z.geb_leb; apply Z.leb_gt; lia).
    discriminate.
Qed.

Lemma likelihood_checks_true (l : list npfloat) :
  checks l = OK true ->
  (2 <= length l)%nat
  /\ fltb (fabs (last1 l - last2 l)%npf) ll_delta_thresh = true.
Proof.
  unfold likelihood_checks. intros H.
  destruct (2 <=? length l)%nat eqn:E; [|discriminate].
  apply Nat.leb_le in E. split; [exact E|].
  destruct (fltb (last1 l) (last2 l)); [discriminate|].
  injection H as H. exact H.
Qed.

(** X5.  The test [n_iter >= max_iter] inside the loop never decides
    anything: a pass run by the loop leaves it only because the last two
    likelihoods differ by less than the threshold.  So a fit that returns
    either converged (at least two entries in the trace, the last two less
    than the threshold apart) or ran the loop max_iter times (the trace has
    max_iter entries, none if max_iter is negative). *)
Theorem fitModel_termination_reason :
  (forall st st',
      (st_n_iter st <? max_iter)%Z = true ->
      iteration st = OK (Break, st') ->
      (2 <= length (st_lls st'))%nat
      /\ fltb (fabs (last1 (st_lls st') - last2 (st_lls st'))%npf)
           ll_delta_thresh = true)
  /\ (forall zhat params,
         fit = Done (zhat, params) ->
         ((2 <= length (lls params))%nat
          /\ fltb (fabs (last1 (lls params) - last2 (lls params))%npf)
               ll_delta_thresh = true)
         \/ Z.of_nat (length (lls params)) = Z.max 0 max_iter).
Proof.
  split.
  - intros st st' Hlt H. apply likelihood_checks_true.
    apply (em_iteration_break st st' Hlt H).
  - intros zhat params H.
    destruct (fitModel_done_steps zhat params H)
      as (mus & sigmas & weights & decay & st & W & ll & E1 & EX & EX2
          & _ & _ & HL & _ & _ & ->).
    cbn [lls].
    destruct (em_loop_exit _ _ _ HL) as (st1 & Hr & [[-> Hge] | [Hlt Hbrk]]).
    + right.
      assert (Hinv := trace_inv_reaches _ _ _ _ _ _ _ _
                        (trace_inv_init mus sigmas weights decay) Hr).
      destruct Hinv as (Hn & _). apply Z.ltb_ge in Hge.
      destruct (Z_le_gt_dec 0 max_iter) as [Hpos | Hneg].
      * assert (Hle : (st_n_iter st1 <= max_iter)%Z).
        { apply (reaches_counter_le (init_state mus sigmas weights decay));
            [simpl; lia|exact Hr]. }
        lia.
      * destruct (reaches_last _ _ Hr) as [-> | (sa & Hra & Hlt' & _)].
        -- simpl. lia.
        -- assert (Hge0 := reaches_counter_ge _ _ Hra). simpl in Hge0.
           apply Z.ltb_lt in Hlt'. lia.
    + left. apply likelihood_checks_true.
      apply (em_iteration_break st1 st Hlt Hbrk).
Qed.

(** *** A fit without iterations, and a fit that fails at once *)

(** X6.  With a max_iter that is not positive the loop is not entered: a
    fit that returns hands back the initializer's parameters and an empty
    trace. *)
Theorem fitModel_no_iterations (zhat : list nat) (params : model_params) :
  (max_iter <= 0)%Z ->
  fit = Done (zhat, params) ->
  exists mus sigmas weights decay,
    initalizeParams N D Y K = OK (mus, sigmas, weights, decay)
    /\ params = mk_model_params mus sigmas weights decay [].
Proof.
  intros Hmax H.
  destruct (fitModel_done_steps zhat params H)
    as (mus & sigmas & weights & decay & st & W & ll & E1 & EX & EX2
        & Hinit & _ & HL & _ & _ & ->).
  exists mus, sigmas, weights, decay. split; [exact Hinit|].
  replace (Z.to_nat max_iter) with 0%nat in HL by lia. simpl in HL.
  replace (0 <? max_iter)%Z with false in HL by (symmetry; apply Z.ltb_ge; lia).
  injection HL as <-. reflexivity.
Qed.

Lemma Estep_sigma_error (mus sigmas : matrix) (weights : vector)
  (decay : npfloat) (d k : nat) :
  (d < D)%nat -> (k < K)%nat -> fgtb (sigmas d k) (Fin 0) = false ->
  Estep N D K Y mus sigmas weights decay
  = Raise (SigmaError
             (count2 D K (fun d k => fltb (sigmas d k) (Fin 0)))
             (count2 D K (fun d k => fltb (fabs (sigmas d k)) (Fin 1e-6)))).
Proof.
  intros Hd Hk Hbad. unfold Estep, Estep_after_likelihood, computeIntegrals.
  rewrite (all2_false D K _ d k Hd Hk Hbad). reflexivity.
Qed.

Lemma Estep_decay_error (mus sigmas : matrix) (weights : vector)
  (decay : npfloat) :
  (forall d k, (d < D)%nat -> (k < K)%nat -> fgtb (sigmas d k) (Fin 0) = true) ->
  fgtb decay (Fin 0) = false ->
  Estep N D K Y mus sigmas weights decay = Raise AssertionError.
Proof.
  intros Hsig Hdec. unfold Estep, computeIntegrals.
  rewrite (proj2 (all2_true D K _) Hsig). cbn [negb]. rewrite Hdec.
  reflexivity.
Qed.


(** *** The parameters a fit returns *)

Lemma Estep_ok_guards (mus sigmas : matrix) (weights : vector)
  (decay : npfloat) (W : matrix) (ll : npfloat) (E1 EX EX2 : matrix) :
  Estep N D K Y mus sigmas weights decay = OK (W, ll, E1, EX, EX2) ->
  (forall d k, (d < D)%nat -> (k < K)%nat -> fgtb (sigmas d k) (Fin 0) = true)
  /\ fgtb decay (Fin 0) = true.
Proof.
  unfold Estep, Estep_after_likelihood, computeIntegrals. intros H.
  destruct (all2 D K _) eqn:Ea; cbn [negb] in H; [|discriminate].
  destruct (fgtb decay (Fin 0)) eqn:Ed; [|discriminate].
  split; [|reflexivity]. apply all2_true, Ea.
Qed.

Lemma checked_params_finite (mus sigmas : matrix) (weights : vector)
  (decay : npfloat) (n : Z) (l : list npfloat) (c : list (list nat))
  (es : list (npfloat * npfloat)) (extra : list (list npfloat)) :
  checkNoNans (extra ++ [flat2 D K mus; flat2 D K sigmas; flat1 K weights;
                         [decay]]) = OK tt ->
  params_finite D K (mk_em_state mus sigmas weights decay n l c es).
Proof.
  intros H. apply checkNoNans_ok in H. apply Forall_app in H.
  destruct H as [_ H].
  inversion H as [|? ? Hm H1]; subst. inversion H1 as [|? ? Hs H2]; subst.
  inversion H2 as [|? ? Hw H3]; subst. inversion H3 as [|? ? Hd _]; subst.
  repeat split; try assumption. apply Hd. left. reflexivity.
Qed.

Lemma params_finite_iteration (st st' : em_state) (c : control) :
  iteration st = OK (c, st') -> params_finite D K st'.
Proof.
  intros H.
  destruct (em_iteration_inv _ _ _ _ _ _ st st' c H)
    as (W & ll & E1 & EX & EX2 & zhat & conv & _ & _ & _ & _ & -> & Hchk).
  cbv zeta in *.
  apply (checked_params_finite _ _ _ _ _ _ _ _
           [flat2 N K W; flat2 D K EX; flat2 D K EX2]).
  exact Hchk.
Qed.

Lemma fgtb_fin_pos (x : npfloat) :
  isfinite x = true -> fgtb x (Fin 0) = true ->
  exists r, x = Fin r /\ 0 < r.
Proof.
  destruct x as [r| | |]; try discriminate. intros _ H.
  exists r. split; [reflexivity|]. apply Rltb_true, H.
Qed.

(** X8.  The parameters of a fit that returns are usable: every mean,
    sigma and weight and the decay coefficient are real numbers, every sigma
    and the decay coefficient strictly positive, and every likelihood of the
    trace is a real number. *)
Theorem fitModel_returns_valid_parameters (zhat : list nat)
  (params : model_params) :
  fit = Done (zhat, params) ->
  (forall d k, (d < D)%nat -> (k < K)%nat ->
     exists m s, cluster_mus params d k = Fin m
                 /\ cluster_sigmas params d k = Fin s /\ 0 < s)
  /\ (forall k, (k < K)%nat -> exists w, cluster_weights params k = Fin w)
  /\ (exists l, decay_coef params = Fin l /\ 0 < l)
  /\ (forall x, In x (lls params) -> exists r, x = Fin r).
Proof.
  intros H.
  destruct (fitModel_done_steps zhat params H)
    as (mus & sigmas & weights & decay & st & W & ll & E1 & EX & EX2
        & _ & Hchk & HL & HE & _ & ->).
  cbn [cluster_mus cluster_sigmas cluster_weights decay_coef lls].
  destruct (Estep_ok_guards _ _ _ _ _ _ _ _ _ HE) as [Hsig Hdec].
  assert (Hfin : params_finite D K st /\ all_finite (st_lls st)).
  { destruct (em_loop_exit _ _ _ HL) as (st1 & Hr & Hend).
    assert (Hinv1 := trace_inv_reaches _ _ _ _ _ _ _ _
                       (trace_inv_init mus sigmas weights decay) Hr).
    assert (Hp1 : params_finite D K st1).
    { destruct (reaches_last _ _ Hr) as [-> | (sa & _ & _ & Hit)].
      - apply (checked_params_finite _ _ _ _ _ _ _ _ []). exact Hchk.
      - apply (params_finite_iteration sa st1 Next Hit). }
    destruct Hend as [[-> _] | [_ Hbrk]].
    - split; [exact Hp1|apply Hinv1].
    - split; [apply (params_finite_iteration st1 st Break Hbrk)|].
      apply (trace_inv_iteration _ _ _ _ _ _ st1 st Break Hinv1 Hbrk). }
  destruct Hfin as [(Hm & Hs & Hw & Hd) Hl].
  repeat split.
  - intros d k Hd' Hk.
    assert (Em := proj1 (all_finite_flat2 D K _) Hm d k Hd' Hk).
    assert (Es := proj1 (all_finite_flat2 D K _) Hs d k Hd' Hk).
    destruct (fgtb_fin_pos (st_sigmas st d k)) as (s & Es' & Hpos).
    + rewrite Es. reflexivity.
    + apply Hsig; assumption.
    + eauto.
  - intros k Hk. eexists. apply (proj1 (all_finite_flat1 K _) Hw k Hk).
  - apply fgtb_fin_pos; assumption.
  - intros x Hx. exists (to_R x). apply isfinite_fin, Hl, Hx.
Qed.

End FitResults.

(** ** computeLLFromW: bounds and edges *)

Lemma fold_Rmax_ge_init (l : list R) (x : R) : x <= fold_left Rmax l x.
Proof.
  revert x. induction l as [|y t IH]; intros x; simpl; [lra|].
  eapply Rle_trans; [apply (Rmax_l x y)|apply IH].
Qed.

Lemma fold_Rmax_upper (l : list R) (x : R) :
  forall w, In w l -> w <= fold_left Rmax l x.
Proof.
  revert x. induction l as [|y t IH]; intros x w; simpl; [intros []|].
  intros [<- | Hw].
  - eapply Rle_trans; [apply (Rmax_r x y)|apply fold_Rmax_ge_init].
  - apply IH, Hw.
Qed.

Lemma fold_Rmax_in (l : list R) (x : R) :
  fold_left Rmax l x = x \/ In (fold_left Rmax l x) l.
Proof.
  revert x. induction l as [|y t IH]; intros x; simpl; [left; reflexivity|].
  destruct (IH (Rmax x y)) as [E | Hin].
  - rewrite E. unfold Rmax. destruct (Rle_dec x y); auto.
  - right. right. exact Hin.
Qed.

Lemma Rmax_list_upper (r : list R) (w : R) : In w r -> w <= Rmax_list r.
Proof.
  destruct r as [|x t]; simpl; [intros []|]. intros [<- | Hw].
  - apply fold_Rmax_ge_init.
  - apply fold_Rmax_upper, Hw.
Qed.

Lemma Rmax_list_in (r : list R) : r <> [] -> In (Rmax_list r) r.
Proof.
  destruct r as [|x t]; [congruence|]. intros _. simpl.
  destruct (fold_Rmax_in t x) as [E | Hin]; [left; auto|right; exact Hin].
Qed.

Lemma Rsum_le_length (l : list R) :
  (forall x, In x l -> x <= 1) -> Rsum l <= INR (length l).
Proof.
  induction l as [|x t IH]; intros H.
  - simpl. lra.
  - change (Rsum (x :: t)) with (x + Rsum t).
    change (length (x :: t)) with (S (length t)). rewrite S_INR.
    assert (x <= 1) by (apply H; left; reflexivity).
    assert (Rsum t <= INR (length t)) by (apply IH; intros; apply H; right; assumption).
    lra.
Qed.

Lemma Rsum_ge_member (l : list R) (y : R) :
  (forall x, In x l -> 0 <= x) -> In y l -> y <= Rsum l.
Proof.
  induction l as [|x t IH]; intros Hpos Hy; [destruct Hy|].
  change (Rsum (x :: t)) with (x + Rsum t).
  assert (Ht : 0 <= Rsum t).
  { clear - Hpos. induction t as [|z t IHt]; simpl; [lra|].
    assert (0 <= z) by (apply Hpos; right; left; reflexivity).
    assert (0 <= Rsum t).
    { apply IHt. intros w [<- | Hw]; apply Hpos; [left|right; right]; auto. }
    unfold Rsum in *. lra. }
  destruct Hy as [<- | Hy].
  - lra.
  - assert (0 <= x) by (apply Hpos; left; reflexivity).
    assert (y <= Rsum t) by (apply IH; [intros; apply Hpos; right; assumption|exact Hy]).
    lra.
Qed.

(** The stabilised log-sum-exp of a row lies between its maximum and its
    maximum plus the log of its length. *)
Lemma lse_stable_bounds (r : list R) :
  r <> [] ->
  Rmax_list r <= lse_stable r <= Rmax_list r + ln (INR (length r)).
Proof.
  intros Hne. unfold lse_stable. set (m := Rmax_list r).
  set (S := Rsum (map (fun w => exp (w - m)) r)).
  assert (Hlo : 1 <= S).
  { unfold S. rewrite <- exp_0. apply Rsum_ge_member.
    - intros x Hx. apply in_map_iff in Hx. destruct Hx as (w & <- & _).
      left. apply exp_pos.
    - apply in_map_iff. exists m. split; [f_equal; lra|].
      apply Rmax_list_in, Hne. }
  assert (Hhi : S <= INR (length r)).
  { unfold S. rewrite <- (length_map (fun w => exp (w - m)) r).
    apply Rsum_le_length. intros x Hx. apply in_map_iff in Hx.
    destruct Hx as (w & <- & Hw). rewrite <- exp_0.
    assert (Hle : w - m <= 0) by (assert (H := Rmax_list_upper r w Hw); fold m in H; lra).
    destruct Hle as [Hlt | Heq].
    - left. apply exp_increasing, Hlt.
    - right. rewrite Heq. reflexivity. }
  assert (H0 : 0 <= ln S).
  { rewrite <- ln_1. destruct Hlo as [Hlt | Heq].
    - left. apply ln_increasing; lra.
    - right. rewrite Heq. reflexivity. }
  assert (H1 : ln S <= ln (INR (length r))).
  { destruct Hhi as [Hlt | Heq].
    - left. apply ln_increasing; lra.
    - right. rewrite Heq. reflexivity. }
  lra.
Qed.

Lemma Rsum_map_le (f g : nat -> R) (l : list nat) :
  (forall i, In i l -> f i <= g i) ->
  Rsum (map f l) <= Rsum (map g l).
Proof.
  induction l as [|x t IH]; intros H; simpl; [lra|].
  assert (f x <= g x) by (apply H; left; reflexivity).
  assert (Rsum (map f t) <= Rsum (map g t))
    by (apply IH; intros; apply H; right; assumption).
  unfold Rsum in *. lra.
Qed.

Lemma Rsum_const (c : R) (l : list nat) :
  Rsum (map (fun _ => c) l) = INR (length l) * c.
Proof.
  induction l as [|x t IH].
  - simpl. lra.
  - change (Rsum (map (fun _ => c) (x :: t))) with (c + Rsum (map (fun _ => c) t)).
    change (length (x :: t)) with (S (length t)). rewrite S_INR, IH. lra.
Qed.

Lemma Rrow_length (K : nat) (W : nat -> nat -> R) (i : nat) :
  length (Rrow K W i) = K.
Proof. unfold Rrow. rewrite length_map. apply range_length. Qed.


(** X10.  The edges of computeLLFromW: without rows it returns 0; with
    rows but no column Python's max raises on the empty row; and a matrix with
    an entry that is nan or infinite is refused by the check, with index 0. *)
Theorem computeLLFromW_edges :
  (forall K W, computeLLFromW 0 K W = OK (Fin 0))
  /\ (forall N W, (0 < N)%nat -> computeLLFromW N 0 W = Raise ValueError)
  /\ (forall N K W i k, (i < N)%nat -> (k < K)%nat ->
        isfinite (W i k) = false ->
        computeLLFromW N K W = Raise (NanOrInfError 0)).
Proof.
  repeat split.
  - intros N W HN. unfold computeLLFromW.
    replace (flat2 N 0 W) with (@nil npfloat).
    + cbn [checkNoNans checkNoNans_from existsb orb bind].
      destruct N as [|N']; [lia|]. reflexivity.
    + unfold flat2, row, range. simpl. induction (seq 0 N); auto.
  - intros N K W i k Hi Hk Hbad. unfold computeLLFromW.
    destruct (checkNoNans_cases [flat2 N K W]) as [[E Hfin] | (j & E & _)].
    + exfalso. inversion Hfin as [|? ? Hfin' _]; subst.
      rewrite (proj1 (all_finite_flat2 N K W) Hfin' i k Hi Hk) in Hbad.
      discriminate.
    + rewrite E. cbn [bind]. unfold checkNoNans in E. simpl in E.
      destruct (existsb isnan (flat2 N K W) || existsb isinf (flat2 N K W));
        [injection E as <-; reflexivity|discriminate].
Qed.

(** ** Estep: likelihood and responsibilities of the log-posterior *)

Lemma softmax_unshifted (r : list R) (x : R) :
  r <> [] -> softmax_r r x = exp x / Rsum (map exp r).
Proof.
  intros Hne. unfold softmax_r. set (m := Rmax_list r).
  assert (E : map (fun w => exp (w - m)) r
              = map (fun y => exp (- m) * y) (map exp r)).
  { rewrite map_map. apply map_ext. intros w.
    rewrite <- exp_plus. f_equal. lra. }
  rewrite E, Rsum_scale.
  assert (Hs : 0 < Rsum (map exp r)) by (apply (Rsum_exp_pos (fun w => w)), Hne).
  assert (Hm := exp_pos (- m)).
  replace (exp (x - m)) with (exp (- m) * exp x)
    by (rewrite <- exp_plus; f_equal; lra).
  field. split; lra.
Qed.

Lemma softmax_le_1 (r : list R) (x : R) : In x r -> softmax_r r x <= 1.
Proof.
  intros Hx. assert (Hne : r <> []) by (intros ->; destruct Hx).
  rewrite (softmax_unshifted r x Hne).
  assert (Hs : 0 < Rsum (map exp r)) by (apply (Rsum_exp_pos (fun w => w)), Hne).
  assert (Hle : exp x <= Rsum (map exp r)).
  { apply Rsum_ge_member.
    - intros y Hy. apply in_map_iff in Hy. destruct Hy as (w & <- & _).
      left. apply exp_pos.
    - apply in_map, Hx. }
  apply Rmult_le_reg_r with (Rsum (map exp r)); [exact Hs|].
  unfold Rdiv. rewrite Rmult_assoc, Rinv_l by lra. lra.
Qed.

(** What an E-step that returns hands back, in the arithmetic of this
    development: W0 being the unnormalized log-posterior matrix, the
    likelihood is the sum over the samples of
    log(sum over the clusters of exp(W0[i,k])), and the responsibilities are
    exp(W0[i,k]) / sum over k' of exp(W0[i,k']). *)
Lemma Estep_ok_closed_form (N D K : nat) (Y mus sigmas : matrix)
  (weights : vector) (decay : npfloat) (W : matrix) (ll : npfloat)
  (E1 EX EX2 : matrix) :
  Estep N D K Y mus sigmas weights decay = OK (W, ll, E1, EX, EX2) ->
  let W0 := unlift2 (computePosteriorLogZProbability N D K Y mus sigmas
                       weights decay E1) in
  computeIntegrals D K mus sigmas decay = OK (E1, EX, EX2)
  /\ ll = Fin (ll_naive N K W0)
  /\ forall i k, (i < N)%nat -> (k < K)%nat ->
       W i k = Fin (exp (W0 i k) / Rsum (map exp (Rrow K W0 i)))
       /\ 0 < exp (W0 i k) / Rsum (map exp (Rrow K W0 i)) <= 1.
Proof.
  unfold Estep, Estep_after_likelihood. intros H.
  destruct (computeIntegrals D K mus sigmas decay) as [[[E1' EX'] EX2']|e];
    cbn [bind] in H; [|discriminate].
  destruct (checkNoNans _) as [[]|e]; cbn [bind] in H; [|discriminate].
  destruct (computeLLFromW N K _) as [ll'|e] eqn:ELL; cbn [bind] in H; [|discriminate].
  destruct (py_assert _) as [[]|e]; cbn [bind] in H; [|discriminate].
  destruct (for_each _ _ _) as [W'|e] eqn:EN; cbn [bind] in H; [|discriminate].
  destruct (checkNoNans _) as [[]|e]; cbn [bind] in H; [|discriminate].
  injection H as <- <- <- <- <-. cbv zeta.
  set (Wm := computePosteriorLogZProbability N D K Y mus sigmas weights decay E1') in *.
  assert (Hfin := computeLLFromW_ok_input _ _ _ _ ELL).
  split; [reflexivity|].
  destruct (computeLLFromW_ok_shape _ _ _ _ ELL) as [-> | HK].
  - split.
    + cbn in ELL. injection ELL as <-. reflexivity.
    + intros i k Hi. lia.
  - split.
    + rewrite (computeLLFromW_finite N K Wm HK Hfin) in ELL.
      injection ELL as <-. f_equal. apply ll_stable_naive, HK.
    + destruct (normalize_rows_fin K (unlift2 Wm) (range N) HK (range_NoDup N) Wm)
        as (W1 & E & Hin & _).
      { intros i k Hi Hk.
        apply (proj1 (all_finite_flat2 N K Wm) Hfin); [apply in_range, Hi|exact Hk]. }
      rewrite E in EN. injection EN as <-.
      intros i k Hi Hk.
      assert (Hne := Rrow_nonempty K (unlift2 Wm) i HK).
      rewrite (Hin i k (proj2 (in_range N i) Hi) Hk).
      rewrite (softmax_unshifted _ _ Hne). split; [reflexivity|].
      rewrite <- (softmax_unshifted _ _ Hne). split.
      * unfold softmax_r. apply Rdiv_lt_0_compat;
          [apply exp_pos|apply softmax_denominator_pos, Hne].
      * apply softmax_le_1. unfold Rrow. apply in_map, in_range, Hk.
Qed.


(** ** Mstep: weights, means and sigmas *)

Lemma Rsum_swap (f : nat -> nat -> R) (l1 l2 : list nat) :
  Rsum (map (fun k => Rsum (map (fun i => f i k) l1)) l2)
  = Rsum (map (fun i => Rsum (map (fun k => f i k) l2)) l1).
Proof.
  induction l1 as [|a t IH].
  - cbn [map]. change (Rsum []) with 0. rewrite Rsum_const. simpl. lra.
  - cbn [map].
    change (Rsum (Rsum (map (fun k => f a k) l2)
                  :: map (fun i => Rsum (map (fun k => f i k) l2)) t))
      with (Rsum (map (fun k => f a k) l2)
            + Rsum (map (fun i => Rsum (map (fun k => f i k) l2)) t)).
    rewrite <- IH, <- Rsum_plus. f_equal.
Qed.

Lemma Rsum_nonneg (f : nat -> R) (l : list nat) :
  (forall i, In i l -> 0 <= f i) -> 0 <= Rsum (map f l).
Proof.
  intros H. replace 0 with (Rsum (map (fun _ : nat => 0) l))
    by (rewrite Rsum_const; lra).
  apply Rsum_map_le, H.
Qed.

Lemma Rsum_map_ext (f g : nat -> R) (l : list nat) :
  (forall i, In i l -> f i = g i) -> Rsum (map f l) = Rsum (map g l).
Proof. intros H. f_equal. apply map_ext_in, H. Qed.

Lemma row_stochastic_fin (N K : nat) (W : matrix) :
  row_stochastic N K W ->
  (forall i k, (i < N)%nat -> (k < K)%nat ->
               W i k = Fin (unlift2 W i k) /\ 0 <= unlift2 W i k)
  /\ (forall i, (i < N)%nat -> Rsum (map (unlift2 W i) (range K)) = 1).
Proof.
  intros Hrs.
  assert (Hent : forall i k, (i < N)%nat -> (k < K)%nat ->
             W i k = Fin (unlift2 W i k) /\ 0 <= unlift2 W i k).
  { intros i k Hi Hk. destruct (Hrs i Hi) as [Hp _].
    destruct (Hp k Hk) as (p & E & Hpos). unfold unlift2. rewrite E. auto. }
  split; [exact Hent|].
  intros i Hi. destruct (Hrs i Hi) as [_ Hs].
  rewrite (row_fin K W (unlift2 W) i) in Hs
    by (intros k Hk; apply Hent; assumption).
  rewrite fsum_fin in Hs. injection Hs as Hs. exact Hs.
Qed.

(** C6.  The matrix W an E-step returns is row-stochastic, whatever the
    data and the parameters: every entry is a real number between 0 and 1
    and each of the N rows sums to 1. *)
Theorem Estep_row_stochastic (N D K : nat) (Y mus sigmas : matrix)
  (weights : vector) (decay : npfloat) (W : matrix) (ll : npfloat)
  (E1 EX EX2 : matrix) :
  Estep N D K Y mus sigmas weights decay = OK (W, ll, E1, EX, EX2) ->
  row_stochastic N K W
  /\ forall i k, (i < N)%nat -> (k < K)%nat ->
       exists p, W i k = Fin p /\ 0 <= p <= 1.
Proof.
  intros H.
  assert (Hrs := Estep_ok_row_stochastic _ _ _ _ _ _ _ _ _ _ _ _ _ H).
  split; [exact Hrs|].
  destruct (row_stochastic_fin N K W Hrs) as [Hent Hrow].
  intros i k Hi Hk. exists (unlift2 W i k).
  destruct (Hent i k Hi Hk) as [E Hpos].
  split; [exact E|]. split; [exact Hpos|].
  rewrite <- (Hrow i Hi). apply Rsum_ge_member.
  - intros x Hx. apply in_map_iff in Hx. destruct Hx as (k' & <- & Hk').
    apply Hent; [exact Hi|apply in_range, Hk'].
  - apply in_map, in_range, Hk.
Qed.

(** X12.  From a row-stochastic responsibility matrix with at least one
    sample the M-step returns as weight of cluster k the mean over the
    samples of the responsibilities of k: the weights are non-negative real
    numbers and sum to 1. *)
Theorem Mstep_weights_normalized (N D K : nat) (Y W EX EX2 mus sigmas : matrix)
  (weights : vector) (decay : npfloat) :
  (0 < N)%nat ->
  row_stochastic N K W ->
  let new_weights :=
    snd (fst (Mstep N D K Y W EX EX2 mus sigmas weights decay)) in
  (forall k, (k < K)%nat ->
     new_weights k
     = Fin (Rsum (map (fun i => unlift2 W i k) (range N)) / INR N)
     /\ 0 <= Rsum (map (fun i => unlift2 W i k) (range N)) / INR N)
  /\ fsum (flat1 K new_weights) = Fin 1.
Proof.
  intros HN Hrs. cbv zeta.
  destruct (row_stochastic_fin N K W Hrs) as [Hent Hrow].
  assert (HNr : 0 < INR N) by (apply lt_0_INR, HN).
  set (col := fun k => Rsum (map (fun i => unlift2 W i k) (range N))).
  assert (Hcol : forall k, (k < K)%nat -> sum_axis0 N W k = Fin (col k)).
  { intros k Hk. unfold sum_axis0. apply fsum_map_fin.
    intros i Hi. apply Hent; [apply in_range, Hi|exact Hk]. }
  assert (Htot : fsum (flat1 K (sum_axis0 N W)) = Fin (INR N)).
  { unfold flat1. rewrite (fsum_map_fin _ col) by (intros k Hk; apply Hcol, in_range, Hk).
    f_equal. unfold col. rewrite (Rsum_swap (unlift2 W) (range N) (range K)).
    rewrite (Rsum_map_ext _ (fun _ => 1))
      by (intros i Hi; apply Hrow, in_range, Hi).
    rewrite Rsum_const, range_length. lra. }
  assert (Hw : forall k, (k < K)%nat ->
             snd (fst (Mstep N D K Y W EX EX2 mus sigmas weights decay)) k
             = Fin (col k / INR N)).
  { intros k Hk. unfold Mstep. cbn [fst snd].
    rewrite Htot, (Hcol k Hk). apply fdiv_fin. lra. }
  split.
  - intros k Hk. split; [apply Hw, Hk|].
    apply Rle_mult_inv_pos; [|exact HNr].
    apply Rsum_nonneg. intros i Hi. apply Hent; [apply in_range, Hi|exact Hk].
  - unfold flat1.
    rewrite (fsum_map_fin _ (fun k => col k / INR N))
      by (intros k Hk; apply Hw, in_range, Hk).
    f_equal.
    rewrite (Rsum_map_ext _ (fun k => / INR N * col k))
      by (intros; unfold Rdiv; ring).
    rewrite <- (map_map col (fun x => / INR N * x)), Rsum_scale.
    replace (Rsum (map col (range K))) with (INR N).
    + field. lra.
    + unfold col. rewrite (Rsum_swap (unlift2 W) (range N) (range K)).
      rewrite (Rsum_map_ext _ (fun _ => 1))
        by (intros i Hi; apply Hrow, in_range, Hi).
      rewrite Rsum_const, range_length. lra.
Qed.

Lemma fsum_map_to_R (f : nat -> npfloat) (l : list nat) :
  (forall i, In i l -> isfinite (f i) = true) ->
  fsum (map f l) = Fin (Rsum (map (fun i => to_R (f i)) l)).
Proof.
  intros H. apply fsum_map_fin. intros i Hi. apply isfinite_fin, H, Hi.
Qed.

Section UncensoredMstep.
Variables N D K : nat.
Variables Y W EX EX2 mus sigmas : matrix.
Variable weights : vector.
Variable decay : npfloat.
Variables y p : nat -> nat -> R.
Hypothesis HY : forall i d, (i < N)%nat -> (d < D)%nat ->
  Y i d = Fin (y i d) /\ censored (y i d) = false.
Hypothesis HW : forall i k, (i < N)%nat -> (k < K)%nat ->
  W i k = Fin (p i k) /\ 0 <= p i k.
Hypothesis HEX : forall d k, (d < D)%nat -> (k < K)%nat ->
  isfinite (EX d k) = true /\ isfinite (EX2 d k) = true.
Variables d k : nat.
Hypothesis Hd : (d < D)%nat.
Hypothesis Hk : (k < K)%nat.
Hypothesis Hcol : 0 < Rsum (map (fun i => p i k) (range N)).

Lemma Mstep_uncensored_mean :
  fst (fst (fst (Mstep N D K Y W EX EX2 mus sigmas weights decay))) d k
  = Fin (gmm_mean N y p d k).
Proof.
  unfold Mstep. cbn [fst snd].
  unfold dot, transpose, sum3_axis0, tile_rows, sum_axis0, tile_N1K, tile_1DK.
  cbv beta.
  destruct (HEX d k Hd Hk) as [Hex Hex2].
  apply isfinite_fin in Hex.
  rewrite (fsum_map_fin _ (fun i => (1 - 0) * y i d * p i k)).
  2:{ intros i Hi. apply in_range in Hi.
      destruct (HY i d Hi Hd) as [Ey Ec]. destruct (HW i k Hi Hk) as [Ew _].
      rewrite (is_zero_fin Y i d _ Ey), Ec, Ey, Ew. reflexivity. }
  rewrite (fsum_map_fin _ (fun i => 0 * p i k * to_R (EX d k))).
  2:{ intros i Hi. apply in_range in Hi.
      destruct (HY i d Hi Hd) as [Ey Ec]. destruct (HW i k Hi Hk) as [Ew _].
      rewrite (is_zero_fin Y i d _ Ey), Ec, Ew, Hex. reflexivity. }
  rewrite (fsum_map_fin _ (fun i => p i k)).
  2:{ intros i Hi. apply in_range in Hi. apply HW; assumption. }
  cbn [fadd]. rewrite fdiv_fin by lra. f_equal. unfold gmm_mean. f_equal.
  rewrite <- Rsum_plus. apply Rsum_map_ext. intros i _. ring.
Qed.

Lemma Mstep_uncensored_sigma :
  snd (fst (fst (Mstep N D K Y W EX EX2 mus sigmas weights decay))) d k
  = Fin (gmm_sigma N y p d k).
Proof.
  assert (Hmean := Mstep_uncensored_mean).
  unfold Mstep in *. cbn [fst snd] in *.
  unfold dot, transpose, sum3_axis0, tile_rows, sum_axis0, tile_N1K, tile_1DK,
    tile_ND1 in *.
  cbv beta in *.
  destruct (HEX d k Hd Hk) as [Hex Hex2].
  apply isfinite_fin in Hex. apply isfinite_fin in Hex2.
  remember (gmm_mean N y p d k) as m eqn:Em.
  rewrite (fsum_map_fin _ (fun i => (1 - 0) * p i k * ((y i d - m) * (y i d - m)))).
  2:{ intros i Hi. apply in_range in Hi.
      destruct (HY i d Hi Hd) as [Ey Ec]. destruct (HW i k Hi Hk) as [Ew _].
      rewrite Hmean.
      rewrite (is_zero_fin Y i d _ Ey), Ec, Ey, Ew. reflexivity. }
  rewrite (fsum_map_fin _ (fun i => 0 * p i k
                                    * (to_R (EX2 d k) - 2 * m * to_R (EX d k)
                                       + m * m))).
  2:{ intros i Hi. apply in_range in Hi.
      destruct (HY i d Hi Hd) as [Ey Ec]. destruct (HW i k Hi Hk) as [Ew _].
      rewrite Hmean.
      rewrite (is_zero_fin Y i d _ Ey), Ec, Ew, Hex, Hex2. reflexivity. }
  rewrite (fsum_map_fin _ (fun i => p i k)).
  2:{ intros i Hi. apply in_range in Hi. apply HW; assumption. }
  cbn [fadd].
  rewrite fdiv_fin by lra.
  set (S := Rsum (map (fun i => p i k) (range N))) in *.
  assert (Enum : Rsum (map (fun i => (1 - 0) * p i k * ((y i d - m) * (y i d - m)))
                         (range N))
                 + Rsum (map (fun i => 0 * p i k
                                       * (to_R (EX2 d k) - 2 * m * to_R (EX d k)
                                          + m * m)) (range N))
                 = Rsum (map (fun i => p i k * ((y i d - m) * (y i d - m)))
                           (range N))).
  { rewrite <- Rsum_plus. apply Rsum_map_ext. intros i _. ring. }
  rewrite Enum.
  rewrite fsqrt_fin.
  - unfold gmm_sigma. rewrite <- Em. reflexivity.
  - apply Rle_mult_inv_pos; [|exact Hcol].
    apply Rsum_nonneg. intros i Hi. apply in_range in Hi.
    destruct (HW i k Hi Hk) as [_ Hp].
    apply Rmult_le_pos; [exact Hp|]. apply Rle_0_sqr.
Qed.

(** X13.  When no entry of Y is censored the M-step is the M-step of a
    Gaussian mixture: with finite data, finite non-negative responsibilities
    of positive total for cluster k and finite EX and EX2, the new mean of
    dimension d under k is the responsibility-weighted mean of column d, and
    the new sigma the square root of the responsibility-weighted mean squared
    deviation from that mean. *)
Theorem Mstep_uncensored_is_gmm :
  fst (fst (fst (Mstep N D K Y W EX EX2 mus sigmas weights decay))) d k
  = Fin (gmm_mean N y p d k)
  /\ snd (fst (fst (Mstep N D K Y W EX EX2 mus sigmas weights decay))) d k
     = Fin (gmm_sigma N y p d k).
Proof. split; [apply Mstep_uncensored_mean|apply Mstep_uncensored_sigma]. Qed.

End UncensoredMstep.

(** ** computeIntegrals: the moments *)

Section Moments.

Variables mu s l : R.
Hypothesis s_pos : 0 < s.
Hypothesis l_pos : 0 < l.
Hypothesis erf_above : -1 < erf (b_r mu s l * sqrt (a_r s l)).

Lemma integrals_at_exact :
  integrals_at (Fin mu) (Fin s) (Fin l)
  = (Fin (E1_r mu s l), Fin (EX_r mu s l), Fin (EX2_r mu s l)).
Proof.
  assert (Ha := a_r_pos s l s_pos l_pos). assert (Hpi := PI_RGT_0).
  assert (Hss : 0 < s * s) by nra.
  assert (H2a : 0 < 2 * a_r s l * (s * s))
    by (apply Rmult_lt_0_compat; [apply Rmult_lt_0_compat|]; lra).
  assert (Hsa := sqrt_a_pos s l s_pos l_pos).
  assert (Hs2pi : 0 < sqrt (2 * PI)) by (apply sqrt_lt_R0; lra).
  assert (Hden : 0 < sqrt (2 * PI) * s) by (apply Rmult_lt_0_compat; lra).
  assert (HC := C_r_pos_at mu s l s_pos l_pos erf_above).
  assert (Hp := Rpower_pos (a_r s l) 1.5).
  unfold integrals_at. cbv zeta. cbn [fsqr fmul fadd fneg fsub fexp ferf].
  rewrite (fdiv_fin (1 + 2 * (s * s) * l)) by lra. fold (a_r s l).
  cbn [fsqr fmul fadd fneg fsub fexp ferf].
  rewrite (fdiv_fin mu) by lra. fold (b_r mu s l).
  rewrite (fdiv_fin (- (mu * mu))) by lra.
  cbn [fsqr fmul fadd fneg fsub fexp ferf]. fold (D_r mu s l).
  rewrite !fsqrt_fin by lra.
  rewrite fpow15_fin by lra.
  cbn [fsqr fmul fadd fneg fsub fexp ferf].
  rewrite (fdiv_fin _ (2 * sqrt (a_r s l))) by lra. fold (C_r mu s l).
  rewrite (fdiv_fin (C_r mu s l)) by lra. fold (E1_r mu s l).
  rewrite (fdiv_fin (D_r mu s l)) by lra.
  cbn [fsqr fmul fadd fneg fsub fexp ferf].
  rewrite !(fdiv_fin _ (2 * a_r s l)) by lra.
  rewrite !(fdiv_fin _ (4 * Rpower (a_r s l) 1.5)) by lra.
  cbn [fsqr fmul fadd fneg fsub fexp ferf].
  reflexivity.
Qed.

Lemma Rpower_15 (a : R) : 0 < a -> Rpower a 1.5 = a * sqrt a.
Proof.
  intros Ha. replace 1.5 with (1 + / 2) by lra.
  rewrite Rpower_plus, Rpower_1, Rpower_sqrt by exact Ha. reflexivity.
Qed.

Lemma EX_r_above_b : b_r mu s l < EX_r mu s l.
Proof.
  assert (Ha := a_r_pos s l s_pos l_pos).
  assert (HC := C_r_pos_at mu s l s_pos l_pos erf_above).
  assert (HD := D_r_pos mu s l).
  unfold EX_r.
  assert (0 < D_r mu s l / C_r mu s l
              * exp (- a_r s l * (b_r mu s l * b_r mu s l)) / (2 * a_r s l)).
  { apply Rdiv_lt_0_compat; [|lra].
    apply Rmult_lt_0_compat; [apply Rdiv_lt_0_compat; assumption|apply exp_pos]. }
  lra.
Qed.

Hypothesis erf_odd : forall x, erf (- x) = - erf x.

Lemma EX2_r_recursion :
  EX2_r mu s l = / (2 * a_r s l) + b_r mu s l * EX_r mu s l.
Proof.
  assert (Ha := a_r_pos s l s_pos l_pos). assert (Hpi := PI_RGT_0).
  assert (Hsa := sqrt_a_pos s l s_pos l_pos).
  assert (Hspi : 0 < sqrt PI) by (apply sqrt_lt_R0, Hpi).
  assert (HD := D_r_pos mu s l).
  assert (He := erf_above).
  unfold EX2_r, EX_r.
  replace (- b_r mu s l * sqrt (a_r s l)) with (- (b_r mu s l * sqrt (a_r s l)))
    by ring.
  rewrite erf_odd, Rpower_15 by exact Ha.
  unfold C_r.
  set (e := erf (b_r mu s l * sqrt (a_r s l))) in *.
  set (E := exp (- a_r s l * (b_r mu s l * b_r mu s l))).
  set (a := a_r s l) in *. set (b := b_r mu s l). set (Dv := D_r mu s l) in *.
  set (q := sqrt a) in *. set (r := sqrt PI) in *.
  assert (Hqq : q * q = a) by (apply sqrt_sqrt; lra).
  field_simplify_eq; [|repeat split; lra].
  rewrite <- Hqq. ring.
Qed.

Lemma EX2_r_parameters :
  EX2_r mu s l = (s * s + mu * EX_r mu s l) / (1 + 2 * (s * s) * l)
  /\ mu / (1 + 2 * (s * s) * l) < EX_r mu s l.
Proof.
  assert (Ht : 0 < 1 + 2 * (s * s) * l) by nra.
  assert (Eb : b_r mu s l = mu / (1 + 2 * (s * s) * l)).
  { unfold b_r. rewrite two_a_ss by assumption. reflexivity. }
  assert (Ea : / (2 * a_r s l) = s * s / (1 + 2 * (s * s) * l)).
  { unfold a_r. field. split; lra. }
  split.
  - rewrite EX2_r_recursion, Ea, Eb. field. lra.
  - rewrite <- Eb. apply EX_r_above_b.
Qed.

End Moments.

Lemma computeIntegrals_real_parameters (D K : nat) (mu sigma : nat -> nat -> R)
  (lambda : R) :
  (forall d k, (d < D)%nat -> (k < K)%nat -> 0 < sigma d k) ->
  0 < lambda ->
  computeIntegrals D K (lift2 mu) (lift2 sigma) (Fin lambda)
  = OK (fun d k => fst (fst (integrals_at (Fin (mu d k)) (Fin (sigma d k))
                                          (Fin lambda))),
        fun d k => snd (fst (integrals_at (Fin (mu d k)) (Fin (sigma d k))
                                          (Fin lambda))),
        fun d k => snd (integrals_at (Fin (mu d k)) (Fin (sigma d k))
                                     (Fin lambda))).
Proof.
  intros Hsigma Hlambda. unfold computeIntegrals.
  rewrite (proj2 (all2_true D K _)).
  2:{ intros d k Hd Hk. unfold lift2, fgtb. simpl.
      apply Rltb_true, Hsigma; assumption. }
  cbn [negb].
  replace (fgtb (Fin lambda) (Fin 0)) with true
    by (symmetry; apply Rltb_true, Hlambda).
  reflexivity.
Qed.


(** ** computeIntegrals: the normalization constant *)


(** ** A single cluster *)

Lemma row_stochastic_single (N : nat) (W : matrix) (i : nat) :
  row_stochastic N 1 W -> (i < N)%nat -> W i 0%nat = Fin 1.
Proof.
  intros Hrs Hi. destruct (Hrs i Hi) as [Hp Hs].
  destruct (Hp 0%nat Nat.lt_0_1) as (p & E & _).
  unfold row, range in Hs. cbn [seq map] in Hs. rewrite E in Hs.
  unfold fsum in Hs. cbn in Hs. injection Hs as Hs.
  rewrite E. f_equal. lra.
Qed.

Lemma decode_rows_single (W : matrix) (rows : list nat) :
  (forall i, In i rows -> W i 0%nat = Fin 1) ->
  decode_rows 1 W rows = OK (repeat 0%nat (length rows)).
Proof.
  induction rows as [|i t IH]; intros H; [reflexivity|].
  cbn [decode_rows length repeat]. rewrite IH by (intros j Hj; apply H; right; exact Hj).
  reflexivity.
Qed.

(** X16.  With a single cluster an E-step that returns gives every sample
    the responsibility 1, every sample is assigned to cluster 0, and the
    M-step on these responsibilities returns the weight 1 (given at least one
    sample). *)
Theorem single_cluster_is_trivial (N D : nat) (Y mus sigmas : matrix)
  (weights : vector) (decay : npfloat) (W : matrix) (ll : npfloat)
  (E1 EX EX2 : matrix) :
  Estep N D 1 Y mus sigmas weights decay = OK (W, ll, E1, EX, EX2) ->
  (forall i, (i < N)%nat -> W i 0%nat = Fin 1)
  /\ decode N 1 W = OK (repeat 0%nat N)
  /\ ((0 < N)%nat ->
      snd (fst (Mstep N D 1 Y W EX EX2 mus sigmas weights decay)) 0%nat = Fin 1).
Proof.
  intros H.
  assert (Hrs := Estep_ok_row_stochastic _ _ _ _ _ _ _ _ _ _ _ _ _ H).
  assert (HW : forall i, (i < N)%nat -> W i 0%nat = Fin 1)
    by (intros i Hi; apply (row_stochastic_single N W i Hrs Hi)).
  split; [exact HW|]. split.
  - unfold decode. rewrite decode_rows_single.
    + rewrite range_length. reflexivity.
    + intros i Hi. apply HW, in_range, Hi.
  - intros HN. unfold Mstep. cbn [fst snd].
    assert (Hcol : sum_axis0 N W 0%nat = Fin (INR N)).
    { unfold sum_axis0.
      rewrite (fsum_map_fin _ (fun _ => 1))
        by (intros i Hi; apply HW, in_range, Hi).
      rewrite Rsum_const, range_length. f_equal. lra. }
    unfold flat1, range. cbn [seq map]. rewrite Hcol.
    unfold fsum. cbn [fold_left]. rewrite fadd_fin.
    assert (HNr : 0 < INR N) by (apply lt_0_INR, HN).
    rewrite fdiv_fin by lra. f_equal. field. lra.
Qed.

(** ** A single sample *)

Lemma Estep_ok_integrals_finite (N D K : nat) (Y mus sigmas : matrix)
  (weights : vector) (decay : npfloat) (W : matrix) (ll : npfloat)
  (E1 EX EX2 : matrix) :
  Estep N D K Y mus sigmas weights decay = OK (W, ll, E1, EX, EX2) ->
  forall d k, (d < D)%nat -> (k < K)%nat ->
    exists e1 ex ex2, E1 d k = Fin e1 /\ EX d k = Fin ex /\ EX2 d k = Fin ex2.
Proof.
  unfold Estep, Estep_after_likelihood. intros H.
  destruct (computeIntegrals D K mus sigmas decay) as [[[E1' EX'] EX2']|e];
    cbn [bind] in H; [|discriminate].
  destruct (checkNoNans _) as [[]|e] eqn:EC; cbn [bind] in H; [|discriminate].
  destruct (computeLLFromW N K _) as [ll'|e]; cbn [bind] in H; [|discriminate].
  destruct (py_assert _) as [[]|e]; cbn [bind] in H; [|discriminate].
  destruct (for_each _ _ _) as [W'|e]; cbn [bind] in H; [|discriminate].
  destruct (checkNoNans [flat2 N K W']) as [[]|e]; cbn [bind] in H;
    [|discriminate].
  injection H as _ _ <- <- <-.
  apply checkNoNans_ok in EC.
  inversion EC as [|? ? H1 EC1]; subst. inversion EC1 as [|? ? H2 EC2]; subst.
  inversion EC2 as [|? ? H3 _]; subst.
  intros d k Hd Hk.
  exists (unlift2 E1' d k), (unlift2 EX' d k), (unlift2 EX2' d k).
  repeat split.
  - apply (proj1 (all_finite_flat2 D K E1') H1 d k Hd Hk).
  - apply (proj1 (all_finite_flat2 D K EX') H2 d k Hd Hk).
  - apply (proj1 (all_finite_flat2 D K EX2') H3 d k Hd Hk).
Qed.

Section SingleSample.

Variable D : nat.
Variables Y W EX EX2 mus sigmas : matrix.
Variable weights : vector.
Variable decay : npfloat.
Variable d : nat.
Variables y ex ex2 : R.
Hypothesis HY : Y 0%nat d = Fin y.
Hypothesis Hobs : censored y = false.
Hypothesis HW : W 0%nat 0%nat = Fin 1.
Hypothesis HEX : EX d 0%nat = Fin ex.
Hypothesis HEX2 : EX2 d 0%nat = Fin ex2.

Lemma Mstep_single_sample_mean :
  fst (fst (fst (Mstep 1 D 1 Y W EX EX2 mus sigmas weights decay))) d 0%nat
  = Fin y.
Proof.
  unfold Mstep. cbn [fst snd].
  unfold dot, transpose, sum3_axis0, tile_rows, sum_axis0, tile_N1K, tile_1DK,
    range, fsum.
  cbn [seq map fold_left].
  rewrite (is_zero_fin Y 0 d y HY), Hobs, HY, HW, HEX. cbn [b2f].
  rewrite !fsub_fin, !fmul_fin, !fadd_fin.
  rewrite fdiv_fin by lra. f_equal. field.
Qed.

Lemma Mstep_single_sample_sigma :
  snd (fst (fst (Mstep 1 D 1 Y W EX EX2 mus sigmas weights decay))) d 0%nat
  = Fin 0.
Proof.
  assert (Hmean := Mstep_single_sample_mean).
  unfold Mstep in *. cbn [fst snd] in *.
  unfold dot, transpose, sum3_axis0, tile_rows, sum_axis0, tile_N1K, tile_1DK,
    tile_ND1, range, fsum in *.
  cbn [seq map fold_left] in *.
  rewrite Hmean.
  rewrite (is_zero_fin Y 0 d y HY), Hobs, HY, HW, HEX, HEX2. cbn [b2f].
  rewrite !fsub_fin, !fsqr_fin, !fmul_fin, !fsub_fin, !fadd_fin, !fmul_fin,
    !fadd_fin.
  rewrite fdiv_fin by lra.
  match goal with |- fsqrt (Fin ?z) = _ => replace z with 0 by (field; lra) end.
  rewrite fsqrt_fin by lra. rewrite sqrt_0. reflexivity.
Qed.

End SingleSample.

(** X14.  One sample and one cluster degenerate: when the E-step returns,
    the M-step that follows returns, in every dimension where the sample is
    observed, the sample itself as mean and 0 as sigma; the check that
    follows lets the 0 through, and every later E-step on that sigma raises
    the exception of computeIntegrals on sigma. *)
Theorem Mstep_single_sample_degenerates (D : nat) (Y mus sigmas : matrix)
  (weights : vector) (decay : npfloat) (W : matrix) (ll : npfloat)
  (E1 EX EX2 : matrix) (d : nat) (y : R) :
  Estep 1 D 1 Y mus sigmas weights decay = OK (W, ll, E1, EX, EX2) ->
  (d < D)%nat -> Y 0%nat d = Fin y -> censored y = false ->
  let new_sigmas :=
    snd (fst (fst (Mstep 1 D 1 Y W EX EX2 mus sigmas weights decay))) in
  fst (fst (fst (Mstep 1 D 1 Y W EX EX2 mus sigmas weights decay))) d 0%nat
  = Fin y
  /\ new_sigmas d 0%nat = Fin 0
  /\ isfinite (new_sigmas d 0%nat) = true
  /\ forall N' Y' mus' weights' decay',
       exists n_negative n_zero,
         Estep N' D 1 Y' mus' new_sigmas weights' decay'
         = Raise (SigmaError n_negative n_zero).
Proof.
  intros H Hd HY Hobs new_sigmas.
  assert (Hrs := Estep_ok_row_stochastic _ _ _ _ _ _ _ _ _ _ _ _ _ H).
  assert (HW := row_stochastic_single 1 W 0 Hrs Nat.lt_0_1).
  destruct (Estep_ok_integrals_finite _ _ _ _ _ _ _ _ _ _ _ _ _ H d 0%nat Hd
              Nat.lt_0_1) as (e1 & ex & ex2 & _ & HEX & HEX2).
  assert (Hsig := Mstep_single_sample_sigma D Y W EX EX2 mus sigmas weights
                    decay d y ex ex2 HY Hobs HW HEX HEX2).
  fold new_sigmas in Hsig.
  split.
  { apply (Mstep_single_sample_mean D Y W EX EX2 mus sigmas weights decay d y
             ex HY Hobs HW HEX). }
  split; [exact Hsig|]. split; [rewrite Hsig; reflexivity|].
  intros N' Y' mus' weights' decay'. do 2 eexists.
  apply (Estep_sigma_error N' D 1 Y' mus' new_sigmas weights' decay' d 0%nat
           Hd Nat.lt_0_1).
  rewrite Hsig. unfold fgtb, fltb. apply Rltb_false. lra.
Qed.

(** ** decayCoefObjectiveFn: closed form and gradient *)

Lemma Rsum_app (l1 l2 : list R) : Rsum (l1 ++ l2) = Rsum l1 + Rsum l2.
Proof.
  induction l1 as [|a t IH]; simpl; [lra|].
  unfold Rsum in *. simpl. rewrite IH. lra.
Qed.

Lemma Rsum_flat_map (g : nat -> list R) (l : list nat) :
  Rsum (flat_map g l) = Rsum (map (fun i => Rsum (g i)) l).
Proof.
  induction l as [|a t IH]; [reflexivity|].
  cbn [flat_map map]. rewrite Rsum_app, IH. reflexivity.
Qed.

Lemma sum_all_fin (n c : nat) (M : matrix) (m : nat -> nat -> R) :
  (forall i j, (i < n)%nat -> (j < c)%nat -> M i j = Fin (m i j)) ->
  sum_all n c M
  = Fin (Rsum (map (fun i => Rsum (map (m i) (range c))) (range n))).
Proof.
  intros H. unfold sum_all, flat2.
  assert (E : forall l, (forall i, In i l -> (i < n)%nat) ->
            flat_map (row c M) l
            = map Fin (flat_map (fun i => map (m i) (range c)) l)).
  { induction l as [|a t IH]; intros Hl; [reflexivity|].
    cbn [flat_map]. rewrite map_app, IH by (intros i Hi; apply Hl; right; exact Hi).
    f_equal. unfold row. rewrite map_map. apply map_ext_in.
    intros j Hj. apply H; [apply Hl; left; reflexivity|apply in_range, Hj]. }
  rewrite E by (intros i Hi; apply in_range, Hi).
  rewrite fsum_fin, Rsum_flat_map. reflexivity.
Qed.

Lemma nan_to_num_fin (x : npfloat) : exists r, nan_to_num x = Fin r.
Proof. destruct x; simpl; eauto. Qed.

Lemma decay_exp_lt_1 (x y : R) :
  0 < x -> censored y = false -> 0 < exp (- x * (y * y)) < 1.
Proof.
  intros Hx Hy. assert (Hq := censored_false y Hy).
  split; [apply exp_pos|].
  rewrite <- exp_0. apply exp_increasing.
  assert (0 < x * (y * y)) by (apply Rmult_lt_0_compat; assumption). lra.
Qed.

(** The entries the two sums of decayCoefObjectiveFn run over. *)
Lemma decay_obj_entry (Y : matrix) (i d : nat) (x y : R) :
  0 < x -> Y i d = Fin y ->
  ((Fin 1 - b2f (is_zero Y i d))
   * nan_to_num (flog (Fin 1 - fexp (- Fin x * fsqr (Y i d)))))%npf
  = Fin (if censored y then 0 else decay_logp x y).
Proof.
  intros Hx E. rewrite (is_zero_fin Y i d y E), E.
  destruct (censored y) eqn:Hc.
  - destruct (nan_to_num_fin (flog (Fin 1 - fexp (- Fin x * fsqr (Fin y)))%npf))
      as (r & ->).
    simpl. f_equal. ring.
  - rewrite (decay_term_observed y x Hx Hc). simpl. f_equal. ring.
Qed.

Lemma decay_grad_entry (Y : matrix) (i d : nat) (x y : R) :
  0 < x -> Y i d = Fin y ->
  ((Fin 1 - b2f (is_zero Y i d)) * Y i d
   * nan_to_num (fexp (- Fin x * fsqr (Y i d))
                 / (Fin 1 - fexp (- Fin x * fsqr (Y i d)))))%npf
  = Fin (if censored y then 0 else y * decay_ratio x y).
Proof.
  intros Hx E. rewrite (is_zero_fin Y i d y E), E.
  destruct (censored y) eqn:Hc.
  - destruct (nan_to_num_fin
                (fexp (- Fin x * fsqr (Fin y))
                 / (Fin 1 - fexp (- Fin x * fsqr (Fin y))))%npf) as (r & ->).
    simpl. f_equal. ring.
  - destruct (decay_exp_lt_1 x y Hx Hc) as [H0 H1].
    cbn [fsqr fneg fmul fexp fsub fadd b2f].
    rewrite fdiv_fin by lra. cbn [nan_to_num fmul].
    f_equal. unfold decay_ratio. field. lra.
Qed.

Lemma decay_weighted_sum (N D K : nat) (W B : matrix) (p : nat -> nat -> R)
  (y : nat -> nat -> R) (g : R -> R) :
  (forall i k, (i < N)%nat -> (k < K)%nat -> W i k = Fin (p i k)) ->
  (forall i d, (i < N)%nat -> (d < D)%nat ->
     B i d = Fin (if censored (y i d) then 0 else g (y i d))) ->
  sum_all K D (dot N (transpose W) B) = Fin (observed_sum N D K y p g).
Proof.
  intros HW HB. unfold observed_sum.
  apply (sum_all_fin K D _
           (fun k d => Rsum (map (fun i =>
              p i k * (if censored (y i d) then 0 else g (y i d))) (range N)))).
  intros k d Hk Hd. unfold dot, transpose. apply fsum_map_fin.
  intros i Hi. apply in_range in Hi.
  rewrite (HW i k Hi Hk), (HB i d Hi Hd). reflexivity.
Qed.

Lemma decayCoefObjectiveFn_fin (N D K : nat) (Y W : matrix)
  (y p : nat -> nat -> R) (t x : R) :
  (forall i d, (i < N)%nat -> (d < D)%nat -> Y i d = Fin (y i d)) ->
  (forall i k, (i < N)%nat -> (k < K)%nat -> W i k = Fin (p i k)) ->
  0 < x ->
  decayCoefObjectiveFn N D K (Fin x) (Fin t) Y (is_zero Y) W
  = (Fin (decay_obj_r N D K y p t x), Fin (decay_grad_r N D K y p t x)).
Proof.
  intros HY HW Hx. unfold decayCoefObjectiveFn.
  rewrite (decay_weighted_sum N D K W _ p y (decay_logp x) HW)
    by (intros i d Hi Hd; apply decay_obj_entry; [exact Hx|apply HY; assumption]).
  rewrite (decay_weighted_sum N D K W _ p y (fun v => v * decay_ratio x v) HW)
    by (intros i d Hi Hd; apply decay_grad_entry; [exact Hx|apply HY; assumption]).
  reflexivity.
Qed.

Lemma derivable_pt_lim_eq (f : R -> R) (x l l' : R) :
  l = l' -> derivable_pt_lim f x l -> derivable_pt_lim f x l'.
Proof. intros <-. exact (fun H => H). Qed.

(** Differentiating the sums term by term. *)
Lemma derivable_pt_lim_Rsum (g : nat -> R -> R) (g' : nat -> R)
  (l : list nat) (x : R) :
  (forall j, In j l -> derivable_pt_lim (g j) x (g' j)) ->
  derivable_pt_lim (fun z => Rsum (map (fun j => g j z) l)) x
    (Rsum (map g' l)).
Proof.
  induction l as [|a t IH]; intros H.
  - exact (derivable_pt_lim_const 0 x).
  - exact (derivable_pt_lim_plus (g a) _ x _ _
             (H a (or_introl eq_refl))
             (IH (fun j Hj => H j (or_intror Hj)))).
Qed.

Lemma derivable_pt_lim_decay_logp (x y : R) :
  0 < x -> censored y = false ->
  derivable_pt_lim (fun z => decay_logp z y) x (y * y * decay_ratio x y).
Proof.
  intros Hx Hc. destruct (decay_exp_lt_1 x y Hx Hc) as [H0 H1].
  assert (Hin : derivable_pt_lim (fun z => - z * (y * y)) x (- (y * y))).
  { apply (derivable_pt_lim_ext (mult_real_fct (- (y * y)) id)).
    - intros z. unfold mult_real_fct, id. ring.
    - replace (- (y * y)) with (- (y * y) * 1) at 2 by ring.
      apply derivable_pt_lim_scal, derivable_pt_lim_id. }
  assert (He : derivable_pt_lim (fun z => exp (- z * (y * y))) x
                 (exp (- x * (y * y)) * - (y * y))).
  { exact (derivable_pt_lim_comp _ exp x _ _ Hin
             (derivable_pt_lim_exp (- x * (y * y)))). }
  assert (Hv : derivable_pt_lim (fun z => 1 - exp (- z * (y * y))) x
                 (0 - exp (- x * (y * y)) * - (y * y))).
  { exact (derivable_pt_lim_minus (fct_cte 1) _ x _ _
             (derivable_pt_lim_const 1 x) He). }
  assert (Hl : derivable_pt_lim (fun z => ln (1 - exp (- z * (y * y)))) x
                 (/ (1 - exp (- x * (y * y)))
                  * (0 - exp (- x * (y * y)) * - (y * y)))).
  { apply (derivable_pt_lim_comp _ ln x _ _ Hv).
    apply derivable_pt_lim_ln. lra. }
  unfold decay_logp, decay_ratio.
  replace (y * y * (exp (- x * (y * y)) / (1 - exp (- x * (y * y)))))
    with (/ (1 - exp (- x * (y * y))) * (0 - exp (- x * (y * y)) * - (y * y)))
    by (field; lra).
  exact Hl.
Qed.

Lemma derivable_pt_lim_observed_sum (N D K : nat) (y p : nat -> nat -> R)
  (g : R -> R -> R) (g' : R -> R) (x : R) :
  (forall v, censored v = false -> derivable_pt_lim (fun z => g z v) x (g' v)) ->
  derivable_pt_lim (fun z => observed_sum N D K y p (g z)) x
    (observed_sum N D K y p g').
Proof.
  intros H. unfold observed_sum.
  apply (derivable_pt_lim_Rsum
           (fun k z => Rsum (map (fun d => Rsum (map (fun i =>
              p i k * (if censored (y i d) then 0 else g z (y i d)))
              (range N))) (range D)))).
  intros k _.
  apply (derivable_pt_lim_Rsum
           (fun d z => Rsum (map (fun i =>
              p i k * (if censored (y i d) then 0 else g z (y i d)))
              (range N)))).
  intros d _.
  apply (derivable_pt_lim_Rsum
           (fun i z => p i k * (if censored (y i d) then 0 else g z (y i d)))).
  intros i _. destruct (censored (y i d)) eqn:Hc.
  - apply (derivable_pt_lim_eq _ _ 0); [ring|].
    exact (derivable_pt_lim_const (p i k * 0) x).
  - exact (derivable_pt_lim_scal (fun z => g z (y i d)) (p i k) x _
             (H (y i d) Hc)).
Qed.

Lemma derivable_pt_lim_decay_obj (N D K : nat) (y p : nat -> nat -> R)
  (t x : R) :
  0 < x ->
  derivable_pt_lim (decay_obj_r N D K y p t) x (decay_deriv_r N D K y p t x).
Proof.
  intros Hx. unfold decay_obj_r, decay_deriv_r.
  apply (derivable_pt_lim_opp
           (fun z => z * t + observed_sum N D K y p (decay_logp z))).
  apply (derivable_pt_lim_plus (fun z => z * t)
           (fun z => observed_sum N D K y p (decay_logp z))).
  - apply (derivable_pt_lim_ext (mult_real_fct t id)).
    + intros z. unfold mult_real_fct, id. ring.
    + replace t with (t * 1) at 2 by ring.
      apply derivable_pt_lim_scal, derivable_pt_lim_id.
  - apply (derivable_pt_lim_observed_sum N D K y p decay_logp).
    intros v Hv. apply derivable_pt_lim_decay_logp; assumption.
Qed.

(** The derivative of the objective the code computes. *)
Lemma decayCoefObjectiveFn_derivative (N D K : nat) (Y W : matrix)
  (y p : nat -> nat -> R) (t x : R) :
  (forall i d, (i < N)%nat -> (d < D)%nat -> Y i d = Fin (y i d)) ->
  (forall i k, (i < N)%nat -> (k < K)%nat -> W i k = Fin (p i k)) ->
  0 < x ->
  derivable_pt_lim
    (fun z => to_R (fst (decayCoefObjectiveFn N D K (Fin z) (Fin t) Y
                           (is_zero Y) W)))
    x (decay_deriv_r N D K y p t x).
Proof.
  intros HY HW Hx.
  apply (derivable_pt_lim_locally_ext (decay_obj_r N D K y p t) _ x 0 (x + 1)).
  - lra.
  - intros z [Hz _].
    rewrite (decayCoefObjectiveFn_fin N D K Y W y p t z HY HW Hz). reflexivity.
  - apply derivable_pt_lim_decay_obj, Hx.
Qed.

(** X17.  On real data and responsibilities and a positive coefficient x,
    decayCoefObjectiveFn returns as objective
    -(x * term_1 + sum of W[i,k] * log(1 - exp(-x * Y[i,d]^2))) and as
    gradient -(term_1 + sum of W[i,k] * Y[i,d] * r(i,d)), with
    r = exp(-x * Y^2) / (1 - exp(-x * Y^2)), both sums over the observed
    entries only: an entry below 1e-6 in absolute value contributes nothing,
    a zero entry included.  The derivative in x of the objective is
    -(term_1 + sum of W[i,k] * Y[i,d]^2 * r(i,d)): the returned gradient
    has Y where the derivative has Y^2. *)
Theorem decayCoefObjectiveFn_closed_form (N D K : nat) (Y W : matrix)
  (y p : nat -> nat -> R) (t x : R) :
  (forall i d, (i < N)%nat -> (d < D)%nat -> Y i d = Fin (y i d)) ->
  (forall i k, (i < N)%nat -> (k < K)%nat -> W i k = Fin (p i k)) ->
  0 < x ->
  decayCoefObjectiveFn N D K (Fin x) (Fin t) Y (is_zero Y) W
  = (Fin (decay_obj_r N D K y p t x), Fin (decay_grad_r N D K y p t x))
  /\ derivable_pt_lim
       (fun z => to_R (fst (decayCoefObjectiveFn N D K (Fin z) (Fin t) Y
                              (is_zero Y) W)))
       x (decay_deriv_r N D K y p t x).
Proof.
  intros HY HW Hx. split.
  - apply decayCoefObjectiveFn_fin; assumption.
  - apply decayCoefObjectiveFn_derivative; assumption.
Qed.

Lemma observed_sum_le (N D K : nat) (y p : nat -> nat -> R) (f g : R -> R) :
  (forall i k, (i < N)%nat -> (k < K)%nat -> 0 <= p i k) ->
  (forall i d, (i < N)%nat -> (d < D)%nat -> censored (y i d) = false ->
     f (y i d) <= g (y i d)) ->
  observed_sum N D K y p f <= observed_sum N D K y p g.
Proof.
  intros Hp Hfg. unfold observed_sum.
  apply Rsum_map_le. intros k Hk. apply Rsum_map_le. intros d Hd.
  apply Rsum_map_le. intros i Hi.
  apply in_range in Hk, Hd, Hi.
  apply Rmult_le_compat_l; [apply Hp; assumption|].
  destruct (censored (y i d)) eqn:Hc; [lra|apply Hfg; assumption].
Qed.

Lemma observed_sum_minus (N D K : nat) (y p : nat -> nat -> R) (f g : R -> R) :
  observed_sum N D K y p (fun v => f v - g v)
  = observed_sum N D K y p f - observed_sum N D K y p g.
Proof.
  unfold observed_sum.
  assert (Hm : forall (a b : nat -> R) (l : list nat),
            Rsum (map (fun j => a j - b j) l)
            = Rsum (map a l) - Rsum (map b l)).
  { intros a b l. induction l as [|j l IH]; [simpl; lra|].
    cbn [map]. unfold Rsum in *. cbn [fold_right]. rewrite IH. lra. }
  rewrite <- Hm. apply Rsum_map_ext. intros k _.
  rewrite <- Hm. apply Rsum_map_ext. intros d _.
  rewrite <- Hm. apply Rsum_map_ext. intros i _.
  destruct (censored (y i d)); ring.
Qed.

Lemma Rsum_map_ge_member (f : nat -> R) (l : list nat) (j : nat) :
  (forall i, In i l -> 0 <= f i) -> In j l -> f j <= Rsum (map f l).
Proof.
  intros Hpos Hj. apply Rsum_ge_member; [|apply in_map, Hj].
  intros v Hv. apply in_map_iff in Hv. destruct Hv as (i & <- & Hi).
  apply Hpos, Hi.
Qed.

Lemma observed_sum_pos (N D K : nat) (y p : nat -> nat -> R) (g : R -> R)
  (i d k : nat) :
  (forall i k, (i < N)%nat -> (k < K)%nat -> 0 <= p i k) ->
  (forall i d, (i < N)%nat -> (d < D)%nat -> censored (y i d) = false ->
     0 < g (y i d)) ->
  (i < N)%nat -> (d < D)%nat -> (k < K)%nat ->
  0 < p i k -> censored (y i d) = false ->
  0 < observed_sum N D K y p g.
Proof.
  intros Hp Hg Hi Hd Hk Hpos Hc.
  assert (Hterm : forall i' d' k', (i' < N)%nat -> (d' < D)%nat -> (k' < K)%nat ->
            0 <= p i' k' * (if censored (y i' d') then 0 else g (y i' d'))).
  { intros i' d' k' Hi' Hd' Hk'. apply Rmult_le_pos; [apply Hp; assumption|].
    destruct (censored (y i' d')) eqn:Hc'; [lra|].
    left. apply Hg; assumption. }
  assert (Hin : forall d' k', (d' < D)%nat -> (k' < K)%nat ->
            0 <= Rsum (map (fun i => p i k' * (if censored (y i d') then 0
                                                else g (y i d'))) (range N))).
  { intros d' k' Hd' Hk'. apply Rsum_nonneg. intros j Hj.
    apply Hterm; [apply in_range, Hj|assumption|assumption]. }
  assert (Hmid : forall k', (k' < K)%nat ->
            0 <= Rsum (map (fun d => Rsum (map (fun i =>
                   p i k' * (if censored (y i d) then 0 else g (y i d)))
                   (range N))) (range D))).
  { intros k' Hk'. apply Rsum_nonneg. intros j Hj.
    apply Hin; [apply in_range, Hj|exact Hk']. }
  set (term := fun k d i =>
         p i k * (if censored (y i d) then 0 else g (y i d))) in *.
  assert (H1 : term k d i <= Rsum (map (term k d) (range N))).
  { apply Rsum_map_ge_member; [|apply in_range, Hi].
    intros j Hj. apply Hterm; [apply in_range, Hj|assumption|assumption]. }
  assert (H2 : Rsum (map (term k d) (range N))
               <= Rsum (map (fun d => Rsum (map (term k d) (range N)))
                          (range D))).
  { apply (Rsum_map_ge_member (fun d => Rsum (map (term k d) (range N))));
      [|apply in_range, Hd].
    intros j Hj. apply Hin; [apply in_range, Hj|exact Hk]. }
  assert (H3 : Rsum (map (fun d => Rsum (map (term k d) (range N))) (range D))
               <= observed_sum N D K y p g).
  { apply (Rsum_map_ge_member
             (fun k => Rsum (map (fun d => Rsum (map (term k d) (range N)))
                               (range D))));
      [|apply in_range, Hk].
    intros j Hj. apply Hmid, in_range, Hj. }
  assert (H0 : 0 < term k d i).
  { unfold term. rewrite Hc.
    apply Rmult_lt_0_compat; [exact Hpos|apply Hg; assumption]. }
  lra.
Qed.

(** X18.  The gradient decayCoefObjectiveFn returns is not the derivative
    of the objective it returns when the responsibilities are non-negative,
    every observed entry of Y is above 1 and some observed entry has a
    positive responsibility: the derivative of the objective at x exists and
    is strictly below the returned gradient. *)
Theorem decayCoefObjectiveFn_gradient_mismatch (N D K : nat) (Y W : matrix)
  (y p : nat -> nat -> R) (t x : R) (i0 d0 k0 : nat) :
  (forall i d, (i < N)%nat -> (d < D)%nat -> Y i d = Fin (y i d)) ->
  (forall i k, (i < N)%nat -> (k < K)%nat -> W i k = Fin (p i k)) ->
  0 < x ->
  (forall i k, (i < N)%nat -> (k < K)%nat -> 0 <= p i k) ->
  (forall i d, (i < N)%nat -> (d < D)%nat -> censored (y i d) = false ->
     1 < y i d) ->
  (i0 < N)%nat -> (d0 < D)%nat -> (k0 < K)%nat ->
  0 < p i0 k0 -> censored (y i0 d0) = false ->
  let objective := fun z =>
    to_R (fst (decayCoefObjectiveFn N D K (Fin z) (Fin t) Y (is_zero Y) W)) in
  let gradient :=
    to_R (snd (decayCoefObjectiveFn N D K (Fin x) (Fin t) Y (is_zero Y) W)) in
  (exists dv, derivable_pt_lim objective x dv /\ dv < gradient)
  /\ ~ derivable_pt_lim objective x gradient.
Proof.
  intros HY HW Hx Hp Hy Hi Hd Hk Hpos Hc objective gradient.
  assert (Hder := decayCoefObjectiveFn_derivative N D K Y W y p t x HY HW Hx).
  assert (Hlt : decay_deriv_r N D K y p t x < gradient).
  { unfold gradient.
    rewrite (decayCoefObjectiveFn_fin N D K Y W y p t x HY HW Hx).
    cbn [snd to_R]. unfold decay_deriv_r, decay_grad_r.
    assert (Hgap : 0 < observed_sum N D K y p
                         (fun v => v * v * decay_ratio x v - v * decay_ratio x v)).
    { apply (observed_sum_pos N D K y p _ i0 d0 k0); try assumption.
      intros i d Hi' Hd' Hc'. cbv beta.
      assert (H1 := Hy i d Hi' Hd' Hc').
      destruct (decay_exp_lt_1 x (y i d) Hx Hc') as [H0 Hlt1].
      assert (Hr : 0 < decay_ratio x (y i d)).
      { unfold decay_ratio. apply Rdiv_lt_0_compat; lra. }
      replace (y i d * y i d * decay_ratio x (y i d)
               - y i d * decay_ratio x (y i d))
        with (y i d * (y i d - 1) * decay_ratio x (y i d)) by ring.
      apply Rmult_lt_0_compat; [apply Rmult_lt_0_compat; lra|exact Hr]. }
    rewrite (observed_sum_minus N D K y p
               (fun v => v * v * decay_ratio x v)
               (fun v => v * decay_ratio x v)) in Hgap.
    lra. }
  split.
  - exists (decay_deriv_r N D K y p t x). split; [exact Hder|exact Hlt].
  - intros Hg.
    assert (E := uniqueness_limite _ _ _ _ Hder Hg). lra.
Qed.

End ZIMM.

(* ================================================================= *)
(** * The small fit, run *)

Lemma sample_erf_range (x : R) : -1 < sample_erf x < 1.
Proof.
  unfold sample_erf.
  assert (H0 := Rabs_pos x). assert (H1 := Rle_abs x).
  assert (H2 := Rle_abs (- x)). rewrite Rabs_Ropp in H2.
  assert (Hd : 0 < 1 + Rabs x) by lra.
  split.
  - apply Rmult_lt_reg_r with (1 + Rabs x); [exact Hd|].
    unfold Rdiv. rewrite Rmult_assoc, Rinv_l by lra. lra.
  - apply Rmult_lt_reg_r with (1 + Rabs x); [exact Hd|].
    unfold Rdiv. rewrite Rmult_assoc, Rinv_l by lra. lra.
Qed.

Lemma sample_minimize_bounds (f : npfloat -> npfloat * npfloat) (x0 : npfloat)
  (lo : R) (hi gtol : npfloat) :
  fle (Fin lo) (sample_minimize f x0 (Fin lo, hi) gtol).
Proof.
  unfold sample_minimize, fle, fleb. cbn [fst].
  destruct x0 as [x| | |]; unfold fltb; apply negb_true_iff, Rltb_false;
    try lra. apply Rmax_l.
Qed.

Lemma censored_sample (i d : nat) : censored (sample_Yr i d) = false.
Proof.
  unfold censored, sample_Yr. apply Rltb_false.
  destruct (Nat.eqb i 0); rewrite Rabs_pos_eq; lra.
Qed.


Ltac fin_eval :=
  repeat first
    [ rewrite fadd_fin | rewrite fsub_fin | rewrite fmul_fin | rewrite fneg_fin
    | rewrite fsqr_fin | rewrite fdiv_fin by lra ].

Lemma sample_Mstep (W EX EX2 mus sigmas : matrix) (weights : vector)
  (ex ex2 : R) :
  W 0%nat 0%nat = Fin 1 -> W 1%nat 0%nat = Fin 1 ->
  EX 0%nat 0%nat = Fin ex -> EX2 0%nat 0%nat = Fin ex2 ->
  let m := Mstep sample_minimize 2 1 1 sample_Y W EX EX2 mus sigmas weights
             (Fin 1) in
  fst (fst (fst m)) 0%nat 0%nat = Fin 2
  /\ snd (fst (fst m)) 0%nat 0%nat = Fin 1
  /\ snd (fst m) 0%nat = Fin 1
  /\ snd m = Fin 1.
Proof.
  intros HW0 HW1 HEX HEX2. cbv zeta.
  unfold Mstep. cbn [fst snd].
  unfold sum_axis0, tile_rows, dot, sum3_axis0, transpose, tile_N1K, tile_1DK,
    tile_ND1, flat1, range.
  cbn [seq map]. unfold sample_Y. rewrite !is_zero_lift2, !censored_sample.
  unfold lift2, sample_Yr. cbn [Nat.eqb].
  rewrite HW0, HW1, HEX, HEX2.
  unfold fsum. cbn [fold_left b2f].
  repeat split.
  - fin_eval. f_equal. field.
  - fin_eval.
    match goal with |- fsqrt (Fin ?z) = _ => replace z with 1 by field end.
    rewrite fsqrt_fin by lra. rewrite sqrt_1. reflexivity.
  - fin_eval. f_equal. field.
  - unfold sample_minimize. cbn [fst]. rewrite Rmax_right by lra. reflexivity.
Qed.

Lemma single_column_row (W : matrix) (i : nat) (p : R) :
  W i 0%nat = Fin p -> fsum (row 1 W i) = Fin 1 -> W i 0%nat = Fin 1.
Proof.
  intros Hp Hs. unfold row, range, fsum in Hs. cbn [seq map fold_left] in Hs.
  rewrite Hp in *. rewrite fadd_fin in Hs. injection Hs as Hs. f_equal. lra.
Qed.

(** The E-step of the small fit on mean 2, sigma 1, weight 1, decay 1. *)
Lemma sample_Estep (mum sm : matrix) (wm : vector) :
  mum 0%nat 0%nat = Fin 2 -> sm 0%nat 0%nat = Fin 1 -> wm 0%nat = Fin 1 ->
  exists W ll E1 EX EX2 ex ex2,
    Estep sample_erf 2 1 1 sample_Y mum sm wm (Fin 1) = OK (W, ll, E1, EX, EX2)
    /\ W 0%nat 0%nat = Fin 1 /\ W 1%nat 0%nat = Fin 1
    /\ EX 0%nat 0%nat = Fin ex /\ EX2 0%nat 0%nat = Fin ex2.
Proof.
  intros Hmu Hs Hw.
  destruct (Estep_valid_ok sample_erf 2 1 1 sample_Y mum sm wm sample_Yr
              (fun _ _ => 2) (fun _ _ => 1) (fun _ => 1) 1 sample_erf_range)
    as (W & ll & E1 & EX & EX2 & E & Hex); try lia; try lra.
  - intros i d _ _. reflexivity.
  - intros d k Hd Hk. replace d with 0%nat by lia. replace k with 0%nat by lia.
    exact Hmu.
  - intros d k Hd Hk. replace d with 0%nat by lia. replace k with 0%nat by lia.
    split; [exact Hs|lra].
  - intros k Hk. replace k with 0%nat by lia. split; [exact Hw|lra].
  - destruct (Hex 0%nat 0%nat ltac:(lia) ltac:(lia)) as (ex & ex2 & HEX & HEX2).
    assert (Hrs := Estep_ok_row_stochastic _ _ _ _ _ _ _ _ _ _ _ _ _ _ E).
    exists W, ll, E1, EX, EX2, ex, ex2.
    split; [exact E|].
    destruct (Hrs 0%nat ltac:(lia)) as [Hp0 Hs0].
    destruct (Hrs 1%nat ltac:(lia)) as [Hp1 Hs1].
    destruct (Hp0 0%nat ltac:(lia)) as (p0 & E0 & _).
    destruct (Hp1 0%nat ltac:(lia)) as (p1 & E1' & _).
    repeat split; eauto using single_column_row.
Qed.

Lemma sample_initalizeParams (N D : nat) (Y : matrix) (K : nat) :
  initalizeParams sample_init N D Y K
  = OK (fun _ _ => Fin 2, fun _ _ => Fin 1, fun _ => Fin 1, Fin 1).
Proof.
  unfold initalizeParams, sample_init. cbn [bind].
  rewrite (proj2 (all2_true D K _)); [reflexivity|].
  intros d k _ _. apply Rltb_true. lra.
Qed.

Local Abbreviation sample_fit :=
  (fitModel_traced sample_erf sample_minimize sample_init 2 1 1 sample_Y 1
     (Fin 1e-2)).

(** The small fit returns: one pass through the loop, then the final
    E-step. *)
Lemma sample_fit_done :
  exists zhat params d1 ll1 d2 ll2,
    sample_fit = Done (zhat, params, [(d1, ll1); (d2, ll2)])
    /\ lls params = [ll1].
Proof.
  unfold fitModel_traced. rewrite sample_initalizeParams.
  rewrite (proj2 (checkNoNans_ok _)).
  2:{ repeat constructor; intros x Hx; unfold flat2, flat1, row, range in Hx;
      cbn in Hx; destruct Hx as [<- | []]; reflexivity. }
  change (Z.to_nat 1) with 1%nat. cbn [em_loop init_state st_n_iter].
  change (0 <? 1)%Z with true. cbv iota.
  unfold em_iteration at 1. unfold init_state.
  cbn [st_mus st_sigmas st_weights st_decay st_lls st_clusterings st_esteps
       st_n_iter].
  destruct (sample_Estep (fun _ _ => Fin 2) (fun _ _ => Fin 1) (fun _ => Fin 1)
              eq_refl eq_refl eq_refl)
    as (W & ll & E1 & EX & EX2 & ex & ex2 & E & HW0 & HW1 & HEX & HEX2).
  rewrite E. cbn [bind].
  destruct (sample_Mstep W EX EX2 (fun _ _ => Fin 2) (fun _ _ => Fin 1)
              (fun _ => Fin 1) ex ex2 HW0 HW1 HEX HEX2)
    as (Hm & Hs & Hw & Hd).
  destruct (Mstep sample_minimize 2 1 1 sample_Y W EX EX2 _ _ _ _)
    as [[[mus sigmas] weights] decay].
  cbn [fst snd] in Hm, Hs, Hw, Hd. subst decay.
  rewrite (proj2 (checkNoNans_ok _)).
  2:{ unfold flat2, flat1, row, range. cbn [seq flat_map map app].
      rewrite HW0, HW1, HEX, HEX2, Hm, Hs, Hw.
      repeat constructor; intros x Hx; cbn in Hx;
        repeat (destruct Hx as [<- | Hx]; [reflexivity|]); destruct Hx. }
  cbn [bind].
  edestruct Estep_ok_decode as [zhat Hz]; [exact E|]. rewrite Hz.
  cbn [bind app likelihood_checks length Nat.leb].
  change (0 >=? 1)%Z with false. cbv iota.
  cbn [em_loop st_n_iter]. change (0 + 1 <? 1)%Z with false. cbv iota.
  cbn [st_mus st_sigmas st_weights st_decay st_lls st_esteps].
  destruct (sample_Estep mus sigmas weights Hm Hs Hw)
    as (W' & ll' & E1' & EX' & EX2' & ex' & ex2' & E' & _).
  rewrite E'.
  edestruct Estep_ok_decode as [zhat' Hz']; [exact E'|]. rewrite Hz'.
  do 6 eexists. split; reflexivity.
Qed.

(** ** A censored sample under a cluster without censored mass *)

Lemma DBL_MAX_pos : 0 < DBL_MAX.
Proof.
  unfold DBL_MAX.
  assert (H52 : 1 <= 2 ^ 52).
  { apply pow_R1_Rle. lra. }
  assert (Hi : / 2 ^ 52 <= 1).
  { rewrite <- Rinv_1. apply Rinv_le_contravar; lra. }
  assert (Hp : 0 < 2 ^ 1023) by (apply pow_lt; lra).
  apply Rmult_lt_0_compat; lra.
Qed.

Lemma censored_0 : censored 0 = true.
Proof. unfold censored. apply Rltb_true. rewrite Rabs_R0. lra. Qed.

Lemma flog_0 : flog (Fin 0) = NInf.
Proof. simpl. rewrite Rsgn_zero. reflexivity. Qed.

Lemma one_mul_NInf : (Fin 1 * NInf)%npf = NInf.
Proof. simpl. rewrite Rsgn_pos by lra. reflexivity. Qed.

(** The code's entry at Y = 0, E1 = 0, weight 1, mean 0, sigma 1,
    lambda 1. *)
Lemma censored_zero_mass_code :
  computePosteriorLogZProbability 1 1 1 (fun _ _ => Fin 0) (fun _ _ => Fin 0)
    (fun _ _ => Fin 1) (fun _ => Fin 1) (Fin 1) (fun _ _ => Fin 0) 0%nat 0%nat
  = Fin (- DBL_MAX).
Proof.
  rewrite computePosterior_entry. unfold code_logpost_entry, range.
  cbn [seq map].
  rewrite !(is_zero_fin (fun _ _ => Fin 0) 0 0 0 eq_refl), censored_0.
  cbn [negb b2f]. rewrite flog_0, one_mul_NInf, nan_to_num_zero_mul.
  rewrite norm_term_fin by lra. rewrite quad_term_fin by lra.
  rewrite flog_fin by lra.
  unfold fsum. cbn [fold_left fadd fmul fneg nan_to_num].
  f_equal. rewrite ln_1. lra.
Qed.

(** The entry under the specification's substitution policy, there. *)
Lemma censored_zero_mass_spec :
  spec_logpost_entry 1 (fun _ _ => Fin 0) (fun _ _ => Fin 0)
    (fun _ _ => Fin 1) (fun _ => Fin 1) (Fin 1) (fun _ _ => Fin 0) 0%nat 0%nat
  = Fin 0.
Proof.
  unfold spec_logpost_entry, range. cbn [seq map].
  rewrite (is_zero_fin (fun _ _ => Fin 0) 0 0 0 eq_refl), censored_0.
  rewrite flog_0, flog_fin by lra.
  unfold fsum. cbn [fold_left zero_if_nonfinite isfinite fadd].
  f_equal. rewrite ln_1. lra.
Qed.


(** C4, counterexample.  In the small fit, which returns, two E-steps
    returned and the trace has one entry: the trace is not the list of the
    likelihoods of the E-steps that returned. *)
Lemma fitModel_trace_misses_an_estep :
  ~ (forall zhat params esteps,
        sample_fit = Done (zhat, params, esteps) ->
        lls params = map snd esteps).
Proof.
  intros H.
  destruct sample_fit_done as (zhat & params & d1 & ll1 & d2 & ll2 & E & Hl).
  specialize (H _ _ _ E). rewrite Hl in H. discriminate.
Qed.

(** ** A fit whose likelihood goes down while its M-step fails *)

Lemma decay_logp_increasing (l1 l2 y : R) :
  0 < l1 < l2 -> 0 < y * y -> decay_logp l1 y < decay_logp l2 y.
Proof.
  intros [H1 H12] Hy. unfold decay_logp.
  assert (Hlt : exp (- l2 * (y * y)) < exp (- l1 * (y * y)))
    by (apply exp_increasing; nra).
  assert (Hone : exp (- l1 * (y * y)) < 1)
    by (rewrite <- exp_0; apply exp_increasing; nra).
  apply ln_increasing; lra.
Qed.

Lemma sample_ll_decreases : sample_ll (/ 2) < sample_ll 1.
Proof.
  unfold sample_ll, logpost_r, range. cbn [seq map]. unfold Rsum.
  cbn [fold_right]. unfold logpost_term. rewrite !censored_sample.
  assert (H0 := decay_logp_increasing (/ 2) 1 (sample_Yr 0 0) ltac:(lra)
                  (censored_false _ (censored_sample 0 0))).
  assert (H1 := decay_logp_increasing (/ 2) 1 (sample_Yr 1 0) ltac:(lra)
                  (censored_false _ (censored_sample 1 0))).
  lra.
Qed.

(** The E-step of the small fit on mean 2, sigma 1, weight 1 and a decay
    coefficient [l]. *)
Lemma sample_Estep_at (l : R) (mum sm : matrix) (wm : vector) :
  0 < l ->
  mum 0%nat 0%nat = Fin 2 -> sm 0%nat 0%nat = Fin 1 -> wm 0%nat = Fin 1 ->
  exists W E1 EX EX2 ex ex2,
    Estep sample_erf 2 1 1 sample_Y mum sm wm (Fin l)
    = OK (W, Fin (sample_ll l), E1, EX, EX2)
    /\ W 0%nat 0%nat = Fin 1 /\ W 1%nat 0%nat = Fin 1
    /\ EX 0%nat 0%nat = Fin ex /\ EX2 0%nat 0%nat = Fin ex2.
Proof.
  intros Hl Hmu Hs Hw.
  assert (Hmu' : forall d k, (d < 1)%nat -> (k < 1)%nat -> mum d k = Fin 2).
  { intros d k Hd Hk. replace d with 0%nat by lia. replace k with 0%nat by lia.
    exact Hmu. }
  assert (Hs' : forall d k, (d < 1)%nat -> (k < 1)%nat ->
                  sm d k = Fin 1 /\ 0 < 1).
  { intros d k Hd Hk. replace d with 0%nat by lia. replace k with 0%nat by lia.
    split; [exact Hs|lra]. }
  assert (Hw' : forall k, (k < 1)%nat -> wm k = Fin 1 /\ 0 < 1).
  { intros k Hk. replace k with 0%nat by lia. split; [exact Hw|lra]. }
  destruct (Estep_valid_ok sample_erf 2 1 1 sample_Y mum sm wm sample_Yr
              (fun _ _ => 2) (fun _ _ => 1) (fun _ => 1) l sample_erf_range
              ltac:(lia) Hl ltac:(intros; reflexivity) Hmu' Hs' Hw')
    as (W & ll & E1 & EX & EX2 & E & Hex).
  destruct (Hex 0%nat 0%nat ltac:(lia) ltac:(lia)) as (ex & ex2 & HEX & HEX2).
  assert (Hrs := Estep_ok_row_stochastic _ _ _ _ _ _ _ _ _ _ _ _ _ _ E).
  destruct (Estep_ok_closed_form _ _ _ _ _ _ _ _ _ _ _ _ _ _ E)
    as (Hint & Hll & _).
  assert (HE1 : forall d, (d < 1)%nat ->
            E1 d 0%nat = Fin (E1_r sample_erf 2 1 l)
            /\ 0 < E1_r sample_erf 2 1 l).
  { intros d Hd. replace d with 0%nat by lia.
    unfold computeIntegrals in Hint.
    rewrite (proj2 (all2_true 1 1 _)) in Hint.
    2:{ intros d' k' Hd' Hk'. destruct (Hs' d' k' Hd' Hk') as [-> _].
        unfold fgtb, fltb. apply Rltb_true. lra. }
    cbn [negb] in Hint.
    replace (fgtb (Fin l) (Fin 0)) with true in Hint
      by (symmetry; apply Rltb_true, Hl).
    cbn [py_assert bind] in Hint. injection Hint as <- _ _.
    rewrite Hmu, Hs. split.
    - apply integrals_at_E1; lra.
    - apply E1_r_bounds; [lra|exact Hl|apply sample_erf_range]. }
  assert (HW0 : forall i, (i < 2)%nat ->
            computePosteriorLogZProbability 2 1 1 sample_Y mum sm wm (Fin l) E1
              i 0%nat
            = Fin (logpost_r 1 sample_Yr (fun _ _ => 2) (fun _ _ => 1)
                     (fun _ => 1) l (fun _ _ => 1) i 0)).
  { intros i Hi.
    rewrite (computePosterior_finite_entry 2 1 1 sample_Y mum sm wm E1
               sample_Yr (fun _ _ => 2) (fun _ _ => 1) (fun _ => 1) l
               (fun _ _ => E1_r sample_erf 2 1 l) i 0 Hl).
    - f_equal. unfold logpost_r, logpost_term, range. cbn [seq map].
      rewrite censored_sample. reflexivity.
    - intros d Hd. reflexivity.
    - intros d Hd. apply Hmu'; lia.
    - intros d Hd. apply Hs'; lia.
    - exact HE1.
    - exact Hw.
    - lra. }
  assert (Ell : ll = Fin (sample_ll l)).
  { rewrite Hll. f_equal.
    unfold ll_naive, lse_naive, Rrow, range. cbn [seq map]. unfold Rsum.
    cbn [fold_right]. unfold unlift2.
    rewrite (HW0 0%nat ltac:(lia)), (HW0 1%nat ltac:(lia)). cbn [to_R].
    rewrite !Rplus_0_r, !ln_exp. reflexivity. }
  rewrite Ell in E.
  exists W, E1, EX, EX2, ex, ex2. split; [exact E|].
  destruct (Hrs 0%nat ltac:(lia)) as [Hp0 Hs0].
  destruct (Hrs 1%nat ltac:(lia)) as [Hp1 Hs1].
  destruct (Hp0 0%nat ltac:(lia)) as (p0 & E0 & _).
  destruct (Hp1 0%nat ltac:(lia)) as (p1 & E1' & _).
  repeat split; eauto using single_column_row.
Qed.

(** The M-step of the small fit, whatever the minimizer. *)
Lemma sample_Mstep_any
  (mz : (npfloat -> npfloat * npfloat) -> npfloat -> npfloat * npfloat
        -> npfloat -> npfloat)
  (W EX EX2 mus sigmas : matrix) (weights : vector) (decay : npfloat)
  (ex ex2 : R) :
  W 0%nat 0%nat = Fin 1 -> W 1%nat 0%nat = Fin 1 ->
  EX 0%nat 0%nat = Fin ex -> EX2 0%nat 0%nat = Fin ex2 ->
  let m := Mstep mz 2 1 1 sample_Y W EX EX2 mus sigmas weights decay in
  fst (fst (fst m)) 0%nat 0%nat = Fin 2
  /\ snd (fst (fst m)) 0%nat 0%nat = Fin 1
  /\ snd (fst m) 0%nat = Fin 1
  /\ exists f, snd m = mz f decay (Fin 1e-4, PInf) (Fin 1e-8).
Proof.
  intros HW0 HW1 HEX HEX2. cbv zeta.
  unfold Mstep. cbn [fst snd].
  unfold sum_axis0, tile_rows, dot, sum3_axis0, transpose, tile_N1K, tile_1DK,
    tile_ND1, flat1, range.
  cbn [seq map]. unfold sample_Y. rewrite !is_zero_lift2, !censored_sample.
  unfold lift2, sample_Yr. cbn [Nat.eqb].
  rewrite HW0, HW1, HEX, HEX2.
  unfold fsum. cbn [fold_left b2f].
  repeat split.
  - fin_eval. f_equal. field.
  - fin_eval.
    match goal with |- fsqrt (Fin ?z) = _ => replace z with 1 by field end.
    rewrite fsqrt_fin by lra. rewrite sqrt_1. reflexivity.
  - fin_eval. f_equal. field.
  - eexists. reflexivity.
Qed.

Lemma sample_arrays_finite (W EX EX2 mus sigmas : matrix) (weights : vector)
  (ex ex2 : R) :
  W 0%nat 0%nat = Fin 1 -> W 1%nat 0%nat = Fin 1 ->
  EX 0%nat 0%nat = Fin ex -> EX2 0%nat 0%nat = Fin ex2 ->
  mus 0%nat 0%nat = Fin 2 -> sigmas 0%nat 0%nat = Fin 1 ->
  weights 0%nat = Fin 1 ->
  Forall all_finite [flat2 2 1 W; flat2 1 1 EX; flat2 1 1 EX2; flat2 1 1 mus;
                     flat2 1 1 sigmas; flat1 1 weights].
Proof.
  intros HW0 HW1 HEX HEX2 Hm Hs Hw.
  unfold flat2, flat1, row, range. cbn [seq flat_map map app].
  rewrite HW0, HW1, HEX, HEX2, Hm, Hs, Hw.
  repeat constructor; intros x Hx; cbn in Hx;
    repeat (destruct Hx as [<- | Hx]; [reflexivity|]); destruct Hx.
Qed.

Local Abbreviation faltering_iteration :=
  (em_iteration sample_erf faltering_minimize 2 1 1 sample_Y 5 (Fin 1e-2)).

(** The first pass of the fit with the faltering minimizer. *)
Lemma faltering_first_pass :
  exists mus sigmas weights zhat,
    faltering_iteration
      (init_state (fun _ _ => Fin 2) (fun _ _ => Fin 1) (fun _ => Fin 1) (Fin 1))
    = OK (Next,
          mk_em_state mus sigmas weights (Fin (/ 2)) 1 [Fin (sample_ll 1)]
            [zhat] [(Fin 1, Fin (sample_ll 1))])
    /\ mus 0%nat 0%nat = Fin 2 /\ sigmas 0%nat 0%nat = Fin 1
    /\ weights 0%nat = Fin 1.
Proof.
  unfold em_iteration, init_state.
  cbn [st_mus st_sigmas st_weights st_decay st_lls st_clusterings st_esteps
       st_n_iter].
  destruct (sample_Estep_at 1 (fun _ _ => Fin 2) (fun _ _ => Fin 1)
              (fun _ => Fin 1) ltac:(lra) eq_refl eq_refl eq_refl)
    as (W & E1 & EX & EX2 & ex & ex2 & E & HW0 & HW1 & HEX & HEX2).
  rewrite E. cbn [bind].
  destruct (sample_Mstep_any faltering_minimize W EX EX2 (fun _ _ => Fin 2)
              (fun _ _ => Fin 1) (fun _ => Fin 1) (Fin 1) ex ex2 HW0 HW1 HEX
              HEX2) as (Hm & Hs & Hw & f & Hd).
  destruct (Mstep faltering_minimize 2 1 1 sample_Y W EX EX2 _ _ _ _)
    as [[[mus sigmas] weights] decay].
  cbn [fst snd] in Hm, Hs, Hw, Hd.
  assert (Ed : decay = Fin (/ 2)).
  { rewrite Hd. unfold faltering_minimize.
    destruct (Req_dec_T 1 1) as [_|Hne]; [reflexivity|contradiction]. }
  clear Hd. subst decay.
  rewrite (proj2 (checkNoNans_ok _)).
  2:{ change (Forall all_finite
                ([flat2 2 1 W; flat2 1 1 EX; flat2 1 1 EX2; flat2 1 1 mus;
                  flat2 1 1 sigmas; flat1 1 weights] ++ [[Fin (/ 2)]])).
      apply Forall_app.
      split; [eapply sample_arrays_finite; eassumption|].
      repeat constructor. intros x [<- | []]. reflexivity. }
  cbn [bind].
  edestruct Estep_ok_decode as [zhat Hz]; [exact E|]. rewrite Hz.
  cbn [bind app likelihood_checks length Nat.leb].
  change (0 >=? 5)%Z with false. cbv iota.
  exists mus, sigmas, weights, zhat. repeat split; assumption.
Qed.

(** The second pass: the likelihood is lower, and the decay coefficient the
    M-step returns is nan. *)
Lemma faltering_second_pass (mus sigmas : matrix) (weights : vector)
  (zhat : list nat) :
  mus 0%nat 0%nat = Fin 2 -> sigmas 0%nat 0%nat = Fin 1 ->
  weights 0%nat = Fin 1 ->
  (exists W E1 EX EX2,
      Estep sample_erf 2 1 1 sample_Y mus sigmas weights (Fin (/ 2))
      = OK (W, Fin (sample_ll (/ 2)), E1, EX, EX2))
  /\ faltering_iteration
       (mk_em_state mus sigmas weights (Fin (/ 2)) 1 [Fin (sample_ll 1)]
          [zhat] [(Fin 1, Fin (sample_ll 1))])
     = Raise (NanOrInfError 6).
Proof.
  intros Hm Hs Hw.
  destruct (sample_Estep_at (/ 2) mus sigmas weights ltac:(lra) Hm Hs Hw)
    as (W & E1 & EX & EX2 & ex & ex2 & E & HW0 & HW1 & HEX & HEX2).
  split; [exists W, E1, EX, EX2; exact E|].
  unfold em_iteration.
  cbn [st_mus st_sigmas st_weights st_decay st_lls st_clusterings st_esteps
       st_n_iter].
  rewrite E. cbn [bind].
  destruct (sample_Mstep_any faltering_minimize W EX EX2 mus sigmas weights
              (Fin (/ 2)) ex ex2 HW0 HW1 HEX HEX2) as (Hm' & Hs' & Hw' & f & Hd).
  destruct (Mstep faltering_minimize 2 1 1 sample_Y W EX EX2 _ _ _ _)
    as [[[mus' sigmas'] weights'] decay'].
  cbn [fst snd] in Hm', Hs', Hw', Hd.
  assert (Ed : decay' = NaN).
  { rewrite Hd. unfold faltering_minimize.
    destruct (Req_dec_T (/ 2) 1) as [Heq|_]; [lra|reflexivity]. }
  clear Hd. subst decay'.
  assert (Hfin := sample_arrays_finite W EX EX2 mus' sigmas' weights' ex ex2
                    HW0 HW1 HEX HEX2 Hm' Hs' Hw').
  match goal with
  | |- context [checkNoNans ?Ms] =>
      assert (Hraise : checkNoNans Ms = Raise (NanOrInfError 6))
  end.
  { apply (checkNoNans_from_first _ 0%nat 6%nat). exists 6%nat.
    split; [reflexivity|]. split; [simpl; lia|]. split.
    - cbn [nth]. intros Hall. specialize (Hall NaN (or_introl eq_refl)).
      discriminate.
    - intros i Hi. rewrite Forall_forall in Hfin.
      apply Hfin. do 6 (destruct i as [|i]; [cbn; auto 10|]). lia. }
  rewrite Hraise. reflexivity.
Qed.

(** The run of fitModel on the small fit's data with the faltering
    minimizer: the second E-step returns a likelihood strictly below the one
    in the trace, and the fit raises, on the check that follows the M-step,
    the exception that names a matrix index and no likelihood. *)
Lemma fitModel_decrease_hidden_by_check :
  exists st1 W E1 EX EX2,
    reaches sample_erf faltering_minimize 2 1 1 sample_Y 5 (Fin 1e-2)
      (init_state (fun _ _ => Fin 2) (fun _ _ => Fin 1) (fun _ => Fin 1) (Fin 1))
      st1
    /\ st_lls st1 = [Fin (sample_ll 1)]
    /\ Estep sample_erf 2 1 1 sample_Y (st_mus st1) (st_sigmas st1)
         (st_weights st1) (st_decay st1)
       = OK (W, Fin (sample_ll (/ 2)), E1, EX, EX2)
    /\ fltb (Fin (sample_ll (/ 2))) (Fin (sample_ll 1)) = true
    /\ fitModel sample_erf faltering_minimize sample_init 2 1 1 sample_Y 5
         (Fin 1e-2)
       = Failed (NanOrInfError 6).
Proof.
  destruct faltering_first_pass as (mus & sigmas & weights & zhat & H1 & Hm & Hs & Hw).
  destruct (faltering_second_pass mus sigmas weights zhat Hm Hs Hw)
    as ((W & E1 & EX & EX2 & E) & H2).
  eexists. exists W, E1, EX, EX2. split; [|split; [|split; [|split]]].
  - eapply reaches_next; [apply reaches_start|reflexivity|exact H1].
  - reflexivity.
  - exact E.
  - unfold fltb. apply Rltb_true, sample_ll_decreases.
  - unfold fitModel, fitModel_traced. rewrite sample_initalizeParams.
    rewrite (proj2 (checkNoNans_ok _)).
    2:{ repeat constructor; intros x Hx; unfold flat2, flat1, row, range in Hx;
        cbn in Hx; destruct Hx as [<- | []]; reflexivity. }
    change (Z.to_nat 5) with 5%nat.
    cbn [em_loop]. change (st_n_iter (init_state _ _ _ _)) with 0%Z.
    change (0 <? 5)%Z with true. cbv iota.
    rewrite H1. cbn [st_n_iter]. change (1 <? 5)%Z with true. cbv iota.
    rewrite H2. reflexivity.
Qed.

(** ** A normalization constant that is 0 *)

Lemma saturating_erf_range (x : R) : -1 <= saturating_erf x <= 1.
Proof.
  unfold saturating_erf.
  destruct (Rle_dec x (-6)); [lra|].
  destruct (Rle_dec 6 x); [lra|].
  assert (H := sample_erf_range x). lra.
Qed.

Lemma saturating_argument :
  b_r (-15) 1 1 * sqrt (a_r 1 1) <= -6.
Proof.
  assert (Ea : a_r 1 1 = 3 / 2) by (unfold a_r; field).
  assert (Eb : b_r (-15) 1 1 = -5) by (unfold b_r; rewrite Ea; field).
  rewrite Eb, Ea.
  assert (Hs : 6 / 5 <= sqrt (3 / 2)).
  { rewrite <- (sqrt_square (6 / 5)) by lra. apply sqrt_le_1; lra. }
  lra.
Qed.

(** At mean -15, sigma 1 and decay coefficient 1 the argument of erf is
    below -6, erf returns -1, and the entry of E1 is 0: not in (0, 1]. *)
Lemma computeIntegrals_E1_zero :
  exists E1 EX EX2,
    computeIntegrals saturating_erf 1 1 (lift2 (fun _ _ => -15))
      (lift2 (fun _ _ => 1)) (Fin 1) = OK (E1, EX, EX2)
    /\ E1 0%nat 0%nat = Fin 0
    /\ ~ (exists e, E1 0%nat 0%nat = Fin e /\ 0 < e <= 1).
Proof.
  rewrite (computeIntegrals_real_parameters saturating_erf 1 1
             (fun _ _ => -15) (fun _ _ => 1) 1)
    by (intros; lra).
  do 3 eexists. split; [reflexivity|]. cbn beta.
  assert (E0 : fst (fst (integrals_at saturating_erf (Fin (-15)) (Fin 1) (Fin 1)))
               = Fin 0).
  { rewrite integrals_at_E1 by lra. f_equal.
    apply E1_r_zero_iff; [lra|]. apply C_r_zero_iff; [lra|lra|].
    unfold saturating_erf.
    destruct (Rle_dec (b_r (-15) 1 1 * sqrt (a_r 1 1)) (-6)) as [_|Hn];
      [reflexivity|].
    exfalso. apply Hn, saturating_argument. }
  split; [exact E0|].
  intros (e & He & Hpos). rewrite E0 in He. injection He as <-. lra.
Qed.

(** ** A matrix without columns *)

Lemma computeLLFromW_raises_without_columns :
  all_finite (flat2 1 0 (lift2 (fun _ _ => 0)))
  /\ computeLLFromW 1 0 (lift2 (fun _ _ => 0)) = Raise ValueError.
Proof. split; [intros x []|reflexivity]. Qed.

(** ** Bounds used at the concrete inputs *)

Lemma DBL_MAX_large : 16 <= DBL_MAX.
Proof.
  unfold DBL_MAX.
  assert (H52 : 1 <= 2 ^ 52) by (apply pow_R1_Rle; lra).
  assert (Hi : / 2 ^ 52 <= 1).
  { rewrite <- Rinv_1. apply Rinv_le_contravar; lra. }
  assert (Hp : 2 ^ 4 <= 2 ^ 1023) by (apply Rle_pow; [lra|lia]).
  assert (E4 : 2 ^ 4 = 16) by (simpl; lra).
  nra.
Qed.

Lemma ln_2_le_1 : ln 2 <= 1.
Proof.
  left. apply Rlt_le_trans with (ln (exp 1)).
  - apply ln_increasing; [lra|].
    assert (H := exp_ineq1 1 ltac:(lra)). lra.
  - rewrite ln_exp. lra.
Qed.

Lemma identity_in_range :
  ll_in_range 2 2 (fun i k => if Nat.eqb i k then 1 else 0).
Proof.
  intros i k _ _.
  assert (Hw : Rabs (if Nat.eqb i k then 1 else 0) <= 1).
  { destruct (Nat.eqb i k); [rewrite Rabs_R1|rewrite Rabs_R0]; lra. }
  assert (Hl := ln_2_le_1). assert (Hm := DBL_MAX_large).
  change (INR 2) with (1 + 1).
  assert (H0 := Rabs_pos (if Nat.eqb i k then 1 else 0)).
  assert (Hln : 0 <= ln (1 + 1)).
  { rewrite <- ln_1. left. apply ln_increasing; lra. }
  replace (1 + 1) with 2 in * by lra. nra.
Qed.

(** The argument of erf at mean 2, sigma 1, lambda 1 is positive. *)
Lemma sample_erf_benign :
  - / 2 <= sample_erf (b_r 2 1 1 * sqrt (a_r 1 1)).
Proof.
  assert (Ea : a_r 1 1 = 3 / 2) by (unfold a_r; field).
  assert (Eb : b_r 2 1 1 = 2 / 3) by (unfold b_r; rewrite Ea; field).
  rewrite Eb, Ea.
  assert (Hs : 0 <= sqrt (3 / 2)) by apply sqrt_pos.
  assert (Harg : 0 <= 2 / 3 * sqrt (3 / 2)) by nra.
  unfold sample_erf. rewrite (Rabs_pos_eq _ Harg).
  assert (0 <= 2 / 3 * sqrt (3 / 2) / (1 + 2 / 3 * sqrt (3 / 2))).
  { apply Rle_mult_inv_pos; lra. }
  lra.
Qed.

(* ================================================================= *)
(** * The theorems at concrete inputs *)




(** C4 at the small fit. *)
Lemma fitModel_trace_omits_final_estep_witness :
  exists zhat params esteps ll_final,
    sample_fit = Done (zhat, params, esteps)
    /\ map snd esteps = lls params ++ [ll_final]
    /\ length esteps = S (length (lls params)).
Proof.
  destruct sample_fit_done as (zhat & params & d1 & ll1 & d2 & ll2 & E & Hl).
  destruct (fitModel_trace_omits_final_estep sample_erf sample_minimize
              sample_init 2 1 1 sample_Y 1 (Fin 1e-2) zhat params _ E)
    as (ll_final & H).
  exists zhat, params, [(d1, ll1); (d2, ll2)], ll_final.
  split; [exact E|exact H].
Defined.


(** C6 at the small fit's data and initial parameters. *)
Lemma Estep_row_stochastic_witness :
  exists W ll E1 EX EX2,
    Estep sample_erf 2 1 1 sample_Y (fun _ _ => Fin 2) (fun _ _ => Fin 1)
      (fun _ => Fin 1) (Fin 1) = OK (W, ll, E1, EX, EX2)
    /\ row_stochastic 2 1 W
    /\ forall i k, (i < 2)%nat -> (k < 1)%nat ->
         exists p, W i k = Fin p /\ 0 <= p <= 1.
Proof.
  destruct (sample_Estep (fun _ _ => Fin 2) (fun _ _ => Fin 1) (fun _ => Fin 1)
              eq_refl eq_refl eq_refl)
    as (W & ll & E1 & EX & EX2 & ex & ex2 & E & _).
  exists W, ll, E1, EX, EX2. split; [exact E|].
  exact (Estep_row_stochastic sample_erf 2 1 1 sample_Y _ _ _ _ W ll E1 EX EX2
           E).
Defined.

(** C7 at the small fit, max_iter = 1. *)
Lemma fitModel_iteration_cap_witness :
  fitModel sample_erf sample_minimize sample_init 2 1 1 sample_Y 1 (Fin 1e-2)
  <> OutOfFuel
  /\ (forall zhat params,
         fitModel sample_erf sample_minimize sample_init 2 1 1 sample_Y 1
           (Fin 1e-2) = Done (zhat, params) ->
         (Z.of_nat (length (lls params)) <= 1)%Z).
Proof.
  exact (proj2 (proj2 (proj2
           (fitModel_iteration_cap sample_erf sample_minimize sample_init
              2 1 1 sample_Y 1 (Fin 1e-2) ltac:(lia))))).
Defined.

(** C8 at the small fit's initial parameters. *)
Lemma Estep_raises_on_nonfinite_witness :
  exists E1 EX EX2,
    computeIntegrals sample_erf 1 1 (fun _ _ => Fin 2) (fun _ _ => Fin 1) (Fin 1)
    = OK (E1, EX, EX2)
    /\ (forall ll,
           computeLLFromW 2 1
             (computePosteriorLogZProbability 2 1 1 sample_Y (fun _ _ => Fin 2)
                (fun _ _ => Fin 1) (fun _ => Fin 1) (Fin 1) E1) = OK ll ->
           Estep sample_erf 2 1 1 sample_Y (fun _ _ => Fin 2)
             (fun _ _ => Fin 1) (fun _ => Fin 1) (Fin 1)
           = Estep_after_likelihood 2 1
               (computePosteriorLogZProbability 2 1 1 sample_Y
                  (fun _ _ => Fin 2) (fun _ _ => Fin 1) (fun _ => Fin 1)
                  (Fin 1) E1)
               ll E1 EX EX2)
    /\ (forall W ll E1' EX' EX2', isinf ll = true ->
           Estep_after_likelihood 2 1 W ll E1' EX' EX2' = Raise AssertionError)
    /\ (forall ll,
           computeLLFromW 2 1
             (computePosteriorLogZProbability 2 1 1 sample_Y (fun _ _ => Fin 2)
                (fun _ _ => Fin 1) (fun _ => Fin 1) (Fin 1) E1) = OK ll ->
           isnan ll = false).
Proof.
  destruct (computeIntegrals_valid_checked sample_erf 1 1 (fun _ _ => Fin 2)
              (fun _ _ => Fin 1) (fun _ _ => 2) (fun _ _ => 1) 1
              sample_erf_range ltac:(lra) ltac:(reflexivity)
              ltac:(intros; split; [reflexivity|lra]))
    as (E1 & EX & EX2 & Hint & Hchk).
  exists E1, EX, EX2.
  destruct (Estep_raises_on_nonfinite sample_erf 2 1 1 sample_Y (fun _ _ => Fin 2)
              (fun _ _ => Fin 1) (fun _ => Fin 1) (Fin 1) E1 EX EX2 Hint Hchk)
    as (_ & Hgo & Hassert & Hnan).
  split; [exact Hint|]. split; [exact Hgo|]. split; [exact Hassert|exact Hnan].
Defined.

(** C9 at sigma = 0, and at sigma = 1 with lambda = 1. *)
Lemma computeIntegrals_guards_witness :
  computeIntegrals sample_erf 1 1 (fun _ _ => Fin 2) (fun _ _ => Fin 0) (Fin 1)
  = Raise (SigmaError
             (count2 1 1 (fun _ _ => fltb (Fin 0) (Fin 0)))
             (count2 1 1 (fun _ _ => fltb (fabs (Fin 0)) (Fin 1e-6))))
  /\ exists r,
       computeIntegrals sample_erf 1 1 (fun _ _ => Fin 2) (fun _ _ => Fin 1)
         (Fin 1) = OK r.
Proof.
  split.
  - apply (proj1 (computeIntegrals_guards sample_erf 1 1 (fun _ _ => Fin 2)
                    (fun _ _ => Fin 0) (Fin 1))).
    exists 0%nat, 0%nat. repeat split; try lia.
    unfold fgtb, fltb. apply Rltb_false. lra.
  - apply (proj2 (proj2 (computeIntegrals_guards sample_erf 1 1 (fun _ _ => Fin 2)
                           (fun _ _ => Fin 1) (Fin 1)))).
    + intros d k _ _. unfold fgtb, fltb. apply Rltb_true. lra.
    + unfold fgtb, fltb. apply Rltb_true. lra.
Defined.

(** C10 at the small fit, with the projecting minimizer. *)
Lemma Mstep_decay_lower_bound_witness :
  exists zhat params esteps,
    sample_fit = Done (zhat, params, esteps)
    /\ Forall (fun e => decay_bounded (fst e) /\ fgtb (fst e) (Fin 0) = true)
         (tl esteps)
    /\ (lls params <> [] -> decay_bounded (decay_coef params)).
Proof.
  destruct sample_fit_done as (zhat & params & d1 & ll1 & d2 & ll2 & E & Hl).
  exists zhat, params, [(d1, ll1); (d2, ll2)]. split; [exact E|].
  exact (proj2 (proj2 (Mstep_decay_lower_bound sample_erf sample_minimize
                         sample_init 2 1 1 sample_Y 1 (Fin 1e-2)
                         sample_minimize_bounds))
           zhat params _ E).
Defined.

(* ================================================================= *)
(** * The further properties at concrete inputs *)

Lemma sample_erf_odd (x : R) : sample_erf (- x) = - sample_erf x.
Proof.
  unfold sample_erf. rewrite Rabs_Ropp.
  assert (H := Rabs_pos x). field. lra.
Qed.

Lemma censored_3 : censored 3 = false.
Proof. unfold censored. apply Rltb_false. rewrite Rabs_pos_eq; lra. Qed.

Lemma sample_fitModel_done :
  exists zhat params,
    fitModel sample_erf sample_minimize sample_init 2 1 1 sample_Y 1 (Fin 1e-2)
    = Done (zhat, params).
Proof.
  destruct sample_fit_done as (zhat & params & d1 & ll1 & d2 & ll2 & E & _).
  exists zhat, params. unfold fitModel. rewrite E. reflexivity.
Qed.

(** The small fit with max_iter = 0: the final E-step only. *)
Lemma sample_fitModel_no_loop :
  exists zhat params,
    fitModel sample_erf sample_minimize sample_init 2 1 1 sample_Y 0 (Fin 1e-2)
    = Done (zhat, params).
Proof.
  unfold fitModel, fitModel_traced. rewrite sample_initalizeParams.
  rewrite (proj2 (checkNoNans_ok _)).
  2:{ repeat constructor; intros x Hx; unfold flat2, flat1, row, range in Hx;
      cbn in Hx; destruct Hx as [<- | []]; reflexivity. }
  change (Z.to_nat 0) with 0%nat. cbn [em_loop init_state st_n_iter].
  change (0 <? 0)%Z with false. cbv iota. unfold init_state.
  cbn [st_mus st_sigmas st_weights st_decay st_lls st_esteps].
  destruct (sample_Estep (fun _ _ => Fin 2) (fun _ _ => Fin 1) (fun _ => Fin 1)
              eq_refl eq_refl eq_refl)
    as (W & ll & E1 & EX & EX2 & ex & ex2 & E & _).
  rewrite E.
  edestruct Estep_ok_decode as [zhat Hz]; [exact E|]. rewrite Hz.
  do 2 eexists. reflexivity.
Qed.

Lemma ones_row_stochastic : row_stochastic 2 1 (fun _ _ => Fin 1).
Proof.
  intros i _. split.
  - intros k _. exists 1. split; [reflexivity|lra].
  - unfold row, range, fsum. cbn [seq map fold_left]. rewrite fadd_fin.
    f_equal. lra.
Qed.

(** X3 at the 2 x 2 identity matrix. *)
Lemma decode_first_largest_witness :
  exists zhat,
    decode 2 2 (lift2 (fun i k => if Nat.eqb i k then 1 else 0)) = OK zhat
    /\ length zhat = 2%nat
    /\ forall i, (i < 2)%nat ->
         (nth i zhat 0 < 2)%nat
         /\ ((forall k, (k < 2)%nat ->
                lift2 (fun i k => if Nat.eqb i k then 1 else 0) i k
                = Fin (unlift2 (lift2 (fun i k => if Nat.eqb i k then 1 else 0))
                         i k)) ->
             (forall k, (k < 2)%nat ->
                unlift2 (lift2 (fun i k => if Nat.eqb i k then 1 else 0)) i k
                <= unlift2 (lift2 (fun i k => if Nat.eqb i k then 1 else 0)) i
                     (nth i zhat 0%nat))
             /\ (forall k, (k < nth i zhat 0)%nat ->
                   unlift2 (lift2 (fun i k => if Nat.eqb i k then 1 else 0)) i k
                   < unlift2 (lift2 (fun i k => if Nat.eqb i k then 1 else 0)) i
                       (nth i zhat 0%nat))).
Proof.
  eexists. split; [reflexivity|].
  exact (decode_first_largest 2 2
           (lift2 (fun i k => if Nat.eqb i k then 1 else 0)) _ eq_refl).
Defined.

(** X4 at the small fit. *)
Lemma fitModel_assignments_witness :
  exists zhat params,
    fitModel sample_erf sample_minimize sample_init 2 1 1 sample_Y 1 (Fin 1e-2)
    = Done (zhat, params)
    /\ length zhat = 2%nat
    /\ exists W ll E1 EX EX2,
         Estep sample_erf 2 1 1 sample_Y (cluster_mus params)
           (cluster_sigmas params) (cluster_weights params) (decay_coef params)
         = OK (W, ll, E1, EX, EX2)
         /\ row_stochastic 2 1 W
         /\ forall i, (i < 2)%nat ->
              (nth i zhat 0 < 1)%nat
              /\ (forall k, (k < 1)%nat ->
                            unlift2 W i k <= unlift2 W i (nth i zhat 0%nat))
              /\ (forall k, (k < nth i zhat 0)%nat ->
                            unlift2 W i k < unlift2 W i (nth i zhat 0%nat)).
Proof.
  destruct sample_fitModel_done as (zhat & params & E).
  exists zhat, params. split; [exact E|].
  exact (fitModel_assignments sample_erf sample_minimize sample_init 2 1 1
           sample_Y 1 (Fin 1e-2) zhat params E).
Defined.

(** X6 at the small fit with max_iter = 0. *)
Lemma fitModel_no_iterations_witness :
  exists zhat params,
    fitModel sample_erf sample_minimize sample_init 2 1 1 sample_Y 0 (Fin 1e-2)
    = Done (zhat, params)
    /\ exists mus sigmas weights decay,
         initalizeParams sample_init 2 1 sample_Y 1
         = OK (mus, sigmas, weights, decay)
         /\ params = mk_model_params mus sigmas weights decay [].
Proof.
  destruct sample_fitModel_no_loop as (zhat & params & E).
  exists zhat, params. split; [exact E|].
  exact (fitModel_no_iterations sample_erf sample_minimize sample_init 2 1 1
           sample_Y 0 (Fin 1e-2) zhat params ltac:(lia) E).
Defined.

(** X8 at the small fit. *)
Lemma fitModel_returns_valid_parameters_witness :
  exists zhat params,
    fitModel sample_erf sample_minimize sample_init 2 1 1 sample_Y 1 (Fin 1e-2)
    = Done (zhat, params)
    /\ (forall d k, (d < 1)%nat -> (k < 1)%nat ->
          exists m s, cluster_mus params d k = Fin m
                      /\ cluster_sigmas params d k = Fin s /\ 0 < s)
    /\ (forall k, (k < 1)%nat -> exists w, cluster_weights params k = Fin w)
    /\ (exists l, decay_coef params = Fin l /\ 0 < l)
    /\ (forall x, In x (lls params) -> exists r, x = Fin r).
Proof.
  destruct sample_fitModel_done as (zhat & params & E).
  exists zhat, params. split; [exact E|].
  exact (fitModel_returns_valid_parameters sample_erf sample_minimize
           sample_init 2 1 1 sample_Y 1 (Fin 1e-2) zhat params E).
Defined.



(** X12 at two samples with responsibility 1 for the one cluster. *)
Lemma Mstep_weights_normalized_witness :
  let new_weights :=
    snd (fst (Mstep sample_minimize 2 1 1 sample_Y (fun _ _ => Fin 1)
                (fun _ _ => Fin 0) (fun _ _ => Fin 0) (fun _ _ => Fin 2)
                (fun _ _ => Fin 1) (fun _ => Fin 1) (Fin 1))) in
  (forall k, (k < 1)%nat ->
     new_weights k
     = Fin (Rsum (map (fun i => unlift2 (fun _ _ => Fin 1) i k) (range 2))
            / INR 2)
     /\ 0 <= Rsum (map (fun i => unlift2 (fun _ _ => Fin 1) i k) (range 2))
             / INR 2)
  /\ fsum (flat1 1 new_weights) = Fin 1.
Proof.
  apply (Mstep_weights_normalized sample_minimize 2 1 1 sample_Y
           (fun _ _ => Fin 1)).
  - lia.
  - exact ones_row_stochastic.
Defined.

(** X13 at the small fit's data, both responsibilities 1. *)
Lemma Mstep_uncensored_is_gmm_witness :
  fst (fst (fst (Mstep sample_minimize 2 1 1 sample_Y (fun _ _ => Fin 1)
                   (fun _ _ => Fin 0) (fun _ _ => Fin 0) (fun _ _ => Fin 2)
                   (fun _ _ => Fin 1) (fun _ => Fin 1) (Fin 1)))) 0%nat 0%nat
  = Fin (gmm_mean 2 sample_Yr (fun _ _ => 1) 0 0)
  /\ snd (fst (fst (Mstep sample_minimize 2 1 1 sample_Y (fun _ _ => Fin 1)
                      (fun _ _ => Fin 0) (fun _ _ => Fin 0) (fun _ _ => Fin 2)
                      (fun _ _ => Fin 1) (fun _ => Fin 1) (Fin 1)))) 0%nat 0%nat
     = Fin (gmm_sigma 2 sample_Yr (fun _ _ => 1) 0 0).
Proof.
  apply (Mstep_uncensored_is_gmm sample_minimize 2 1 1 sample_Y
           (fun _ _ => Fin 1) (fun _ _ => Fin 0) (fun _ _ => Fin 0)
           (fun _ _ => Fin 2) (fun _ _ => Fin 1) (fun _ => Fin 1) (Fin 1)
           sample_Yr (fun _ _ => 1)).
  - intros i d _ _. split; [reflexivity|apply censored_sample].
  - intros i k _ _. split; [reflexivity|lra].
  - intros d k _ _. split; reflexivity.
  - lia.
  - lia.
  - unfold range, Rsum. cbn [seq map fold_right]. lra.
Defined.

(** X14 at the one sample 3, mean 2, sigma 1, weight 1, lambda 1. *)
Lemma Mstep_single_sample_degenerates_witness :
  exists W ll E1 EX EX2,
    Estep sample_erf 1 1 1 (lift2 (fun _ _ => 3)) (lift2 (fun _ _ => 2))
      (lift2 (fun _ _ => 1)) (lift1 (fun _ => 1)) (Fin 1)
    = OK (W, ll, E1, EX, EX2)
    /\ let new_sigmas :=
         snd (fst (fst (Mstep sample_minimize 1 1 1 (lift2 (fun _ _ => 3)) W EX
                          EX2 (lift2 (fun _ _ => 2)) (lift2 (fun _ _ => 1))
                          (lift1 (fun _ => 1)) (Fin 1)))) in
       fst (fst (fst (Mstep sample_minimize 1 1 1 (lift2 (fun _ _ => 3)) W EX
                        EX2 (lift2 (fun _ _ => 2)) (lift2 (fun _ _ => 1))
                        (lift1 (fun _ => 1)) (Fin 1)))) 0%nat 0%nat
       = Fin 3
       /\ new_sigmas 0%nat 0%nat = Fin 0
       /\ isfinite (new_sigmas 0%nat 0%nat) = true
       /\ forall N' Y' mus' weights' decay',
            exists n_negative n_zero,
              Estep sample_erf N' 1 1 Y' mus' new_sigmas weights' decay'
              = Raise (SigmaError n_negative n_zero).
Proof.
  destruct (Estep_valid_ok sample_erf 1 1 1 (lift2 (fun _ _ => 3))
              (lift2 (fun _ _ => 2)) (lift2 (fun _ _ => 1)) (lift1 (fun _ => 1))
              (fun _ _ => 3) (fun _ _ => 2) (fun _ _ => 1) (fun _ => 1) 1
              sample_erf_range ltac:(lia) ltac:(lra)
              ltac:(intros; reflexivity) ltac:(intros; reflexivity)
              ltac:(intros; split; [reflexivity|lra])
              ltac:(intros; split; [reflexivity|lra]))
    as (W & ll & E1 & EX & EX2 & E & _).
  exists W, ll, E1, EX, EX2. split; [exact E|].
  exact (Mstep_single_sample_degenerates sample_erf sample_minimize 1
           (lift2 (fun _ _ => 3)) _ _ _ _ W ll E1 EX EX2 0%nat 3 E Nat.lt_0_1
           eq_refl censored_3).
Defined.


(** X16 at the small fit's data and initial parameters. *)
Lemma single_cluster_is_trivial_witness :
  exists W ll E1 EX EX2,
    Estep sample_erf 2 1 1 sample_Y (fun _ _ => Fin 2) (fun _ _ => Fin 1)
      (fun _ => Fin 1) (Fin 1) = OK (W, ll, E1, EX, EX2)
    /\ (forall i, (i < 2)%nat -> W i 0%nat = Fin 1)
    /\ decode 2 1 W = OK (repeat 0%nat 2)
    /\ ((0 < 2)%nat ->
        snd (fst (Mstep sample_minimize 2 1 1 sample_Y W EX EX2
                    (fun _ _ => Fin 2) (fun _ _ => Fin 1) (fun _ => Fin 1)
                    (Fin 1))) 0%nat = Fin 1).
Proof.
  destruct (sample_Estep (fun _ _ => Fin 2) (fun _ _ => Fin 1) (fun _ => Fin 1)
              eq_refl eq_refl eq_refl)
    as (W & ll & E1 & EX & EX2 & ex & ex2 & E & _).
  exists W, ll, E1, EX, EX2. split; [exact E|].
  exact (single_cluster_is_trivial sample_erf sample_minimize 2 1 sample_Y _ _ _
           _ W ll E1 EX EX2 E).
Defined.

(** X17 at the small fit's data, both responsibilities 1, term_1 = 0 and
    x = 1. *)
Lemma decayCoefObjectiveFn_closed_form_witness :
  decayCoefObjectiveFn 2 1 1 (Fin 1) (Fin 0) sample_Y (is_zero sample_Y)
    (fun _ _ => Fin 1)
  = (Fin (decay_obj_r 2 1 1 sample_Yr (fun _ _ => 1) 0 1),
     Fin (decay_grad_r 2 1 1 sample_Yr (fun _ _ => 1) 0 1))
  /\ derivable_pt_lim
       (fun z => to_R (fst (decayCoefObjectiveFn 2 1 1 (Fin z) (Fin 0) sample_Y
                              (is_zero sample_Y) (fun _ _ => Fin 1))))
       1 (decay_deriv_r 2 1 1 sample_Yr (fun _ _ => 1) 0 1).
Proof.
  apply (decayCoefObjectiveFn_closed_form 2 1 1 sample_Y (fun _ _ => Fin 1)
           sample_Yr (fun _ _ => 1) 0 1).
  - intros i d _ _. reflexivity.
  - intros i k _ _. reflexivity.
  - lra.
Defined.

(** X18 at one sample 3 with responsibility 1, term_1 = 0 and x = 1. *)
Lemma decayCoefObjectiveFn_gradient_mismatch_witness :
  let objective := fun z =>
    to_R (fst (decayCoefObjectiveFn 1 1 1 (Fin z) (Fin 0) (lift2 (fun _ _ => 3))
                 (is_zero (lift2 (fun _ _ => 3))) (fun _ _ => Fin 1))) in
  let gradient :=
    to_R (snd (decayCoefObjectiveFn 1 1 1 (Fin 1) (Fin 0) (lift2 (fun _ _ => 3))
                 (is_zero (lift2 (fun _ _ => 3))) (fun _ _ => Fin 1))) in
  (exists dv, derivable_pt_lim objective 1 dv /\ dv < gradient)
  /\ ~ derivable_pt_lim objective 1 gradient.
Proof.
  apply (decayCoefObjectiveFn_gradient_mismatch 1 1 1 (lift2 (fun _ _ => 3))
           (fun _ _ => Fin 1) (fun _ _ => 3) (fun _ _ => 1) 0 1 0 0 0).
  - intros i d _ _. reflexivity.
  - intros i k _ _. reflexivity.
  - lra.
  - intros i k _ _. lra.
  - intros i d _ _ _. lra.
  - lia.
  - lia.
  - lia.
  - lra.
  - apply censored_3.
Defined.
